(** * pyxi: a structural bit-stream codec

    A shallow embedding of [pyxi.hpp] (namespace [pyxi]) and the
    verification of its specification.

    Conventions of the embedding.
    - The platform is an LP64 one: [sizeof(size_t) = 8], [CHAR_BIT = 8].
    - A [uint8_t] is a [Z] in [0, 2^8), a [size_t] a [Z] in [0, 2^64);
      every C++ operation that can leave the range is followed by the
      wrap-around the language prescribes ([u8], [usize]).
    - A C++ exception is the [Err] branch of [result]; the state of the
      object that threw is not observable afterwards.
    - Class hierarchies are flattened: [DynamicSerializer] carries the
      members of [BytewiseSerializer], [BufferDeserializer] those of
      [BytewiseDeserializer]; the pure virtual [putByte]/[getByte] are the
      ones of the concrete classes. *)

From Stdlib Require Import String ZArith List Bool Lia.
From Equations Require Import Equations.
Import ListNotations.
Open Scope Z_scope.

(** ** Platform constants and fixed-width arithmetic *)

Definition CHAR_BIT : Z := 8.

(** [sizeof(size_t)] on the modelled platform. *)
Definition sizeof_size_t : Z := 8.

(** [bitsize<T>::value = sizeof(T) * CHAR_BIT], as a function of [sizeof(T)]. *)
Definition bitsize (sizeofT : Z) : Z := sizeofT * CHAR_BIT.

(** [bitsize<size_t>::value]. *)
Definition word_bits : Z := Eval cbv in bitsize sizeof_size_t.

(** Conversion to [uint8_t] and to [size_t] (reduction modulo [2^N]). *)
Definition u8 (x : Z) : Z := x mod 2 ^ 8.
Definition usize (x : Z) : Z := x mod 2 ^ word_bits.

(** [~x] on a [size_t]. *)
Definition usize_not (x : Z) : Z := usize (Z.lnot x).

(** ** Errors *)

Inductive error : Type :=
| invalid_argument (what : string)   (* std::invalid_argument *)
| out_of_range (what : string)       (* std::out_of_range *)
| ill_typed.                         (* operand rejected by the C++ type checker;
                                        never raised at run time *)

Inductive result (A : Type) : Type :=
| Ok (a : A)
| Err (e : error).
Arguments Ok {A} a.
Arguments Err {A} e.

Definition bind {A B : Type} (r : result A) (k : A -> result B) : result B :=
  match r with
  | Ok a => k a
  | Err e => Err e
  end.

Notation "x <- c ;; k" := (bind c (fun x => k))
  (at level 61, c at next level, right associativity).
Notation "' p <- c ;; k" := (bind c (fun x => let p := x in k))
  (at level 61, p pattern, c at next level, right associativity).

Definition is_ok {A : Type} (r : result A) : bool :=
  match r with Ok _ => true | Err _ => false end.

Definition is_invalid_argument {A : Type} (r : result A) : bool :=
  match r with Err (invalid_argument _) => true | _ => false end.

(** ** Integral types *)

Inductive ikind : Type := KBool | KSigned | KUnsigned.

(** An integral type ([std::is_integral]): its kind and its [sizeof]. *)
Record itype : Type := IType { kind : ikind; sizeof : Z }.

Definition is_signed (T : itype) : bool :=
  match kind T with KSigned => true | _ => false end.

Definition bool_t : itype := IType KBool 1.
Definition char_t : itype := IType KSigned 1.
Definition int8_t : itype := IType KSigned 1.
Definition int16_t : itype := IType KSigned 2.
Definition int32_t : itype := IType KSigned 4.
Definition int64_t : itype := IType KSigned 8.
Definition uint8_t : itype := IType KUnsigned 1.
Definition uint16_t : itype := IType KUnsigned 2.
Definition uint32_t : itype := IType KUnsigned 4.
Definition uint64_t : itype := IType KUnsigned 8.
Definition size_t : itype := IType KUnsigned sizeof_size_t.

(** The values of an integral type. *)
Definition in_range (T : itype) (z : Z) : bool :=
  match kind T with
  | KBool => (0 <=? z) && (z <=? 1)
  | KUnsigned => (0 <=? z) && (z <? 2 ^ bitsize (sizeof T))
  | KSigned => (- 2 ^ (bitsize (sizeof T) - 1) <=? z) && (z <? 2 ^ (bitsize (sizeof T) - 1))
  end.

(** The implicit conversion of a [T] argument to the [size_t] parameter of
    [impl]. *)
Definition to_size_t (z : Z) : Z := usize z.

(** [static_cast<T>(v)] for a [size_t] [v]. *)
Definition static_cast (T : itype) (v : Z) : Z :=
  match kind T with
  | KBool => if v =? 0 then 0 else 1
  | KUnsigned => v mod 2 ^ bitsize (sizeof T)
  | KSigned =>
      let w := bitsize (sizeof T) in
      (v + 2 ^ (w - 1)) mod 2 ^ w - 2 ^ (w - 1)
  end.

(** ** Byte order *)

Inductive ByteOrder : Type := MsbFirst | LsbFirst.

(** ** Serializer: [Serializer], [BytewiseSerializer], [DynamicSerializer] *)

Module DynamicSerializer.

Record t : Type := mk {
  byteOrder_ : ByteOrder;
  byte_ : Z;             (* uint8_t *)
  bitsSet_ : Z;          (* uint8_t *)
  bytes : list Z         (* std::vector<uint8_t> *)
}.

(** [DynamicSerializer(byteOrder)]. *)
Definition init (o : ByteOrder) : t := mk o 0 0 [].

(** [DynamicSerializer::putByte]: [bytes.push_back(byte)]. *)
Definition putByte (b : Z) (s : t) : t :=
  mk (byteOrder_ s) (byte_ s) (bitsSet_ s) (bytes s ++ [b]).

(** [BytewiseSerializer::flush]. *)
Definition flush (s : t) : t :=
  if negb (bitsSet_ s =? 0) then
    let s1 := putByte (byte_ s) s in
    mk (byteOrder_ s1) 0 0 (bytes s1)
  else s.

Definition byteMask (o : ByteOrder) : Z :=
  match o with MsbFirst => 0x01 | LsbFirst => 0x80 end.

Definition dataMask (o : ByteOrder) : Z :=
  match o with MsbFirst => Z.shiftl 1 (word_bits - 1) | LsbFirst => 1 end.

(** One iteration of the [while (bits--)] loop of [impl]. *)
Definition step (data : Z) (s : t) : Z * t :=
  let o := byteOrder_ s in
  let s1 :=
    if negb (Z.land data (dataMask o) =? 0)
    then mk o (Z.lor (byte_ s) (byteMask o)) (bitsSet_ s) (bytes s)
    else s in
  let s2 := mk o (byte_ s1) (u8 (bitsSet_ s1 + 1)) (bytes s1) in
  let s3 :=
    if bitsSet_ s2 =? bitsize 1
    then (let s' := putByte (byte_ s2) s2 in mk o 0 0 (bytes s'))
    else s2 in
  match o with
  | MsbFirst =>
      (usize (Z.shiftl data 1),
       mk o (u8 (Z.shiftl (byte_ s3) 1)) (bitsSet_ s3) (bytes s3))
  | LsbFirst =>
      (Z.shiftr data 1,
       mk o (Z.shiftr (byte_ s3) 1) (bitsSet_ s3) (bytes s3))
  end.

Fixpoint loop (bits : nat) (data : Z) (s : t) : t :=
  match bits with
  | O => s
  | S bits' => let '(data', s') := step data s in loop bits' data' s'
  end.

(** [BytewiseSerializer::impl]. *)
Definition impl (data bits : Z) (s : t) : t :=
  let data :=
    match byteOrder_ s with
    | MsbFirst => usize (Z.shiftl data (word_bits - bits))
    | LsbFirst => data
    end in
  loop (Z.to_nat bits) data s.

(** [Serializer::give<T>(data, bits)]. *)
Definition give (T : itype) (data bits : Z) (s : t) : result t :=
  if bits >? bitsize (sizeof T) then
    Err (invalid_argument
      "Attempting to invoke serializer with bit size exceeding given type")
  else if sizeof T >? sizeof_size_t then
    Err (invalid_argument
      "Attempting to invoke serializer with bit size exceeding platform support")
  else if bits =? 0 then
    Err (invalid_argument "Attempting to invoke serializer with no bits")
  else Ok (impl (to_size_t data) bits s).

End DynamicSerializer.

(** ** Deserializer: [Deserializer], [BytewiseDeserializer], [BufferDeserializer] *)

Module BufferDeserializer.

Record t : Type := mk {
  byteOrder_ : ByteOrder;
  byte_ : Z;             (* uint8_t, the byte being consumed *)
  bitsLeft_ : Z;         (* uint8_t *)
  input : list Z         (* the [size_] bytes at the cursor of the buffer *)
}.

(** [BufferDeserializer(pData, size, byteOrder)].  The member [byte_] of
    [BytewiseDeserializer] has no initialiser; it is overwritten by
    [getByte] before its first use, and is taken to be 0 here. *)
Definition init (data : list Z) (o : ByteOrder) : t := mk o 0 0 data.

(** [BufferDeserializer::getByte]. *)
Definition getByte (d : t) : result (Z * t) :=
  match input d with
  | [] => Err (out_of_range "Buffer deserializer out of range")
  | b :: rest => Ok (b, mk (byteOrder_ d) (byte_ d) (bitsLeft_ d) rest)
  end.

Definition byteMask (o : ByteOrder) : Z :=
  match o with LsbFirst => 0x01 | MsbFirst => 0x80 end.

Definition dataMask (o : ByteOrder) : Z :=
  match o with LsbFirst => Z.shiftl 1 (word_bits - 1) | MsbFirst => 1 end.

(** One iteration of the [for] loop of [impl], on [(data, signMask)]. *)
Definition step (data signMask : Z) (d : t) : result (Z * Z * t) :=
  let o := byteOrder_ d in
  let '(byte1, data1, signMask1) :=
    match o with
    | LsbFirst =>
        (Z.shiftr (byte_ d) 1, Z.shiftr data 1, Z.shiftr signMask 1)
    | MsbFirst =>
        (u8 (Z.shiftl (byte_ d) 1), usize (Z.shiftl data 1),
         usize (Z.shiftl signMask 1))
    end in
  d2 <- (if bitsLeft_ d =? 0
         then '(b, d1) <- getByte d ;;
              Ok (mk o b (bitsize 1 - 1) (input d1))
         else Ok (mk o byte1 (u8 (bitsLeft_ d - 1)) (input d))) ;;
  let data2 :=
    if negb (Z.land (byte_ d2) (byteMask o) =? 0)
    then Z.lor data1 (dataMask o)
    else data1 in
  Ok (data2, signMask1, d2).

Fixpoint loop (i : nat) (data signMask : Z) (d : t) : result (Z * Z * t) :=
  match i with
  | O => Ok (data, signMask, d)
  | S i' =>
      '(data', signMask', d') <- step data signMask d ;;
      loop i' data' signMask' d'
  end.

(** [BytewiseDeserializer::impl]; the reference parameter [data] is
    returned. *)
Definition impl (data bits : Z) (signExtend : bool) (d : t) : result (Z * t) :=
  let signMask := usize (-1) in
  '(data1, signMask1, d1) <- loop (Z.to_nat bits) data signMask d ;;
  let '(data2, signMask2) :=
    match byteOrder_ d with
    | LsbFirst => (Z.shiftr data1 (word_bits - bits), usize_not signMask1)
    | MsbFirst => (data1, signMask1)
    end in
  let data3 := if signExtend then Z.lor data2 signMask2 else data2 in
  Ok (data3, d1).

(** [Deserializer::take<T>(bits)]. *)
Definition take (T : itype) (bits : Z) (d : t) : result (Z * t) :=
  if bits >? bitsize (sizeof T) then
    Err (invalid_argument
      "Attempting to invoke deserializer with bit size exceeding given type")
  else if sizeof T >? sizeof_size_t then
    Err (invalid_argument
      "Attempting to invoke deserializer with bit size exceeding platform support")
  else if bits =? 0 then
    Err (invalid_argument "Attempting to invoke deserializer with no bits")
  else
    '(v, d') <- impl 0 bits (is_signed T) d ;;
    Ok (static_cast T v, d').

End BufferDeserializer.

Module S := DynamicSerializer.
Module D := BufferDeserializer.

#[local] Set Warnings "-register-all".

(** ** Types and values

    The types for which [Policy<T>] resolves, and their values.  A floating
    point value is its bit pattern (the policy [memcpy]s it to the unsigned
    integer of the same width); an enumerator is its underlying integer. *)

Inductive type : Type :=
| Integral (T : itype)                 (* std::is_integral *)
| Enum (U : itype)                     (* std::is_enum, underlying type U *)
| Floating (width : Z)                 (* floating_width_equivalent: 16, 32, 64 *)
| Resizable (E : type)                 (* is_resizable && is_iterable *)
| FixedArity (n : nat) (E : type)      (* !is_resizable && is_iterable *)
| Composite (members : list type)      (* standard-layout class, member_count != 0 *)
| Bits (T : itype) (Width : Z)         (* Bits<T, Width> *)
| Spare (Width : Z).                   (* Spare<Width> *)

Inductive value : Type :=
| VInt (z : Z)             (* integer, enumerator, bit pattern, payload of Bits *)
| VSeq (l : list value)    (* elements of a container, members of a composite *)
| VSpare.                  (* the only value of Spare<Width> *)

(** [floating_width_equivalent<T>::type]. *)
Definition floating_width_equivalent (width : Z) : itype :=
  IType KUnsigned (width / CHAR_BIT).

(** Value initialisation [T{}]. *)
Fixpoint value_init (T : type) : value :=
  match T with
  | Integral _ | Enum _ | Floating _ | Bits _ _ => VInt 0
  | Resizable _ => VSeq []
  | FixedArity n E => VSeq (repeat (value_init E) n)
  | Composite members => VSeq (map value_init members)
  | Spare _ => VSpare
  end.

(** [std::vector::resize(n)]: truncate, or append value-initialised elements. *)
Definition resize (n : nat) (E : type) (l : list value) : list value :=
  firstn n l ++ repeat (value_init E) (n - length l).

(** ** Policies *)

Module Policy.

(** [Policy<T>::serialize(t, ser)], reached through [Serializer::put]. *)
Fixpoint serialize (T : type) (v : value) (ser : S.t) {struct T} : result S.t :=
  match T, v with
  | Integral U, VInt z => S.give U z (bitsize (sizeof U)) ser
  | Enum U, VInt z => S.give U z (bitsize (sizeof U)) ser
  | Floating w, VInt z =>
      let U := floating_width_equivalent w in
      S.give U z (bitsize (sizeof U)) ser
  | Resizable E, VSeq l =>
      ser1 <- S.give size_t (Z.of_nat (length l)) (bitsize (sizeof size_t)) ser ;;
      (fix each (l : list value) (ser : S.t) : result S.t :=
         match l with
         | [] => Ok ser
         | x :: l' => ser' <- serialize E x ser ;; each l' ser'
         end) l ser1
  | FixedArity n E, VSeq l =>
      if negb (length l =? n)%nat then Err ill_typed else
      (fix each (l : list value) (ser : S.t) : result S.t :=
         match l with
         | [] => Ok ser
         | x :: l' => ser' <- serialize E x ser ;; each l' ser'
         end) l ser
  | Composite members, VSeq l =>
      (fix each (members : list type) (l : list value) (ser : S.t) : result S.t :=
         match members, l with
         | [], [] => Ok ser
         | M :: members', x :: l' =>
             ser' <- serialize M x ser ;; each members' l' ser'
         | _, _ => Err ill_typed
         end) members l ser
  | Bits U Width, VInt z => S.give U z Width ser
  | Spare Width, VSpare => S.give size_t 0 Width ser
  | _, _ => Err ill_typed
  end.

(** [Policy<T>::deserialize(t, des)], reached through [Deserializer::get];
    [t] is the object decoded into, and the updated object is returned. *)
Fixpoint deserialize (T : type) (t : value) (des : D.t) {struct T}
  : result (value * D.t) :=
  match T, t with
  | Integral U, VInt _ =>
      '(z, des') <- D.take U (bitsize (sizeof U)) des ;; Ok (VInt z, des')
  | Enum U, VInt _ =>
      '(z, des') <- D.take U (bitsize (sizeof U)) des ;; Ok (VInt z, des')
  | Floating w, VInt _ =>
      let U := floating_width_equivalent w in
      '(z, des') <- D.take U (bitsize (sizeof U)) des ;; Ok (VInt z, des')
  | Resizable E, VSeq l =>
      '(size, des1) <- D.take size_t (bitsize (sizeof size_t)) des ;;
      '(l', des') <-
        (fix each (l : list value) (des : D.t) : result (list value * D.t) :=
           match l with
           | [] => Ok ([], des)
           | x :: l' =>
               '(x', des1) <- deserialize E x des ;;
               '(l'', des2) <- each l' des1 ;;
               Ok (x' :: l'', des2)
           end) (resize (Z.to_nat size) E l) des1 ;;
      Ok (VSeq l', des')
  | FixedArity n E, VSeq l =>
      if negb (length l =? n)%nat then Err ill_typed else
      '(l', des') <-
        (fix each (l : list value) (des : D.t) : result (list value * D.t) :=
           match l with
           | [] => Ok ([], des)
           | x :: l' =>
               '(x', des1) <- deserialize E x des ;;
               '(l'', des2) <- each l' des1 ;;
               Ok (x' :: l'', des2)
           end) l des ;;
      Ok (VSeq l', des')
  | Composite members, VSeq l =>
      '(l', des') <-
        (fix each (members : list type) (l : list value) (des : D.t)
           : result (list value * D.t) :=
           match members, l with
           | [], [] => Ok ([], des)
           | M :: members', x :: l' =>
               '(x', des1) <- deserialize M x des ;;
               '(l'', des2) <- each members' l' des1 ;;
               Ok (x' :: l'', des2)
           | _, _ => Err ill_typed
           end) members l des ;;
      Ok (VSeq l', des')
  | Bits U Width, VInt _ =>
      '(z, des') <- D.take U Width des ;; Ok (VInt z, des')
  | Spare Width, VSpare =>
      '(_, des') <- D.take size_t Width des ;; Ok (VSpare, des')
  | _, _ => Err ill_typed
  end.

End Policy.

(** ** Entry points *)

(** [serialize(t, byteOrder)]. *)
Definition serialize (T : type) (t : value) (byteOrder : ByteOrder)
  : result (list Z) :=
  ser <- Policy.serialize T t (S.init byteOrder) ;;
  Ok (S.bytes (S.flush ser)).

(** [deserialize(t, data, byteOrder)], decoding into an existing object. *)
Definition deserialize_into (T : type) (t : value) (data : list Z)
  (byteOrder : ByteOrder) : result value :=
  '(t', _) <- Policy.deserialize T t (D.init data byteOrder) ;;
  Ok t'.

(** [deserialize<T>(data, byteOrder)]. *)
Definition deserialize (T : type) (data : list Z) (byteOrder : ByteOrder)
  : result value :=
  deserialize_into T (value_init T) data byteOrder.

(** The composites of [test.cpp]. *)
Definition Trio : type :=
  Composite [Integral uint32_t; Integral bool_t; Integral char_t].
Definition Flags : type :=
  Composite [Spare 4; Bits uint8_t 2; Bits uint8_t 2].

(** ** Structural decomposition: [member_count], [member_offsets]

    A class type is described by the [sizeof] and [alignof] of its
    non-static data members, in declaration order. *)

Record layout : Type := Layout { size_of : Z; align_of : Z }.

(** Natural alignment of the scalar types. *)
Definition layout_of (U : itype) : layout := Layout (sizeof U) (sizeof U).

(** [is_initializable<T, Ts...>::value] for a pack of [n] arguments that each
    convert to any member type ([detail::atom] and its binders): the braced
    initialisation [T{declval<Ts>()...}] of an aggregate is well formed when
    there are no more initialisers than members. *)
Definition is_initializable (T : list layout) (n : nat) : bool :=
  (n <=? length T)%nat.

(** [detail::member_pack_impl<T, Atom, void, Ts...>] for a pack of [n] atoms;
    the result is the size of the pack [type].  The three partial
    specialisations double the pack, extend it by one atom, or stop; the
    primary template yields [pack<>]. *)
Equations? member_pack_impl (T : list layout) (n : nat) : nat
  by wf (length T - n)%nat lt :=
  member_pack_impl T 0 := 0;
  member_pack_impl T (S m)
    with sumbool_of_bool (is_initializable T (S m + S m)) => {
    | left _ := member_pack_impl T (S m + S m);
    | right _
        with sumbool_of_bool
               (is_initializable T (S m) && is_initializable T (S (S m))) => {
      | left _ := member_pack_impl T (S (S m));
      | right _ := if is_initializable T (S m) then S m else 0 } }.
Proof.
  all: unfold is_initializable in *.
  all: repeat match goal with
         | H : (_ && _)%bool = true |- _ => apply andb_prop in H; destruct H
         | H : (_ <=? _)%nat = true |- _ => apply Nat.leb_le in H
         end.
  all: lia.
Qed.

(** [member_count<T>::value]: the probing starts from one atom when [T] is a
    non-empty standard-layout class, and is [pack<>] otherwise. *)
Definition member_count (T : list layout) : nat :=
  match T with
  | [] => 0%nat
  | _ :: _ => member_pack_impl T 1
  end.

(** [detail::atom_offset_binder::operator T()] on the running [base];
    returns the new [base] and the recorded [offset]. *)
Definition atom_offset_binder (M : layout) (base : Z) : Z * Z :=
  let base := (base + align_of M - 1) / align_of M * align_of M in
  let offset := base in
  (base + size_of M, offset).

(** [detail::member_offsets_impl]: the binders are converted to the member
    types in order, starting from [base = 0]. *)
Fixpoint member_offsets_impl (members : list layout) (base : Z) : list Z :=
  match members with
  | [] => []
  | M :: members' =>
      let '(base', offset) := atom_offset_binder M base in
      offset :: member_offsets_impl members' base'
  end.

(** [member_offsets<T>::value()]. *)
Definition member_offsets (T : list layout) : list Z :=
  member_offsets_impl (firstn (member_count T) T) 0.

(** [struct Trio { uint32_t a; bool b; char c; }] of [test.cpp]. *)
Definition Trio_layout : list layout :=
  [layout_of uint32_t; layout_of bool_t; layout_of char_t].

(** ** [sequence], [make_sequence] *)

(** [detail::make_sequence_impl<C, Is...>::type], an index pack being the
    list of its indices: the primary template recurses on
    [make_sequence_impl<C - 1, C - 1, Is...>], the specialisation for [0]
    yields [sequence<Is...>]. *)
Fixpoint make_sequence_impl (C : nat) (Is : list nat) : list nat :=
  match C with
  | O => Is
  | S C' => make_sequence_impl C' (C' :: Is)
  end.

(** [make_sequence<C>]. *)
Definition make_sequence (C : nat) : list nat := make_sequence_impl C [].

(** [sequence<Is...>::size()]. *)
Definition sequence_size (Is : list nat) : nat := length Is.

(** ** [align] *)

(** The [for] loop of [align]: [i] counts the iterations, and the bound
    [alignment - (data.size() % alignment)] is evaluated at every test, on
    the vector as grown so far. *)
Equations? align_loop (alignment i : nat) (data : list Z) : list Z
  by wf (alignment - i)%nat lt :=
  align_loop alignment i data
    with lt_dec i (alignment - length data mod alignment)%nat => {
    | left _ := align_loop alignment (S i) (data ++ [0]);
    | right _ := data }.
Proof. lia. Qed.

(** [align(data, alignment)]; the overload on a reference and the one that
    returns the vector have the same body.  [alignment = 0] divides by zero
    in the source and is excluded by the statements about [align]. *)
Definition align (data : list Z) (alignment : nat) : list Z :=
  if negb (length data mod alignment =? 0)%nat
  then align_loop alignment 0 data
  else data.

(** * Vocabulary of the specification *)

(** The message of a [std::invalid_argument], when that is the outcome. *)
Definition validation_failure {A : Type} (r : result A) : option string :=
  match r with
  | Err (invalid_argument what) => Some what
  | _ => None
  end.

(** [n] successive calls of [getByte]. *)
Fixpoint pull (n : nat) (d : D.t) : result (list Z * D.t) :=
  match n with
  | O => Ok ([], d)
  | S n' =>
      '(b, d1) <- D.getByte d ;;
      '(bs, d2) <- pull n' d1 ;;
      Ok (b :: bs, d2)
  end.

(** ** The stream as a sequence of bits

    The bits of a byte in the order in which the transcoder walks them: from
    bit 7 down most-significant-first, from bit 0 up otherwise. *)

Definition bit_index (o : ByteOrder) (i : nat) : Z :=
  match o with
  | MsbFirst => 7 - Z.of_nat i
  | LsbFirst => Z.of_nat i
  end.

Definition byte_bits (o : ByteOrder) (b : Z) : list bool :=
  map (fun i => Z.testbit b (bit_index o i)) (seq 0 8).

(** The low [W] bits of [v] in stream order. *)
Definition val_bits (o : ByteOrder) (W : Z) (v : Z) : list bool :=
  map (fun i => Z.testbit v
                  (match o with
                   | MsbFirst => W - 1 - Z.of_nat i
                   | LsbFirst => Z.of_nat i
                   end))
      (seq 0 (Z.to_nat W)).

Definition byte_ok (b : Z) : bool := (0 <=? b) && (b <? 256).

(** The bits accumulated in [byte_] after [k = bitsSet_] of them: they sit
    at positions [k .. 1] most-significant-first and [7-k .. 6] otherwise. *)
Definition pending (o : ByteOrder) (k B : Z) : list bool :=
  map (fun j => Z.testbit B
                  (match o with
                   | MsbFirst => k - Z.of_nat j
                   | LsbFirst => 7 - k + Z.of_nat j
                   end))
      (seq 0 (Z.to_nat k)).

(** The accumulator holds nothing but the pending bits. *)
Definition accumulator_ok (o : ByteOrder) (k B : Z) : bool :=
  (0 <=? k) && (k <? 8) && (0 <=? B)
  && (B <? match o with MsbFirst => 2 ^ (k + 1) | LsbFirst => 128 end)
  && (B mod (match o with MsbFirst => 2 | LsbFirst => 2 ^ (7 - k) end) =? 0).

(** Invariant of the encoder. *)
Definition ser_ok (s : S.t) : Prop :=
  accumulator_ok (S.byteOrder_ s) (S.bitsSet_ s) (S.byte_ s) = true
  /\ forallb byte_ok (S.bytes s) = true.

(** Every bit given to the encoder so far. *)
Definition enc_bits (s : S.t) : list bool :=
  flat_map (byte_bits (S.byteOrder_ s)) (S.bytes s)
  ++ pending (S.byteOrder_ s) (S.bitsSet_ s) (S.byte_ s).

(** The bit of [data] that an iteration of the encoder's loop tests, and the
    [data] of the next iteration. *)
Definition data_bit (o : ByteOrder) (data : Z) : bool :=
  negb (Z.land data (S.dataMask o) =? 0).

Definition data_next (o : ByteOrder) (data : Z) : Z :=
  match o with
  | MsbFirst => usize (Z.shiftl data 1)
  | LsbFirst => Z.shiftr data 1
  end.

Fixpoint loop_bits (o : ByteOrder) (n : nat) (data : Z) : list bool :=
  match n with
  | O => []
  | S n' => data_bit o data :: loop_bits o n' (data_next o data)
  end.

(** The bits of the current byte that the decoder has not consumed: with
    [r = bitsLeft_] they sit at positions [6 .. 7-r] most-significant-first
    and [1 .. r] otherwise. *)
Definition remaining (o : ByteOrder) (r B : Z) : list bool :=
  map (fun j => Z.testbit B
                  (match o with
                   | MsbFirst => 6 - Z.of_nat j
                   | LsbFirst => 1 + Z.of_nat j
                   end))
      (seq 0 (Z.to_nat r)).

Definition cursor_ok (r B : Z) : bool :=
  (0 <=? r) && (r <=? 7) && byte_ok B.

(** Invariant of the decoder. *)
Definition des_ok (d : D.t) : Prop :=
  cursor_ok (D.bitsLeft_ d) (D.byte_ d) = true
  /\ forallb byte_ok (D.input d) = true.

(** Every bit the decoder has still to deliver. *)
Definition dec_bits (d : D.t) : list bool :=
  remaining (D.byteOrder_ d) (D.bitsLeft_ d) (D.byte_ d)
  ++ flat_map (byte_bits (D.byteOrder_ d)) (D.input d).

(** What an iteration of the decoder's loop does to [data] when it reads
    [bit], and to [signMask]. *)
Definition data_push (o : ByteOrder) (data : Z) (bit : bool) : Z :=
  let data1 :=
    match o with
    | LsbFirst => Z.shiftr data 1
    | MsbFirst => usize (Z.shiftl data 1)
    end in
  if bit then Z.lor data1 (D.dataMask o) else data1.

Definition mask_next (o : ByteOrder) (signMask : Z) : Z :=
  match o with
  | LsbFirst => Z.shiftr signMask 1
  | MsbFirst => usize (Z.shiftl signMask 1)
  end.

(** The [signMask] that [impl] ors into the result of a transfer of [W]
    bits. *)
Definition sign_mask (o : ByteOrder) (W : Z) : Z :=
  match o with
  | MsbFirst => 2 ^ word_bits - 2 ^ W
  | LsbFirst => 2 ^ word_bits - 2 ^ (word_bits - W)
  end.

Definition ByteOrder_eqb (a b : ByteOrder) : bool :=
  match a, b with
  | MsbFirst, MsbFirst | LsbFirst, LsbFirst => true
  | _, _ => false
  end.

(** ** Supported types and their values *)

(** The integral types of the platform no wider than [size_t]. *)
Definition supported_itype (U : itype) : bool :=
  match kind U with
  | KBool => sizeof U =? 1
  | _ => (sizeof U =? 1) || (sizeof U =? 2) || (sizeof U =? 4) || (sizeof U =? 8)
  end.

(** The types for which a policy resolves and whose transfers pass the
    validation of [give] and [take]: a composite has at least one member,
    the width of a bit-field or of padding is at least 1 and at most the
    width of the backing type. *)
Fixpoint supported (T : type) : bool :=
  match T with
  | Integral U | Enum U => supported_itype U
  | Floating w => (w =? 16) || (w =? 32) || (w =? 64)
  | Resizable E | FixedArity _ E => supported E
  | Composite members =>
      match members with [] => false | _ => forallb supported members end
  | Bits U Width =>
      supported_itype U && (1 <=? Width) && (Width <=? bitsize (sizeof U))
  | Spare Width => (1 <=? Width) && (Width <=? word_bits)
  end.

(** [v] is a value of type [T]. *)
Fixpoint has_type (T : type) (v : value) {struct T} : bool :=
  match T, v with
  | Integral U, VInt z | Enum U, VInt z | Bits U _, VInt z => in_range U z
  | Floating w, VInt z => (0 <=? z) && (z <? 2 ^ w)
  | Resizable E, VSeq l =>
      (Z.of_nat (length l) <? 2 ^ word_bits) && forallb (has_type E) l
  | FixedArity n E, VSeq l => (length l =? n)%nat && forallb (has_type E) l
  | Composite members, VSeq l =>
      (fix each (members : list type) (l : list value) : bool :=
         match members, l with
         | [], [] => true
         | M :: members', x :: l' => has_type M x && each members' l'
         | _, _ => false
         end) members l
  | Spare _, VSpare => true
  | _, _ => false
  end.

(** The types whose transfers lose nothing: no signed integer as wide as
    the word least-significant-first, no bit-field over a signed type. *)
Definition exact_itype (o : ByteOrder) (U : itype) : bool :=
  negb (is_signed U) || (sizeof U <? sizeof_size_t) || ByteOrder_eqb o MsbFirst.

Fixpoint exact_type (o : ByteOrder) (T : type) : bool :=
  match T with
  | Integral U | Enum U => exact_itype o U
  | Floating _ | Spare _ => true
  | Resizable E | FixedArity _ E => exact_type o E
  | Composite members => forallb (exact_type o) members
  | Bits U _ => negb (is_signed U)
  end.

(** Every bit-field of [v] holds a value representable in its width. *)
Fixpoint fits (T : type) (v : value) {struct T} : bool :=
  match T, v with
  | Bits _ Width, VInt z => z <? 2 ^ Width
  | Resizable E, VSeq l | FixedArity _ E, VSeq l => forallb (fits E) l
  | Composite members, VSeq l =>
      (fix each (members : list type) (l : list value) : bool :=
         match members, l with
         | M :: members', x :: l' => fits M x && each members' l'
         | _, _ => true
         end) members l
  | _, _ => true
  end.

(** The bits of the encoding of [v], in stream order. *)
Fixpoint wire (o : ByteOrder) (T : type) (v : value) {struct T} : list bool :=
  match T, v with
  | Integral U, VInt z | Enum U, VInt z => val_bits o (bitsize (sizeof U)) z
  | Floating w, VInt z => val_bits o w z
  | Resizable E, VSeq l =>
      val_bits o word_bits (Z.of_nat (length l)) ++ flat_map (wire o E) l
  | FixedArity _ E, VSeq l => flat_map (wire o E) l
  | Composite members, VSeq l =>
      (fix each (members : list type) (l : list value) : list bool :=
         match members, l with
         | M :: members', x :: l' => wire o M x ++ each members' l'
         | _, _ => []
         end) members l
  | Bits _ Width, VInt z => val_bits o Width z
  | Spare Width, VSpare => val_bits o Width 0
  | _, _ => []
  end.

(** The loops of the container and member policies, over any element
    policy. *)
Definition put_each (put : value -> S.t -> result S.t)
  : list value -> S.t -> result S.t :=
  fix each (l : list value) (ser : S.t) : result S.t :=
    match l with
    | [] => Ok ser
    | x :: l' => ser' <- put x ser ;; each l' ser'
    end.

Definition get_each (get : value -> D.t -> result (value * D.t))
  : list value -> D.t -> result (list value * D.t) :=
  fix each (l : list value) (des : D.t) : result (list value * D.t) :=
    match l with
    | [] => Ok ([], des)
    | x :: l' =>
        '(x', des1) <- get x des ;;
        '(l'', des2) <- each l' des1 ;;
        Ok (x' :: l'', des2)
    end.

Definition put_members (put : type -> value -> S.t -> result S.t)
  : list type -> list value -> S.t -> result S.t :=
  fix each (members : list type) (l : list value) (ser : S.t) : result S.t :=
    match members, l with
    | [], [] => Ok ser
    | M :: members', x :: l' => ser' <- put M x ser ;; each members' l' ser'
    | _, _ => Err ill_typed
    end.

Definition get_members (get : type -> value -> D.t -> result (value * D.t))
  : list type -> list value -> D.t -> result (list value * D.t) :=
  fix each (members : list type) (l : list value) (des : D.t)
    : result (list value * D.t) :=
    match members, l with
    | [], [] => Ok ([], des)
    | M :: members', x :: l' =>
        '(x', des1) <- get M x des ;;
        '(l'', des2) <- each members' l' des1 ;;
        Ok (x' :: l'', des2)
    | _, _ => Err ill_typed
    end.

Fixpoint has_types (members : list type) (l : list value) : bool :=
  match members, l with
  | [], [] => true
  | M :: members', x :: l' => has_type M x && has_types members' l'
  | _, _ => false
  end.

Fixpoint fits_members (members : list type) (l : list value) : bool :=
  match members, l with
  | M :: members', x :: l' => fits M x && fits_members members' l'
  | _, _ => true
  end.

Definition wire_members (o : ByteOrder) : list type -> list value -> list bool :=
  fix each (members : list type) (l : list value) : list bool :=
    match members, l with
    | M :: members', x :: l' => wire o M x ++ each members' l'
    | _, _ => []
    end.

(** The encoding ends on a byte boundary: [flush] has nothing to emit. *)
Definition ends_on_byte_boundary (T : type) (v : value) (o : ByteOrder) : bool :=
  match Policy.serialize T v (S.init o) with
  | Ok ser => S.bitsSet_ ser =? 0
  | Err _ => false
  end.

(** The types whose encoding has a length fixed by the type: no resizable
    container is ever decoded. *)
Fixpoint is_static (T : type) : bool :=
  match T with
  | Resizable _ => false
  | FixedArity n E => (n =? 0)%nat || is_static E
  | Composite members => forallb is_static members
  | _ => true
  end.

(** The number of bits of the encoding of a static type. *)
Fixpoint bit_size (T : type) : nat :=
  match T with
  | Integral U | Enum U => Z.to_nat (bitsize (sizeof U))
  | Floating w => Z.to_nat w
  | Resizable _ => 0
  | FixedArity n E => n * bit_size E
  | Composite members => list_sum (map bit_size members)
  | Bits _ Width | Spare Width => Z.to_nat Width
  end.

(** The number denoted by a sequence of bits, most significant first. *)
Definition msbval (bits : list bool) : Z :=
  fold_left (fun a b => 2 * a + Z.b2z b) bits 0.

Definition all_false (bits : list bool) : bool := forallb negb bits.

(** What the bits [Z] that the decoder finds at the end of the input must
    satisfy, against the bits [W] that the encoder had accumulated, for the
    counts read there not to grow. *)
Definition tail_okb (o : ByteOrder) (W Z : list bool) : bool :=
  (length W <=? length Z)%nat
  && forallb (fun c =>
                match o with
                | MsbFirst => msbval (firstn c Z) <=? msbval (firstn c W)
                | LsbFirst => implb (all_false (firstn c W)) (all_false (firstn c Z))
                end)
             (seq 0 (S (length W))).

(** The byte that [flush] emits for the accumulator [(k, B)], against the
    pending bits. *)
Definition flush_tail_check (o : ByteOrder) (k B : Z) : bool :=
  implb (accumulator_ok o k B)
    (tail_okb o (pending o k B) (byte_bits o B)).

(** The decoder [d] over an input followed by the bytes [sfx]. *)
Definition extend (sfx : list Z) (d : D.t) : D.t :=
  D.mk (D.byteOrder_ d) (D.byte_ d) (D.bitsLeft_ d) (D.input d ++ sfx).

(** Finite ranges, for properties checked value by value. *)
Definition Zrange (n : nat) : list Z := map Z.of_nat (seq 0 n).

Fixpoint bits_eqb (a b : list bool) : bool :=
  match a, b with
  | [], [] => true
  | x :: a', y :: b' => Bool.eqb x y && bits_eqb a' b'
  | _, _ => false
  end.

(** One iteration of the encoder from the accumulator [(k, B)] on [bit]:
    the invariant is kept and [bit] is appended to the stream. *)
Definition enc_step_check (o : ByteOrder) (k B : Z) (bit : bool) : bool :=
  implb (accumulator_ok o k B)
    (let s' := snd (S.step (if bit then S.dataMask o else 0) (S.mk o B k [])) in
     ByteOrder_eqb (S.byteOrder_ s') o
     && accumulator_ok o (S.bitsSet_ s') (S.byte_ s')
     && forallb byte_ok (S.bytes s')
     && bits_eqb (enc_bits s') (pending o k B ++ [bit])).

(** One iteration of the decoder inside the current byte [(r, B)], [r > 0]. *)
Definition dec_step_check (o : ByteOrder) (r B : Z) : bool :=
  implb (cursor_ok r B && (1 <=? r))
    (match D.step 0 0 (D.mk o B r []) with
     | Ok (data, _, d') =>
         ByteOrder_eqb (D.byteOrder_ d') o
         && cursor_ok (D.bitsLeft_ d') (D.byte_ d')
         && bits_eqb (remaining o r B)
              (negb (data =? 0) :: remaining o (D.bitsLeft_ d') (D.byte_ d'))
     | Err _ => false
     end).

(** One iteration of the decoder that pulls the byte [x]. *)
Definition dec_pull_check (o : ByteOrder) (B x : Z) : bool :=
  match D.step 0 0 (D.mk o B 0 [x]) with
  | Ok (data, _, d') =>
      ByteOrder_eqb (D.byteOrder_ d') o
      && cursor_ok (D.bitsLeft_ d') (D.byte_ d')
      && bits_eqb (byte_bits o x)
           (negb (data =? 0) :: remaining o (D.bitsLeft_ d') (D.byte_ d'))
      && match D.input d' with [] => true | _ => false end
  | Err _ => false
  end.

(** ** Statements about the policies *)

(** The failure of [getByte] on an exhausted buffer. *)
Definition exhausted : error := out_of_range "Buffer deserializer out of range".

(** What [impl] leaves in [data] after the transfer of the bits of [v]:
    its low [W] bits. *)
Definition dec_value (o : ByteOrder) (W : Z) (L : list bool) : Z :=
  let data := fold_left (data_push o) L 0 in
  match o with
  | LsbFirst => Z.shiftr data (word_bits - W)
  | MsbFirst => data
  end.

(** Induction on types, with the hypothesis for every member of a
    composite. *)
Section TypeInduction.
Variable P : type -> Prop.
Hypothesis P_Integral : forall U, P (Integral U).
Hypothesis P_Enum : forall U, P (Enum U).
Hypothesis P_Floating : forall w, P (Floating w).
Hypothesis P_Resizable : forall E, P E -> P (Resizable E).
Hypothesis P_FixedArity : forall n E, P E -> P (FixedArity n E).
Hypothesis P_Composite : forall members, Forall P members -> P (Composite members).
Hypothesis P_Bits : forall U W, P (Bits U W).
Hypothesis P_Spare : forall W, P (Spare W).

Fixpoint type_nested_ind (T : type) : P T :=
  match T with
  | Integral U => P_Integral U
  | Enum U => P_Enum U
  | Floating w => P_Floating w
  | Resizable E => P_Resizable E (type_nested_ind E)
  | FixedArity n E => P_FixedArity n E (type_nested_ind E)
  | Composite members =>
      P_Composite members
        ((fix all (ms : list type) : Forall P ms :=
            match ms with
            | [] => Forall_nil P
            | M :: ms' => Forall_cons M (type_nested_ind M) (all ms')
            end) members)
  | Bits U W => P_Bits U W
  | Spare W => P_Spare W
  end.
End TypeInduction.

(** The encoder appends the bits of [wire]. *)
Definition encodes (T : type) : Prop :=
  forall v s, has_type T v = true -> ser_ok s ->
  exists s',
    Policy.serialize T v s = Ok s' /\ ser_ok s'
    /\ S.byteOrder_ s' = S.byteOrder_ s
    /\ enc_bits s' = enc_bits s ++ wire (S.byteOrder_ s) T v.

(** The decoder, run on the bits of [wire], restores the value. *)
Definition decodes (o : ByteOrder) (T : type) : Prop :=
  forall v t d rest,
    has_type T v = true -> fits T v = true -> has_type T t = true ->
    des_ok d -> D.byteOrder_ d = o -> dec_bits d = wire o T v ++ rest ->
    exists d',
      Policy.deserialize T t d = Ok (v, d') /\ des_ok d'
      /\ D.byteOrder_ d' = o /\ dec_bits d' = rest.

(** What the decoder does on an input it does on the input followed by
    [sfx], which stays unread. *)
Definition extends (sfx : list Z) (T : type) : Prop :=
  forall t d r d',
    Policy.deserialize T t d = Ok (r, d') ->
    Policy.deserialize T t (extend sfx d) = Ok (r, extend sfx d').

(** Decoding into an object of a static type consumes [bit_size T] bits of
    any stream that holds as many. *)
Definition static_ok (T : type) : Prop :=
  forall t d,
    has_type T t = true -> des_ok d ->
    (bit_size T <= length (dec_bits d))%nat ->
    exists r d',
      Policy.deserialize T t d = Ok (r, d') /\ des_ok d'
      /\ D.byteOrder_ d' = D.byteOrder_ d
      /\ dec_bits d' = skipn (bit_size T) (dec_bits d).

(** The decoder [d] has [p] bits of the stream [F0 ++ Zt] behind it. *)
Definition at_pos_in (o : ByteOrder) (F0 Zt : list bool) (p : nat) (d : D.t) : Prop :=
  des_ok d /\ D.byteOrder_ d = o /\ dec_bits d = skipn p (F0 ++ Zt).

(** Decoding a value of [T] whose encoding starts at bit [q] of [F0 ++ W],
    from a decoder that is at [q], or before it once [q] lies in the last
    byte: the decoder ends no later than the encoding, and with it or in the
    last byte. *)
Definition resumes_in (o : ByteOrder) (F0 W Zt : list bool) (T : type) : Prop :=
  forall v t p q Q d,
    has_type T v = true -> has_type T t = true ->
    skipn q (F0 ++ W) = wire o T v ++ Q -> (q <= length (F0 ++ W))%nat ->
    at_pos_in o F0 Zt p d -> (p <= q)%nat -> (p = q \/ length F0 < q)%nat ->
    exists r d' p',
      Policy.deserialize T t d = Ok (r, d') /\ at_pos_in o F0 Zt p' d'
      /\ (p' <= q + length (wire o T v))%nat
      /\ (p' = q + length (wire o T v)
          \/ length F0 < q + length (wire o T v))%nat.

(** ** Vocabulary of the further properties *)

(** The number of bytes [align] appends to [size] bytes. *)
Definition align_padding (size alignment : nat) : nat :=
  let r := (size mod alignment)%nat in
  if (r =? 0)%nat then 0%nat
  else if (alignment - r =? 1)%nat then S (alignment / 2)
  else ((alignment - r + 1) / 2)%nat.

(** The members lie at [offsets] in the natural layout that starts at
    [free]: each offset is the least multiple of the member's alignment at or
    after the end of the member before it. *)
Fixpoint natural_layout (free : Z) (members : list layout) (offsets : list Z)
  : Prop :=
  match members, offsets with
  | [], [] => True
  | M :: members', offset :: offsets' =>
      free <= offset < free + align_of M /\
      offset mod align_of M = 0 /\
      natural_layout (offset + size_of M) members' offsets'
  | _, _ => False
  end.

(** The serializer [s] with the bytes [pre] emitted before its own. *)
Definition prepend (pre : list Z) (s : S.t) : S.t :=
  S.mk (S.byteOrder_ s) (S.byte_ s) (S.bitsSet_ s) (pre ++ S.bytes s).

(** Writers run one after the other on the same serializer. *)
Fixpoint run_all (ws : list (S.t -> result S.t)) (s : S.t) : result S.t :=
  match ws with
  | [] => Ok s
  | w :: ws' => s' <- w s ;; run_all ws' s'
  end.

(** The bytes a writer yields on a fresh serializer of byte order [o], once
    flushed: what [serialize] does for one value. *)
Definition written (o : ByteOrder) (w : S.t -> result S.t) : result (list Z) :=
  s <- w (S.init o) ;; Ok (S.bytes (S.flush s)).

(** Concatenation of byte sequences, the first failure winning. *)
Fixpoint concat_results (rs : list (result (list Z))) : result (list Z) :=
  match rs with
  | [] => Ok []
  | r :: rs' => b <- r ;; bs <- concat_results rs' ;; Ok (b ++ bs)
  end.

(** A writer does not look at the bytes already emitted. *)
Definition commutes_with_prepend (w : S.t -> result S.t) : Prop :=
  forall pre s, w (prepend pre s) = (s' <- w s ;; Ok (prepend pre s')).

(** On a fresh serializer the writer stops on a byte boundary. *)
Definition ends_aligned (o : ByteOrder) (w : S.t -> result S.t) : Prop :=
  exists s,
    w (S.init o) = Ok s /\ ser_ok s /\ S.byteOrder_ s = o /\ S.bitsSet_ s = 0.

(** The [n] bytes of the two's complement of [z], most significant first and
    least significant first. *)
Definition big_endian (n : nat) (z : Z) : list Z :=
  map (fun i => (z / 2 ^ (8 * Z.of_nat (n - 1 - i))) mod 256) (seq 0 n).
Definition little_endian (n : nat) (z : Z) : list Z :=
  map (fun i => (z / 2 ^ (8 * Z.of_nat i)) mod 256) (seq 0 n).

(** The value of a byte from its bits in stream order. *)
Definition bits_byte (o : ByteOrder) (bits : list bool) : Z :=
  msbval match o with MsbFirst => bits | LsbFirst => rev bits end.

Definition bits_byte_check (o : ByteOrder) (b : Z) : bool :=
  bits_byte o (byte_bits o b) =? b.

(** The number of bits the deserializer can still deliver: those left of
    the byte being consumed and those of the bytes not yet pulled. *)
Definition bits_available (d : D.t) : Z :=
  8 * Z.of_nat (length (D.input d)) + D.bitsLeft_ d.

(** Decoding a value of [T] takes [bit_size T] bits when they are there,
    and fails with [exhausted] when they are not. *)
Definition static_budget (T : type) : Prop :=
  forall (t : value) (d : D.t),
    has_type T t = true ->
    0 <= D.bitsLeft_ d <= 7 ->
    (Z.of_nat (bit_size T) <= bits_available d ->
     exists r d',
       Policy.deserialize T t d = Ok (r, d') /\
       0 <= D.bitsLeft_ d' <= 7 /\
       bits_available d' = bits_available d - Z.of_nat (bit_size T)) /\
    (bits_available d < Z.of_nat (bit_size T) ->
     Policy.deserialize T t d = Err exhausted).

(** What the policy of [T] decodes is a value of [T]. *)
Definition well_typed_result (T : type) : Prop :=
  forall (t : value) (d : D.t) (r : value) (d' : D.t),
    has_type T t = true ->
    Policy.deserialize T t d = Ok (r, d') -> has_type T r = true.

(** The outcome of decoding does not depend on the object decoded into. *)
Definition overwrites (T : type) : Prop :=
  forall (t1 t2 : value) (d : D.t),
    has_type T t1 = true -> has_type T t2 = true ->
    Policy.deserialize T t1 d = Policy.deserialize T t2 d.

(** What [take<T>(Width)] returns for the [Width]-bit field that holds the
    two's complement of [z], for a signed [T] wider than the field. *)
Definition signed_field_readback (o : ByteOrder) (Width z : Z) : Z :=
  match o with
  | MsbFirst => if z <? 0 then z else z - 2 ^ Width
  | LsbFirst => if z <? 0 then z + 2 ^ Width else z
  end.

(** The encoding ends one bit before a byte boundary: [flush] emits a byte
    of seven pending bits. *)
Definition ends_one_bit_short (T : type) (v : value) (o : ByteOrder) : bool :=
  match Policy.serialize T v (S.init o) with
  | Ok ser => S.bitsSet_ ser =? 7
  | Err _ => false
  end.

(** * Properties *)

Example ex_give_msb :
  S.bytes (S.flush (S.impl 0x12345678 32 (S.init MsbFirst))) = [0x12; 0x34; 0x56; 0x78].
Proof. vm_compute. reflexivity. Qed.

Example ex_give_lsb :
  S.bytes (S.flush (S.impl 0x12345678 32 (S.init LsbFirst))) = [0x78; 0x56; 0x34; 0x12].
Proof. vm_compute. reflexivity. Qed.

Example ex_trio_lsb :
  serialize Trio (VSeq [VInt 0x12345678; VInt 1; VInt 0]) LsbFirst
  = Ok [0x78; 0x56; 0x34; 0x12; 0x01; 0x00].
Proof. vm_compute. reflexivity. Qed.

Example ex_trio_msb :
  serialize Trio (VSeq [VInt 0x12345678; VInt 1; VInt 0]) MsbFirst
  = Ok [0x12; 0x34; 0x56; 0x78; 0x01; 0x00].
Proof. vm_compute. reflexivity. Qed.

Example ex_uint32_msb :
  deserialize (Integral uint32_t) [0x12; 0x34; 0x56; 0x78] MsbFirst = Ok (VInt 0x12345678).
Proof. vm_compute. reflexivity. Qed.

Example ex_uint32_lsb :
  deserialize (Integral uint32_t) [0x12; 0x34; 0x56; 0x78] LsbFirst = Ok (VInt 0x78563412).
Proof. vm_compute. reflexivity. Qed.

Example ex_int8 :
  deserialize (Integral int8_t) [251] MsbFirst = Ok (VInt (-5)).
Proof. vm_compute. reflexivity. Qed.

Example ex_roundtrip_flags :
  (data <- serialize Flags (VSeq [VSpare; VInt 1; VInt 2]) MsbFirst ;;
   deserialize Flags data MsbFirst) = Ok (VSeq [VSpare; VInt 1; VInt 2]).
Proof. vm_compute. reflexivity. Qed.

(** ** Structural decomposition *)

Ltac leb_facts :=
  repeat match goal with
    | E : sumbool_of_bool _ = _ |- _ => clear E
    | E : (_ && _)%bool = true |- _ => apply andb_prop in E; destruct E
    | E : (_ <=? _)%nat = true |- _ => apply Nat.leb_le in E
    | E : (_ <=? _)%nat = false |- _ => apply Nat.leb_gt in E
    end.

Lemma member_pack_impl_count (T : list layout) (n : nat) :
  (1 <= n <= length T)%nat -> member_pack_impl T n = length T.
Proof.
  funelim (member_pack_impl T n); intros Hn; try lia;
    unfold is_initializable in *.
  - (* doubled pack *) leb_facts. apply H. lia.
  - (* one more atom *) leb_facts. apply H. lia.
  - (* the pack is complete *)
    destruct (S m <=? length T)%nat eqn:Hm; cbn [andb] in *; leb_facts; lia.
Qed.

Lemma member_count_length (T : list layout) : member_count T = length T.
Proof.
  destruct T as [|M T]; [reflexivity|].
  unfold member_count. apply member_pack_impl_count. simpl. lia.
Qed.

(** C8. For [struct Trio { uint32_t a; bool b; char c; }] with naturally
    aligned members, [member_count] is 3 and [member_offsets] is
    [{0, 4, 5}]. *)
Theorem trio_member_count_offsets :
  member_count Trio_layout = 3%nat /\ member_offsets Trio_layout = [0; 4; 5].
Proof. split; reflexivity. Qed.

(** ** Input validation of [give] and [take] *)


Lemma step_error (data signMask : Z) (d : D.t) (e : error) :
  D.step data signMask d = Err e -> e = exhausted.
Proof.
  unfold D.step, D.getByte.
  unfold exhausted.
  destruct (D.byteOrder_ d), (D.bitsLeft_ d =? 0), (D.input d);
    cbn [bind]; intros H; solve [discriminate H | injection H; auto].
Qed.

Lemma loop_error (n : nat) : forall (data signMask : Z) (d : D.t) (e : error),
  D.loop n data signMask d = Err e -> e = exhausted.
Proof.
  induction n as [|n IH]; intros data signMask d e; cbn [D.loop]; [discriminate|].
  destruct (D.step data signMask d) as [[[data' signMask'] d']|e'] eqn:Hs;
    cbn [bind].
  - apply IH.
  - intros [= <-]. eapply step_error; eassumption.
Qed.

Lemma impl_error (data bits : Z) (signExtend : bool) (d : D.t) (e : error) :
  D.impl data bits signExtend d = Err e -> e = exhausted.
Proof.
  unfold D.impl.
  destruct (D.loop (Z.to_nat bits) data (usize (-1)) d)
    as [[[data' signMask'] d']|e'] eqn:Hl; cbn [bind].
  - destruct (D.byteOrder_ d); discriminate.
  - intros [= <-]. eapply loop_error; eassumption.
Qed.

(** C5. [Serializer::give<T>] and [Deserializer::take<T>] raise
    [std::invalid_argument] exactly when the width is zero, exceeds
    [bitsize<T>], or [T] is wider than [size_t]; each of the three conditions
    has a message of its own, the outcome is fixed before any bit is
    transferred (it is the same for every stream state and datum, an
    exhausted input included), and otherwise the call is the transfer
    [impl] itself. *)
Theorem give_take_validation (T : itype) (W : Z) :
  let too_wide := W >? bitsize (sizeof T) in
  let unsupported := sizeof T >? sizeof_size_t in
  let no_bits := W =? 0 in
  let give_type := "Attempting to invoke serializer with bit size exceeding given type"%string in
  let give_platform := "Attempting to invoke serializer with bit size exceeding platform support"%string in
  let give_none := "Attempting to invoke serializer with no bits"%string in
  let take_type := "Attempting to invoke deserializer with bit size exceeding given type"%string in
  let take_platform := "Attempting to invoke deserializer with bit size exceeding platform support"%string in
  let take_none := "Attempting to invoke deserializer with no bits"%string in
  (* raised exactly under the three conditions *)
  (forall data s,
      is_invalid_argument (S.give T data W s) = too_wide || unsupported || no_bits)
  /\ (forall d,
      is_invalid_argument (D.take T W d) = too_wide || unsupported || no_bits)
  (* which one is reported *)
  /\ (forall data s d,
      validation_failure (S.give T data W s) =
        (if too_wide then Some give_type
         else if unsupported then Some give_platform
         else if no_bits then Some give_none else None)
      /\ validation_failure (D.take T W d) =
        (if too_wide then Some take_type
         else if unsupported then Some take_platform
         else if no_bits then Some take_none else None))
  /\ give_type <> give_platform /\ give_type <> give_none /\ give_platform <> give_none
  /\ take_type <> take_platform /\ take_type <> take_none /\ take_platform <> take_none
  (* a failure does not depend on the stream, a success is the transfer *)
  /\ (forall data s data' s',
      too_wide || unsupported || no_bits = true ->
      S.give T data W s = S.give T data' W s')
  /\ (forall d,
      too_wide || unsupported || no_bits = true ->
      D.take T W d = D.take T W (D.init [] (D.byteOrder_ d)))
  /\ (forall data s,
      too_wide || unsupported || no_bits = false ->
      S.give T data W s = Ok (S.impl (to_size_t data) W s))
  /\ (forall d,
      too_wide || unsupported || no_bits = false ->
      D.take T W d =
        ('(v, d') <- D.impl 0 W (is_signed T) d ;; Ok (static_cast T v, d'))).
Proof.
  cbv zeta. unfold S.give, D.take.
  destruct (W >? bitsize (sizeof T)), (sizeof T >? sizeof_size_t), (W =? 0);
    cbn [orb is_invalid_argument validation_failure];
    repeat split; intros; try reflexivity; try discriminate.
  all: destruct (D.impl 0 W (is_signed T) d) as [[v d']|e] eqn:Hi;
    [reflexivity | apply impl_error in Hi; subst e; reflexivity].
Qed.

(** ** Buffer exhaustion *)

Lemma pull_all (data : list Z) (o : ByteOrder) (b k : Z) :
  pull (length data) (D.mk o b k data) = Ok (data, D.mk o b k []).
Proof.
  induction data as [|x data IH]; [reflexivity|].
  cbn [pull length D.getByte D.input bind D.byteOrder_ D.byte_ D.bitsLeft_].
  rewrite IH. reflexivity.
Qed.

Lemma loop_exhausted (n : nat) : forall (data signMask : Z) (d : D.t),
  0 <= D.bitsLeft_ d <= 7 ->
  D.bitsLeft_ d + 8 * Z.of_nat (length (D.input d)) < Z.of_nat n ->
  D.loop n data signMask d = Err exhausted.
Proof.
  induction n as [|n IH]; intros data signMask d Hk Hn; [lia|].
  cbn [D.loop]. unfold D.step.
  destruct d as [o b k input]; cbn [D.byteOrder_ D.byte_ D.bitsLeft_ D.input] in *.
  destruct (k =? 0) eqn:Hk0.
  - apply Z.eqb_eq in Hk0. subst k. unfold D.getByte. cbn [D.input].
    destruct input as [|x input]; [destruct o; reflexivity|].
    destruct o; cbn [bind D.input D.byteOrder_ D.byte_ D.bitsLeft_];
      apply IH; cbn [D.bitsLeft_ D.input length] in *;
      change (bitsize 1 - 1) with 7; lia.
  - apply Z.eqb_neq in Hk0.
    assert (Hu : u8 (k - 1) = k - 1)
      by (unfold u8; apply Z.mod_small; lia).
    destruct o; cbn [bind]; apply IH;
      cbn [D.bitsLeft_ D.input]; rewrite ?Hu; lia.
Qed.

Lemma take_exhausted (T : itype) (W : Z) (data : list Z) (o : ByteOrder) :
  1 <= W <= bitsize (sizeof T) -> sizeof T <= sizeof_size_t ->
  8 * Z.of_nat (length data) < W ->
  D.take T W (D.init data o) = Err exhausted.
Proof.
  intros HW HT Hlen. unfold D.take.
  destruct (W >? bitsize (sizeof T)) eqn:E1; [lia|].
  destruct (sizeof T >? sizeof_size_t) eqn:E2; [lia|].
  destruct (W =? 0) eqn:E3; [lia|].
  unfold D.impl. rewrite loop_exhausted; [reflexivity| |];
    cbn [D.init D.bitsLeft_ D.input]; lia.
Qed.

(** C6. Over an input of [N] bytes the first [N] calls of [getByte] yield
    the bytes of the input in order and the next one raises
    [std::out_of_range]; a [take] of more bits than the input holds raises it
    too, and so does the decoding of a 4-byte integer from any 3-byte
    input. *)
Theorem buffer_exhaustion (data : list Z) (o : ByteOrder) :
  (exists d,
      pull (length data) (D.init data o) = Ok (data, d)
      /\ D.getByte d = Err exhausted)
  /\ (forall T W,
      1 <= W <= bitsize (sizeof T) -> sizeof T <= sizeof_size_t ->
      8 * Z.of_nat (length data) < W ->
      D.take T W (D.init data o) = Err exhausted)
  /\ (length data = 3%nat ->
      deserialize (Integral uint32_t) data o = Err exhausted
      /\ deserialize (Integral int32_t) data o = Err exhausted).
Proof.
  split; [|split].
  - exists (D.mk o 0 0 []). split; [apply pull_all | reflexivity].
  - intros T W HW HT Hlen. apply take_exhausted; assumption.
  - intros Hlen. unfold deserialize, deserialize_into.
    cbn [value_init Policy.deserialize].
    split; rewrite take_exhausted; try reflexivity;
      cbn [sizeof uint32_t int32_t]; unfold bitsize, CHAR_BIT, sizeof_size_t; lia.
Qed.

(** The decoding of a 4-byte integer from a concrete 3-byte input. *)
Lemma buffer_exhaustion_witness :
  (exists d,
      pull 3 (D.init [0x12; 0x34; 0x56] MsbFirst) = Ok ([0x12; 0x34; 0x56], d)
      /\ D.getByte d = Err exhausted)
  /\ deserialize (Integral uint32_t) [0x12; 0x34; 0x56] MsbFirst = Err exhausted.
Proof.
  destruct (buffer_exhaustion [0x12; 0x34; 0x56] MsbFirst) as [H1 [_ H3]].
  split; [exact H1|]. exact (proj1 (H3 eq_refl)).
Defined.

(** ** The bit-packed composite of the tests *)

(** C4. [Flags{{}, 1, 2}], a 4-bit [Spare] followed by two 2-bit [Bits],
    serialises least-significant-first to the single byte [0b10010000]. *)
Theorem flags_lsb_first :
  serialize Flags (VSeq [VSpare; VInt 1; VInt 2]) LsbFirst = Ok [0x90]
  /\ 0x90 = 2 ^ 7 + 2 ^ 4.
Proof. split; vm_compute; reflexivity. Qed.

(** ** Determinism *)

(** C9. [serialize] is a function of the value and the byte order: equal
    values under the same byte order give identical byte sequences. *)
Theorem serialize_deterministic (T : type) (v1 v2 : value) (o1 o2 : ByteOrder) :
  v1 = v2 -> o1 = o2 -> serialize T v1 o1 = serialize T v2 o2.
Proof. intros -> ->. reflexivity. Qed.

Lemma serialize_deterministic_witness :
  serialize Trio (VSeq [VInt 0x12345678; VInt 1; VInt 0]) LsbFirst
  = serialize Trio (VSeq [VInt (0x12345600 + 0x78); VInt 1; VInt 0]) LsbFirst.
Proof.
  apply (serialize_deterministic Trio
           (VSeq [VInt 0x12345678; VInt 1; VInt 0])
           (VSeq [VInt (0x12345600 + 0x78); VInt 1; VInt 0]) LsbFirst LsbFirst);
    reflexivity.
Defined.

(** ** [flush] *)

Lemma flush_empty (s : S.t) : S.bitsSet_ s = 0 -> S.flush s = s.
Proof. intros H. unfold S.flush. rewrite H. reflexivity. Qed.

Lemma flush_partial (s : S.t) :
  S.bitsSet_ s <> 0 ->
  S.flush s = S.mk (S.byteOrder_ s) 0 0 (S.bytes s ++ [S.byte_ s]).
Proof.
  intros H. unfold S.flush. apply Z.eqb_neq in H. rewrite H. reflexivity.
Qed.

(** A repeated [flush] emits nothing and changes nothing. *)
Lemma flush_idempotent (s : S.t) : S.flush (S.flush s) = S.flush s.
Proof.
  destruct (Z.eq_dec (S.bitsSet_ s) 0) as [H|H].
  - rewrite (flush_empty s H). apply flush_empty, H.
  - rewrite (flush_partial s H). reflexivity.
Qed.

(** C3 (defect of [flush]).  Most-significant-first, after the four bits
    [1111] the accumulator is [0x1E], and [flush] emits it as it is; the
    partial byte followed by zero bits is [0xF0], which is what four more
    zero bits produce and what the decoder reads back as [1111].  Likewise
    least-significant-first ([0x78] against [0x0F]).  The emitted byte is
    read back as 1, respectively 8, instead of 15. *)
Theorem flush_partial_byte_misplaced :
  S.bytes (S.flush (S.impl 0xF 4 (S.init MsbFirst))) = [0x1E]
  /\ S.bytes (S.impl 0 4 (S.impl 0xF 4 (S.init MsbFirst))) = [0xF0]
  /\ S.bytes (S.flush (S.impl 0xF 4 (S.init LsbFirst))) = [0x78]
  /\ S.bytes (S.impl 0 4 (S.impl 0xF 4 (S.init LsbFirst))) = [0x0F]
  /\ serialize (Bits uint8_t 4) (VInt 15) MsbFirst = Ok [0x1E]
  /\ deserialize (Bits uint8_t 4) [0x1E] MsbFirst = Ok (VInt 1)
  /\ deserialize (Bits uint8_t 4) [0xF0] MsbFirst = Ok (VInt 15)
  /\ serialize (Bits uint8_t 4) (VInt 15) LsbFirst = Ok [0x78]
  /\ deserialize (Bits uint8_t 4) [0x78] LsbFirst = Ok (VInt 8)
  /\ deserialize (Bits uint8_t 4) [0x0F] LsbFirst = Ok (VInt 15).
Proof. repeat split; vm_compute; reflexivity. Qed.

(** ** Sign extension *)

(** With [signExtend] the result of [impl] is the result without it, or'ed
    with the final [signMask]; the bits transferred are not consulted. *)
Lemma impl_signExtend (bits : Z) (d : D.t) :
  D.impl 0 bits true d =
    ('(data1, signMask1, d1) <- D.loop (Z.to_nat bits) 0 (usize (-1)) d ;;
     '(data, _) <- D.impl 0 bits false d ;;
     Ok (Z.lor data
           (match D.byteOrder_ d with
            | LsbFirst => usize_not signMask1
            | MsbFirst => signMask1
            end), d1)).
Proof.
  unfold D.impl.
  destruct (D.loop (Z.to_nat bits) 0 (usize (-1)) d)
    as [[[data1 signMask1] d1]|e]; cbn [bind]; [|reflexivity].
  destruct (D.byteOrder_ d); reflexivity.
Qed.

(** C2 (defect of the sign extension).  Most-significant-first, the five
    bits [00101] (top bit 0) are returned with every higher bit set: [impl]
    yields [2^64 - 27] and [take<int8_t>(5)] yields [-27], where the
    zero-extended value is 5 (as [take<uint8_t>(5)] returns).
    Least-significant-first, the mask covers the top [bits] bits of the word
    instead of the bits above the value: the five bits [10000] are returned
    as 16 by [take<int8_t>(5)], not -16, and a 64-bit signed integer decodes
    to -1 whatever the input. *)
Theorem sign_extension_ignores_top_bit :
  (exists d, D.impl 0 5 true (D.init [0x28] MsbFirst) = Ok (2 ^ 64 - 27, d))
  /\ (exists d, D.take int8_t 5 (D.init [0x28] MsbFirst) = Ok (-27, d))
  /\ (exists d, D.take uint8_t 5 (D.init [0x28] MsbFirst) = Ok (5, d))
  /\ (exists d, D.take int8_t 5 (D.init [0x80] MsbFirst) = Ok (-16, d))
  /\ (exists d, D.take int8_t 5 (D.init [0x10] LsbFirst) = Ok (16, d))
  /\ (exists d, D.impl 0 5 true (D.init [0x10] LsbFirst) = Ok (2 ^ 64 - 2 ^ 59 + 16, d))
  /\ deserialize (Integral int64_t) [0; 0; 0; 0; 0; 0; 0; 0] LsbFirst = Ok (VInt (-1)).
Proof. repeat split; try (eexists; vm_compute; reflexivity); vm_compute; reflexivity. Qed.

(** ** Properties checked over finite ranges *)

Lemma Zrange_forallb (f : Z -> bool) (n : nat) :
  forallb f (Zrange n) = true ->
  forall z, 0 <= z < Z.of_nat n -> f z = true.
Proof.
  intros H z Hz. rewrite forallb_forall in H. apply H.
  unfold Zrange. apply in_map_iff. exists (Z.to_nat z). split; [lia|].
  apply in_seq. lia.
Qed.

Lemma bits_eqb_eq (a b : list bool) : bits_eqb a b = true -> a = b.
Proof.
  revert b. induction a as [|x a IH]; intros [|y b]; cbn; try discriminate; auto.
  intros H. apply andb_prop in H. destruct H as [Hxy Hab].
  apply Bool.eqb_prop in Hxy. subst y. f_equal. apply IH, Hab.
Qed.

Lemma ByteOrder_eqb_eq (a b : ByteOrder) : ByteOrder_eqb a b = true -> a = b.
Proof. destruct a, b; cbn; congruence. Qed.

Lemma enc_step_checked (o : ByteOrder) (k B : Z) (bit : bool) :
  0 <= k < 8 -> 0 <= B < 256 -> enc_step_check o k B bit = true.
Proof.
  intros Hk HB.
  assert (H : forallb (fun o => forallb (fun k => forallb (fun B =>
                forallb (enc_step_check o k B) [true; false])
                (Zrange 256)) (Zrange 8)) [MsbFirst; LsbFirst] = true)
    by (vm_compute; reflexivity).
  rewrite forallb_forall in H.
  assert (Ho : In o [MsbFirst; LsbFirst]) by (destruct o; cbn; auto).
  pose proof (Zrange_forallb _ _ (Zrange_forallb _ _ (H o Ho) k Hk) B HB) as Hb.
  rewrite forallb_forall in Hb. apply Hb. destruct bit; cbn; auto.
Qed.

Lemma dec_step_checked (o : ByteOrder) (r B : Z) :
  0 <= r < 8 -> 0 <= B < 256 -> dec_step_check o r B = true.
Proof.
  intros Hr HB.
  assert (H : forallb (fun o => forallb (fun r => forallb (dec_step_check o r)
                (Zrange 256)) (Zrange 8)) [MsbFirst; LsbFirst] = true)
    by (vm_compute; reflexivity).
  rewrite forallb_forall in H.
  assert (Ho : In o [MsbFirst; LsbFirst]) by (destruct o; cbn; auto).
  exact (Zrange_forallb _ _ (Zrange_forallb _ _ (H o Ho) r Hr) B HB).
Qed.

Lemma dec_pull_checked (o : ByteOrder) (B x : Z) :
  0 <= B < 256 -> 0 <= x < 256 -> dec_pull_check o B x = true.
Proof.
  intros HB Hx.
  assert (H : forallb (fun o => forallb (fun B => forallb (dec_pull_check o B)
                (Zrange 256)) (Zrange 256)) [MsbFirst; LsbFirst] = true)
    by (vm_compute; reflexivity).
  rewrite forallb_forall in H.
  assert (Ho : In o [MsbFirst; LsbFirst]) by (destruct o; cbn; auto).
  exact (Zrange_forallb _ _ (Zrange_forallb _ _ (H o Ho) B HB) x Hx).
Qed.

(** ** One iteration of the encoder *)

Lemma dataMask_nonzero (o : ByteOrder) : (S.dataMask o =? 0) = false.
Proof. destruct o; reflexivity. Qed.

Lemma step_data (data : Z) (s : S.t) :
  fst (S.step data s) = data_next (S.byteOrder_ s) data.
Proof. unfold S.step, data_next. destruct (S.byteOrder_ s); reflexivity. Qed.

Lemma step_on_bit (data : Z) (s : S.t) :
  snd (S.step data s) =
  snd (S.step (if data_bit (S.byteOrder_ s) data
               then S.dataMask (S.byteOrder_ s) else 0) s).
Proof.
  unfold S.step, data_bit.
  destruct (Z.land data (S.dataMask (S.byteOrder_ s)) =? 0) eqn:E; cbn [negb].
  - rewrite Z.land_0_l. cbn [Z.eqb negb]. destruct (S.byteOrder_ s); reflexivity.
  - rewrite Z.land_diag, dataMask_nonzero. cbn [negb].
    destruct (S.byteOrder_ s); reflexivity.
Qed.

Lemma step_frame (data : Z) (o : ByteOrder) (B k : Z) (bs : list Z) :
  snd (S.step data (S.mk o B k bs)) =
  let s' := snd (S.step data (S.mk o B k [])) in
  S.mk (S.byteOrder_ s') (S.byte_ s') (S.bitsSet_ s') (bs ++ S.bytes s').
Proof.
  unfold S.step, S.putByte.
  cbn [S.byteOrder_ S.byte_ S.bitsSet_ S.bytes].
  destruct (negb (Z.land data (S.dataMask o) =? 0));
    cbn [S.byteOrder_ S.byte_ S.bitsSet_ S.bytes];
    destruct (u8 (k + 1) =? bitsize 1);
    cbn [S.byteOrder_ S.byte_ S.bitsSet_ S.bytes];
    destruct o; cbn [snd S.byteOrder_ S.byte_ S.bitsSet_ S.bytes];
    rewrite ?app_nil_r; reflexivity.
Qed.

Lemma accumulator_ok_range (o : ByteOrder) (k B : Z) :
  accumulator_ok o k B = true -> 0 <= k < 8 /\ 0 <= B < 256.
Proof.
  unfold accumulator_ok. intros H.
  repeat (apply andb_prop in H; destruct H as [H ?]).
  assert (Hk : 0 <= k < 8) by lia. split; [exact Hk|].
  destruct o.
  - assert (2 ^ (k + 1) <= 2 ^ 8) by (apply Z.pow_le_mono_r; lia).
    change (2 ^ 8) with 256 in *. lia.
  - lia.
Qed.

Lemma enc_step (data : Z) (s : S.t) :
  ser_ok s ->
  let s' := snd (S.step data s) in
  ser_ok s' /\ S.byteOrder_ s' = S.byteOrder_ s
  /\ enc_bits s' = enc_bits s ++ [data_bit (S.byteOrder_ s) data].
Proof.
  intros [Hacc Hbytes]. destruct s as [o B k bs].
  cbn [S.byteOrder_ S.byte_ S.bitsSet_ S.bytes] in *.
  destruct (accumulator_ok_range _ _ _ Hacc) as [Hk HB].
  pose proof (enc_step_checked o k B (data_bit o data) Hk HB) as Hc.
  unfold enc_step_check in Hc. rewrite Hacc in Hc. cbn [implb] in Hc.
  rewrite step_on_bit, step_frame. cbn [S.byteOrder_].
  set (s0 := snd (S.step (if data_bit o data then S.dataMask o else 0)
                    (S.mk o B k []))) in *.
  cbv zeta.
  repeat (apply andb_prop in Hc; destruct Hc as [Hc ?]).
  apply ByteOrder_eqb_eq in Hc.
  match goal with H : bits_eqb _ _ = true |- _ => apply bits_eqb_eq in H; rename H into Hbits end.
  unfold ser_ok, enc_bits in *.
  cbn [S.byteOrder_ S.byte_ S.bitsSet_ S.bytes]. rewrite Hc.
  repeat split.
  - assumption.
  - rewrite forallb_app. apply andb_true_intro. split; assumption.
  - rewrite flat_map_app, <- app_assoc. rewrite Hc in Hbits. rewrite Hbits.
    rewrite app_assoc. reflexivity.
Qed.

Lemma enc_loop (n : nat) : forall (data : Z) (s : S.t),
  ser_ok s ->
  let s' := S.loop n data s in
  ser_ok s' /\ S.byteOrder_ s' = S.byteOrder_ s
  /\ enc_bits s' = enc_bits s ++ loop_bits (S.byteOrder_ s) n data.
Proof.
  induction n as [|n IH]; intros data s Hok; cbv zeta.
  - cbn [S.loop loop_bits]. rewrite app_nil_r. auto.
  - cbn [S.loop loop_bits].
    pose proof (enc_step data s Hok) as Hs. cbv zeta in Hs.
    pose proof (step_data data s) as Hd.
    destruct (S.step data s) as [data' s1]. cbn [fst snd] in *.
    destruct Hs as [Hok1 [Ho1 Hb1]].
    destruct (IH data' s1 Hok1) as [Hok2 [Ho2 Hb2]].
    split; [assumption | split; [congruence|]].
    rewrite Hb2, Hb1, Ho1, Hd, <- app_assoc. reflexivity.
Qed.

(** ** The bits that [impl] transfers *)

Lemma testbit_land_pow2 (a n : Z) :
  0 <= n -> negb (Z.land a (2 ^ n) =? 0) = Z.testbit a n.
Proof.
  intros Hn. destruct (Z.testbit a n) eqn:Ht.
  - destruct (Z.land a (2 ^ n) =? 0) eqn:E; [|reflexivity].
    apply Z.eqb_eq in E.
    assert (Hb : Z.testbit (Z.land a (2 ^ n)) n = true)
      by (rewrite Z.land_spec, Ht, Z.pow2_bits_true; auto).
    rewrite E, Z.bits_0 in Hb. discriminate.
  - assert (E : Z.land a (2 ^ n) = 0).
    { apply Z.bits_inj'. intros i Hi.
      rewrite Z.land_spec, Z.bits_0, Z.pow2_bits_eqb by assumption.
      destruct (Z.eqb_spec n i) as [->|]; [rewrite Ht|]; auto using andb_false_r. }
    rewrite E. reflexivity.
Qed.

Lemma testbit_usize (x j : Z) :
  j < word_bits -> Z.testbit (usize x) j = Z.testbit x j.
Proof.
  intros Hj. unfold usize.
  destruct (Z.neg_nonneg_cases j) as [Hneg|Hpos].
  - rewrite !Z.testbit_neg_r by assumption. reflexivity.
  - apply Z.mod_pow2_bits_low. lia.
Qed.

Lemma seq_map_S {A : Type} (f : nat -> A) (n : nat) :
  map f (seq 1 n) = map (fun i => f (S i)) (seq 0 n).
Proof. rewrite <- seq_shift, map_map. reflexivity. Qed.

Lemma loop_bits_lsb (n : nat) : forall data,
  loop_bits LsbFirst n data = map (fun i => Z.testbit data (Z.of_nat i)) (seq 0 n).
Proof.
  induction n as [|n IH]; intros data; [reflexivity|].
  cbn [loop_bits seq map]. f_equal.
  - unfold data_bit. change (S.dataMask LsbFirst) with (2 ^ 0).
    change (Z.of_nat 0) with 0.
    apply testbit_land_pow2. lia.
  - rewrite IH, seq_map_S. apply map_ext. intros i.
    unfold data_next. rewrite Z.shiftr_spec by lia. f_equal. lia.
Qed.

Lemma loop_bits_msb (n : nat) : forall data,
  loop_bits MsbFirst n data =
  map (fun i => Z.testbit data (word_bits - 1 - Z.of_nat i)) (seq 0 n).
Proof.
  induction n as [|n IH]; intros data; [reflexivity|].
  cbn [loop_bits seq map]. f_equal.
  - unfold data_bit. change (S.dataMask MsbFirst) with (2 ^ 63).
    change (word_bits - 1 - Z.of_nat 0) with 63.
    apply testbit_land_pow2. lia.
  - rewrite IH, seq_map_S. apply map_ext. intros i.
    unfold data_next. unfold word_bits.
    destruct (Z.neg_nonneg_cases (64 - 1 - Z.of_nat i)) as [Hneg|Hpos].
    + rewrite !Z.testbit_neg_r by lia. reflexivity.
    + rewrite testbit_usize by (unfold word_bits; lia).
      rewrite Z.shiftl_spec by assumption. f_equal. lia.
Qed.

Lemma val_bits_usize (o : ByteOrder) (W z : Z) :
  W <= word_bits -> val_bits o W (usize z) = val_bits o W z.
Proof.
  intros HW. unfold val_bits. apply map_ext_in. intros i Hi.
  apply in_seq in Hi. apply testbit_usize. destruct o; lia.
Qed.

Lemma val_bits_length (o : ByteOrder) (W v : Z) :
  length (val_bits o W v) = Z.to_nat W.
Proof. unfold val_bits. rewrite length_map, length_seq. reflexivity. Qed.

(** [impl] appends the low [bits] bits of [data], in stream order. *)
Lemma enc_impl (data bits : Z) (s : S.t) :
  0 <= bits <= word_bits -> ser_ok s ->
  let s' := S.impl data bits s in
  ser_ok s' /\ S.byteOrder_ s' = S.byteOrder_ s
  /\ enc_bits s' = enc_bits s ++ val_bits (S.byteOrder_ s) bits data.
Proof.
  intros Hbits Hok. cbv zeta. unfold S.impl.
  match goal with |- context [S.loop ?n ?d s] =>
    destruct (enc_loop n d s Hok) as [Hok' [Ho Hb]] end.
  split; [assumption | split; [assumption|]].
  rewrite Hb. f_equal. unfold val_bits.
  destruct (S.byteOrder_ s).
  - rewrite loop_bits_msb. apply map_ext_in. intros i Hi.
    apply in_seq in Hi. unfold word_bits in *.
    rewrite testbit_usize by (unfold word_bits; lia).
    rewrite Z.shiftl_spec by lia. f_equal. lia.
  - apply loop_bits_lsb.
Qed.

(** [give] on a valid width is [impl], and appends the low [bits] bits of
    the datum. *)
Lemma enc_give (T : itype) (z bits : Z) (s : S.t) :
  1 <= bits <= bitsize (sizeof T) -> sizeof T <= sizeof_size_t -> ser_ok s ->
  exists s',
    S.give T z bits s = Ok s' /\ ser_ok s'
    /\ S.byteOrder_ s' = S.byteOrder_ s
    /\ enc_bits s' = enc_bits s ++ val_bits (S.byteOrder_ s) bits z.
Proof.
  intros Hbits HT Hok. unfold S.give.
  destruct (bits >? bitsize (sizeof T)) eqn:E1; [lia|].
  destruct (sizeof T >? sizeof_size_t) eqn:E2; [lia|].
  destruct (bits =? 0) eqn:E3; [lia|].
  assert (Hw : 0 <= bits <= word_bits)
    by (unfold bitsize, CHAR_BIT, sizeof_size_t, word_bits in *; lia).
  destruct (enc_impl (to_size_t z) bits s Hw Hok) as [Hok' [Ho Hb]].
  eexists. split; [reflexivity|]. split; [assumption|]. split; [assumption|].
  rewrite Hb. unfold to_size_t. rewrite val_bits_usize by lia. reflexivity.
Qed.

(** ** One iteration of the decoder *)

(** The stream side of an iteration does not depend on [data] and
    [signMask], which are updated by [data_push] and [mask_next]. *)
Lemma step_on_zero (data signMask : Z) (d : D.t) :
  D.step data signMask d =
  match D.step 0 0 d with
  | Ok (x, _, d') =>
      Ok (data_push (D.byteOrder_ d) data (negb (x =? 0)),
          mask_next (D.byteOrder_ d) signMask, d')
  | Err e => Err e
  end.
Proof.
  unfold D.step, data_push, mask_next, D.getByte.
  destruct d as [o B r inp]. cbn [D.byteOrder_ D.byte_ D.bitsLeft_ D.input].
  destruct o, (r =? 0); try destruct inp as [|x inp];
    cbn [bind D.byteOrder_ D.byte_ D.bitsLeft_ D.input]; try reflexivity.
  all: match goal with
       | |- context [negb (Z.land ?b ?m =? 0)] =>
           destruct (negb (Z.land b m =? 0)); reflexivity
       end.
Qed.

Lemma step_pull_frame (o : ByteOrder) (B x : Z) (rest : list Z) :
  D.step 0 0 (D.mk o B 0 (x :: rest)) =
  match D.step 0 0 (D.mk o B 0 [x]) with
  | Ok (a, b, d') =>
      Ok (a, b, D.mk (D.byteOrder_ d') (D.byte_ d') (D.bitsLeft_ d')
                  (D.input d' ++ rest))
  | Err e => Err e
  end.
Proof.
  unfold D.step, D.getByte. cbn [D.byteOrder_ D.byte_ D.bitsLeft_ D.input Z.eqb].
  destruct o; cbn [bind D.byteOrder_ D.byte_ D.bitsLeft_ D.input app]; reflexivity.
Qed.

Lemma step_inside_frame (o : ByteOrder) (B r : Z) (inp : list Z) :
  r <> 0 ->
  D.step 0 0 (D.mk o B r inp) =
  match D.step 0 0 (D.mk o B r []) with
  | Ok (a, b, d') =>
      Ok (a, b, D.mk (D.byteOrder_ d') (D.byte_ d') (D.bitsLeft_ d')
                  (D.input d' ++ inp))
  | Err e => Err e
  end.
Proof.
  intros Hr. apply Z.eqb_neq in Hr.
  unfold D.step. cbn [D.byteOrder_ D.byte_ D.bitsLeft_ D.input]. rewrite Hr.
  destruct o; cbn [bind D.byteOrder_ D.byte_ D.bitsLeft_ D.input app]; reflexivity.
Qed.

Lemma remaining_nil (o : ByteOrder) (B : Z) : remaining o 0 B = [].
Proof. reflexivity. Qed.

Lemma dec_step (data signMask : Z) (d : D.t) (bit : bool) (tl : list bool) :
  des_ok d -> dec_bits d = bit :: tl ->
  exists d',
    D.step data signMask d =
      Ok (data_push (D.byteOrder_ d) data bit,
          mask_next (D.byteOrder_ d) signMask, d')
    /\ des_ok d' /\ D.byteOrder_ d' = D.byteOrder_ d /\ dec_bits d' = tl.
Proof.
  intros [Hcur Hinp] Hbits. rewrite step_on_zero.
  destruct d as [o B r inp].
  cbn [D.byteOrder_ D.byte_ D.bitsLeft_ D.input] in *.
  unfold cursor_ok, byte_ok in Hcur.
  assert (Hr : 0 <= r < 8) by lia. assert (HB : 0 <= B < 256) by lia.
  unfold dec_bits in Hbits. cbn [D.byteOrder_ D.byte_ D.bitsLeft_ D.input] in Hbits.
  destruct (Z.eq_dec r 0) as [->|Hr0].
  - (* a byte is pulled *)
    rewrite remaining_nil in Hbits. cbn [app] in Hbits.
    destruct inp as [|x rest]; [discriminate|].
    cbn [flat_map forallb] in *.
    apply andb_prop in Hinp. destruct Hinp as [Hx Hrest].
    assert (Hx' : 0 <= x < 256) by (unfold byte_ok in Hx; lia).
    pose proof (dec_pull_checked o B x HB Hx') as Hc.
    unfold dec_pull_check in Hc. rewrite step_pull_frame.
    destruct (D.step 0 0 (D.mk o B 0 [x])) as [[[a b] d']|e]; [|discriminate].
    repeat (apply andb_prop in Hc; destruct Hc as [Hc ?]).
    apply ByteOrder_eqb_eq in Hc.
    match goal with H : bits_eqb _ _ = true |- _ =>
      apply bits_eqb_eq in H; rename H into Hb end.
    destruct (D.input d') as [|? ?] eqn:Hi; [|discriminate].
    rewrite Hb in Hbits. cbn [app] in Hbits. injection Hbits as Hbit Htl.
    eexists. split; [rewrite Hbit; reflexivity|].
    unfold des_ok, dec_bits. cbn [D.byteOrder_ D.byte_ D.bitsLeft_ D.input app].
    rewrite Hc. auto.
  - (* inside the current byte *)
    pose proof (dec_step_checked o r B Hr HB) as Hc.
    unfold dec_step_check in Hc.
    assert (Hpre : cursor_ok r B && (1 <=? r) = true)
      by (unfold cursor_ok, byte_ok; lia).
    rewrite Hpre in Hc. cbn [implb] in Hc.
    rewrite step_inside_frame by assumption.
    destruct (D.step 0 0 (D.mk o B r [])) as [[[a b] d']|e] eqn:Hs; [|discriminate].
    assert (Hi : D.input d' = []).
    { unfold D.step in Hs. cbn [D.byteOrder_ D.byte_ D.bitsLeft_ D.input] in Hs.
      apply Z.eqb_neq in Hr0. rewrite Hr0 in Hs.
      destruct o; cbn [bind] in Hs; injection Hs as _ _ <-; reflexivity. }
    repeat (apply andb_prop in Hc; destruct Hc as [Hc ?]).
    apply ByteOrder_eqb_eq in Hc.
    match goal with H : bits_eqb _ _ = true |- _ =>
      apply bits_eqb_eq in H; rename H into Hb end.
    rewrite Hb in Hbits. cbn [app] in Hbits. injection Hbits as Hbit Htl.
    eexists. split; [rewrite Hbit; reflexivity|].
    unfold des_ok, dec_bits. cbn [D.byteOrder_ D.byte_ D.bitsLeft_ D.input].
    rewrite Hi, Hc. cbn [app]. auto.
Qed.

Lemma dec_loop (L : list bool) : forall (data signMask : Z) (d : D.t) (rest : list bool),
  des_ok d -> dec_bits d = L ++ rest ->
  exists d',
    D.loop (length L) data signMask d =
      Ok (fold_left (data_push (D.byteOrder_ d)) L data,
          Nat.iter (length L) (mask_next (D.byteOrder_ d)) signMask, d')
    /\ des_ok d' /\ D.byteOrder_ d' = D.byteOrder_ d /\ dec_bits d' = rest.
Proof.
  induction L as [|bit L IH]; intros data signMask d rest Hok Hbits.
  - exists d. cbn. auto.
  - cbn [app] in Hbits.
    destruct (dec_step data signMask d bit (L ++ rest) Hok Hbits)
      as [d1 [Hs [Hok1 [Ho1 Hb1]]]].
    destruct (IH (data_push (D.byteOrder_ d) data bit)
                (mask_next (D.byteOrder_ d) signMask) d1 rest Hok1 Hb1)
      as [d' [Hl [Hok' [Ho' Hb']]]].
    exists d'. cbn [length D.loop fold_left]. rewrite Hs. cbn [bind].
    rewrite Hl, Ho1, Nat.iter_succ_r.
    split; [reflexivity|split; [assumption | split; [congruence | assumption]]].
Qed.

(** ** The value that [impl] assembles *)

Lemma push_msb_bit (prev : Z) (b : bool) (j : Z) :
  0 <= j ->
  Z.testbit (data_push MsbFirst prev b) j =
  ((j <? word_bits) && Z.testbit prev (j - 1)) || (b && (j =? 0)).
Proof.
  intros Hj. unfold data_push, usize.
  change (D.dataMask MsbFirst) with (2 ^ 0).
  destruct b; cbn [andb];
    rewrite ?Z.lor_spec, ?Z.pow2_bits_eqb by lia;
    rewrite Z.testbit_mod_pow2 by (unfold word_bits; lia);
    rewrite Z.shiftl_spec by assumption.
  - rewrite (Z.eqb_sym 0 j). reflexivity.
  - rewrite orb_false_r. reflexivity.
Qed.

Lemma push_lsb_bit (prev : Z) (b : bool) (j : Z) :
  0 <= j ->
  Z.testbit (data_push LsbFirst prev b) j =
  Z.testbit prev (j + 1) || (b && (j =? word_bits - 1)).
Proof.
  intros Hj. unfold data_push.
  change (D.dataMask LsbFirst) with (2 ^ 63). change (word_bits - 1) with 63.
  destruct b; cbn [andb];
    rewrite ?Z.lor_spec, ?Z.pow2_bits_eqb by lia;
    rewrite Z.shiftr_spec by assumption.
  - rewrite (Z.eqb_sym 63 j). reflexivity.
  - rewrite orb_false_r. reflexivity.
Qed.

Lemma fold_push_msb (W v : Z) (n : nat) :
  Z.of_nat n <= W <= word_bits ->
  forall j, 0 <= j ->
  Z.testbit
    (fold_left (data_push MsbFirst)
       (map (fun i => Z.testbit v (W - 1 - Z.of_nat i)) (seq 0 n)) 0) j
  = (j <? Z.of_nat n) && Z.testbit v (W - Z.of_nat n + j).
Proof.
  unfold word_bits. induction n as [|n IH]; intros Hn j Hj.
  - cbn [seq map fold_left]. rewrite Z.bits_0.
    destruct (Z.ltb_spec j (Z.of_nat 0)); [lia | reflexivity].
  - rewrite seq_S, map_app, fold_left_app. cbn [map fold_left Nat.add].
    rewrite push_msb_bit by assumption. unfold word_bits.
    destruct (Z.eqb_spec j 0) as [->|Hj0].
    + rewrite Z.testbit_neg_r by lia. rewrite andb_false_r, andb_true_r.
      cbn [orb].
      destruct (Z.ltb_spec 0 (Z.of_nat (S n))); [|lia]. cbn [andb].
      f_equal. lia.
    + rewrite andb_false_r, orb_false_r.
      rewrite IH by lia.
      replace (W - Z.of_nat n + (j - 1)) with (W - Z.of_nat (S n) + j) by lia.
      destruct (Z.ltb_spec j 64), (Z.ltb_spec (j - 1) (Z.of_nat n)),
        (Z.ltb_spec j (Z.of_nat (S n))); try lia; reflexivity.
Qed.

Lemma fold_push_lsb (v : Z) (n : nat) :
  Z.of_nat n <= word_bits ->
  forall j, 0 <= j ->
  Z.testbit
    (fold_left (data_push LsbFirst)
       (map (fun i => Z.testbit v (Z.of_nat i)) (seq 0 n)) 0) j
  = (word_bits - Z.of_nat n <=? j) && (j <? word_bits)
    && Z.testbit v (j - (word_bits - Z.of_nat n)).
Proof.
  unfold word_bits. induction n as [|n IH]; intros Hn j Hj.
  - cbn [seq map fold_left]. rewrite Z.bits_0.
    destruct (Z.leb_spec (64 - Z.of_nat 0) j), (Z.ltb_spec j 64);
      try reflexivity; lia.
  - rewrite seq_S, map_app, fold_left_app. cbn [map fold_left Nat.add].
    rewrite push_lsb_bit by assumption. unfold word_bits.
    rewrite IH by lia.
    destruct (Z.eqb_spec j (64 - 1)) as [->|Hj0].
    + destruct (Z.leb_spec (64 - Z.of_nat n) (64 - 1 + 1)),
        (Z.ltb_spec (64 - 1 + 1) 64),
        (Z.leb_spec (64 - Z.of_nat (S n)) (64 - 1)),
        (Z.ltb_spec (64 - 1) 64); try lia.
      cbn [andb orb]. rewrite andb_true_r. f_equal. lia.
    + rewrite andb_false_r, orb_false_r.
      replace (j + 1 - (64 - Z.of_nat n)) with (j - (64 - Z.of_nat (S n))) by lia.
      destruct (Z.leb_spec (64 - Z.of_nat n) (j + 1)),
        (Z.ltb_spec (j + 1) 64),
        (Z.leb_spec (64 - Z.of_nat (S n)) j),
        (Z.ltb_spec j 64); try lia; reflexivity.
Qed.


Lemma dec_value_val_bits (o : ByteOrder) (W v : Z) :
  0 <= W <= word_bits -> dec_value o W (val_bits o W v) = v mod 2 ^ W.
Proof.
  intros HW. unfold dec_value, val_bits.
  apply Z.bits_inj'. intros j Hj.
  rewrite Z.testbit_mod_pow2 by lia.
  destruct o.
  - rewrite fold_push_msb by lia. rewrite Z2Nat.id by lia.
    f_equal. f_equal. lia.
  - rewrite Z.shiftr_spec by assumption.
    rewrite fold_push_lsb by lia. rewrite Z2Nat.id by lia.
    replace (j + (word_bits - W) - (word_bits - W)) with j by lia.
    destruct (Z.leb_spec (word_bits - W) (j + (word_bits - W))),
      (Z.ltb_spec (j + (word_bits - W)) word_bits), (Z.ltb_spec j W);
      try lia; reflexivity.
Qed.

(** The final [signMask] of a transfer of [W] bits. *)
Lemma mask_iter_msb (n : nat) :
  Z.of_nat n <= word_bits ->
  Nat.iter n (mask_next MsbFirst) (usize (-1)) = 2 ^ word_bits - 2 ^ Z.of_nat n.
Proof.
  change word_bits with 64.
  induction n as [|n IH]; intros Hn; [reflexivity|].
  rewrite Nat.iter_succ, IH by lia. unfold mask_next, usize.
  change word_bits with 64.
  rewrite Z.shiftl_mul_pow2 by lia.
  assert (Hp : 2 ^ Z.of_nat (S n) = 2 * 2 ^ Z.of_nat n)
    by (rewrite Nat2Z.inj_succ, Z.pow_succ_r by lia; reflexivity).
  assert (H1 : 0 < 2 ^ Z.of_nat n) by (apply Z.pow_pos_nonneg; lia).
  assert (H2 : 2 ^ Z.of_nat (S n) <= 2 ^ 64) by (apply Z.pow_le_mono_r; lia).
  replace ((2 ^ 64 - 2 ^ Z.of_nat n) * 2 ^ 1)
    with ((2 ^ 64 - 2 ^ Z.of_nat (S n)) + 1 * 2 ^ 64) by lia.
  rewrite Z.mod_add by lia. apply Z.mod_small. lia.
Qed.

Lemma mask_iter_lsb (n : nat) :
  Z.of_nat n <= word_bits ->
  Nat.iter n (mask_next LsbFirst) (usize (-1)) = 2 ^ (word_bits - Z.of_nat n) - 1.
Proof.
  change word_bits with 64.
  induction n as [|n IH]; intros Hn; [reflexivity|].
  rewrite Nat.iter_succ, IH by lia. unfold mask_next.
  rewrite Z.shiftr_div_pow2 by lia.
  replace (64 - Z.of_nat n) with (Z.succ (64 - Z.of_nat (S n))) by lia.
  rewrite Z.pow_succ_r by lia.
  assert (H1 : 0 < 2 ^ (64 - Z.of_nat (S n))) by (apply Z.pow_pos_nonneg; lia).
  change (2 ^ 1) with 2.
  symmetry. apply Z.div_unique with (r := 1); lia.
Qed.

Lemma sign_mask_final (o : ByteOrder) (W : Z) :
  0 <= W <= word_bits ->
  (let m := Nat.iter (Z.to_nat W) (mask_next o) (usize (-1)) in
   match o with LsbFirst => usize_not m | MsbFirst => m end) = sign_mask o W.
Proof.
  intros HW. cbv zeta. unfold sign_mask. destruct o.
  - rewrite mask_iter_msb by lia. rewrite Z2Nat.id by lia. reflexivity.
  - rewrite mask_iter_lsb by lia. rewrite Z2Nat.id by lia.
    unfold usize_not, usize. rewrite Z.lnot_eq_pred_opp.
    assert (H1 : 0 < 2 ^ (word_bits - W)) by (apply Z.pow_pos_nonneg; lia).
    assert (H2 : 2 ^ (word_bits - W) <= 2 ^ word_bits)
      by (apply Z.pow_le_mono_r; lia).
    replace (- (2 ^ (word_bits - W) - 1) - 1)
      with ((2 ^ word_bits - 2 ^ (word_bits - W)) + (-1) * 2 ^ word_bits) by lia.
    rewrite Z.mod_add by (unfold word_bits; lia). apply Z.mod_small. lia.
Qed.

(** [impl] over a stream that starts with the bits [L]: they are consumed
    and assembled, and [signMask] is or'ed in on request. *)
Lemma dec_impl (L rest : list bool) (signExtend : bool) (d : D.t) :
  Z.of_nat (length L) <= word_bits ->
  des_ok d -> dec_bits d = L ++ rest ->
  exists d',
    D.impl 0 (Z.of_nat (length L)) signExtend d =
      Ok (let v := dec_value (D.byteOrder_ d) (Z.of_nat (length L)) L in
          if signExtend
          then Z.lor v (sign_mask (D.byteOrder_ d) (Z.of_nat (length L)))
          else v, d')
    /\ des_ok d' /\ D.byteOrder_ d' = D.byteOrder_ d /\ dec_bits d' = rest.
Proof.
  intros HW Hok Hbits. unfold D.impl. rewrite Nat2Z.id.
  destruct (dec_loop L 0 (usize (-1)) d rest Hok Hbits)
    as [d' [Hl [Hok' [Ho' Hb']]]].
  exists d'. rewrite Hl. cbn [bind].
  split; [|auto].
  pose proof (sign_mask_final (D.byteOrder_ d) (Z.of_nat (length L))) as Hm.
  rewrite Nat2Z.id in Hm. cbv zeta in Hm. unfold dec_value.
  destruct (D.byteOrder_ d); rewrite <- Hm by lia; reflexivity.
Qed.

(** ** The policies on the bit stream *)


Lemma serialize_Resizable (E : type) (l : list value) (ser : S.t) :
  Policy.serialize (Resizable E) (VSeq l) ser =
  (ser1 <- S.give size_t (Z.of_nat (length l)) (bitsize (sizeof size_t)) ser ;;
   put_each (Policy.serialize E) l ser1).
Proof. reflexivity. Qed.

Lemma serialize_FixedArity (n : nat) (E : type) (l : list value) (ser : S.t) :
  Policy.serialize (FixedArity n E) (VSeq l) ser =
  if negb (length l =? n)%nat then Err ill_typed
  else put_each (Policy.serialize E) l ser.
Proof. reflexivity. Qed.

Lemma serialize_Composite (members : list type) (l : list value) (ser : S.t) :
  Policy.serialize (Composite members) (VSeq l) ser =
  put_members Policy.serialize members l ser.
Proof. reflexivity. Qed.

Lemma deserialize_Resizable (E : type) (l : list value) (des : D.t) :
  Policy.deserialize (Resizable E) (VSeq l) des =
  ('(size, des1) <- D.take size_t (bitsize (sizeof size_t)) des ;;
   '(l', des') <- get_each (Policy.deserialize E) (resize (Z.to_nat size) E l) des1 ;;
   Ok (VSeq l', des')).
Proof. reflexivity. Qed.

Lemma deserialize_FixedArity (n : nat) (E : type) (l : list value) (des : D.t) :
  Policy.deserialize (FixedArity n E) (VSeq l) des =
  if negb (length l =? n)%nat then Err ill_typed
  else '(l', des') <- get_each (Policy.deserialize E) l des ;; Ok (VSeq l', des').
Proof. reflexivity. Qed.

Lemma deserialize_Composite (members : list type) (l : list value) (des : D.t) :
  Policy.deserialize (Composite members) (VSeq l) des =
  ('(l', des') <- get_members Policy.deserialize members l des ;; Ok (VSeq l', des')).
Proof. reflexivity. Qed.

Lemma has_type_Composite (members : list type) (l : list value) :
  has_type (Composite members) (VSeq l) = has_types members l.
Proof. reflexivity. Qed.

Lemma fits_Composite (members : list type) (l : list value) :
  fits (Composite members) (VSeq l) = fits_members members l.
Proof. reflexivity. Qed.

Lemma wire_Composite (o : ByteOrder) (members : list type) (l : list value) :
  wire o (Composite members) (VSeq l) = wire_members o members l.
Proof. reflexivity. Qed.

Lemma supported_itype_sizeof (U : itype) :
  supported_itype U = true ->
  sizeof U = 1 \/ sizeof U = 2 \/ sizeof U = 4 \/ sizeof U = 8.
Proof. unfold supported_itype. destruct (kind U); lia. Qed.

Lemma supported_itype_give (U : itype) :
  supported_itype U = true ->
  1 <= bitsize (sizeof U) <= bitsize (sizeof U) /\ sizeof U <= sizeof_size_t
  /\ bitsize (sizeof U) <= word_bits.
Proof.
  intros H. apply supported_itype_sizeof in H.
  unfold bitsize, CHAR_BIT, sizeof_size_t, word_bits. lia.
Qed.

Lemma supported_Floating (w : Z) :
  supported (Floating w) = true ->
  supported_itype (floating_width_equivalent w) = true
  /\ bitsize (sizeof (floating_width_equivalent w)) = w.
Proof.
  cbn [supported]. intros H.
  assert (Hw : w = 16 \/ w = 32 \/ w = 64) by lia.
  destruct Hw as [->|[->| ->]]; split; reflexivity.
Qed.


Lemma enc_each (E : type) :
  encodes E ->
  forall l s, forallb (has_type E) l = true -> ser_ok s ->
  exists s',
    put_each (Policy.serialize E) l s = Ok s' /\ ser_ok s'
    /\ S.byteOrder_ s' = S.byteOrder_ s
    /\ enc_bits s' = enc_bits s ++ flat_map (wire (S.byteOrder_ s) E) l.
Proof.
  intros HE. induction l as [|x l IH]; intros s Hl Hok.
  - exists s. cbn. rewrite app_nil_r. auto.
  - cbn [forallb] in Hl. apply andb_prop in Hl. destruct Hl as [Hx Hl].
    destruct (HE x s Hx Hok) as [s1 [H1 [Hok1 [Ho1 Hb1]]]].
    destruct (IH s1 Hl Hok1) as [s' [H2 [Hok2 [Ho2 Hb2]]]].
    exists s'. cbn [put_each flat_map]. rewrite H1. cbn [bind].
    split; [exact H2 | split; [assumption | split; [congruence|]]].
    rewrite Hb2, Hb1, Ho1, <- app_assoc. reflexivity.
Qed.

Lemma enc_members (members : list type) :
  Forall (fun M => supported M = true -> encodes M) members ->
  forallb supported members = true ->
  forall l s, has_types members l = true -> ser_ok s ->
  exists s',
    put_members Policy.serialize members l s = Ok s' /\ ser_ok s'
    /\ S.byteOrder_ s' = S.byteOrder_ s
    /\ enc_bits s' = enc_bits s ++ wire_members (S.byteOrder_ s) members l.
Proof.
  induction 1 as [|M members HM _ IH]; intros Hsup l s Hl Hok.
  - destruct l; [|discriminate]. exists s. cbn. rewrite app_nil_r. auto.
  - destruct l as [|x l]; [discriminate|].
    cbn [forallb] in Hsup. apply andb_prop in Hsup. destruct Hsup as [HsM Hsup].
    cbn [has_types] in Hl. apply andb_prop in Hl. destruct Hl as [Hx Hl].
    destruct (HM HsM x s Hx Hok) as [s1 [H1 [Hok1 [Ho1 Hb1]]]].
    destruct (IH Hsup l s1 Hl Hok1) as [s' [H2 [Hok2 [Ho2 Hb2]]]].
    exists s'. cbn [put_members wire_members]. rewrite H1. cbn [bind].
    split; [exact H2 | split; [assumption | split; [congruence|]]].
    rewrite Hb2, Hb1, Ho1, <- app_assoc. reflexivity.
Qed.

Lemma enc_policy (T : type) : supported T = true -> encodes T.
Proof.
  induction T as [U|U|w|E IH|n E IH|members IH|U W|W] using type_nested_ind;
    intros Hsup v s Hv Hok.
  - destruct v as [z| |]; try discriminate.
    destruct (supported_itype_give U Hsup) as [H1 [H2 _]].
    exact (enc_give U z _ s H1 H2 Hok).
  - destruct v as [z| |]; try discriminate.
    destruct (supported_itype_give U Hsup) as [H1 [H2 _]].
    exact (enc_give U z _ s H1 H2 Hok).
  - destruct v as [z| |]; try discriminate.
    destruct (supported_Floating w Hsup) as [HU Hw].
    destruct (supported_itype_give _ HU) as [H1 [H2 _]].
    cbn [Policy.serialize wire].
    replace (val_bits (S.byteOrder_ s) w z)
      with (val_bits (S.byteOrder_ s)
              (bitsize (sizeof (floating_width_equivalent w))) z)
      by (rewrite Hw; reflexivity).
    exact (enc_give _ z _ s H1 H2 Hok).
  - destruct v as [|l|]; try discriminate.
    cbn [has_type] in Hv. apply andb_prop in Hv. destruct Hv as [Hlen Hl].
    rewrite serialize_Resizable.
    assert (Hsz : supported_itype size_t = true) by reflexivity.
    destruct (supported_itype_give _ Hsz) as [H1 [H2 _]].
    destruct (enc_give size_t (Z.of_nat (length l)) _ s H1 H2 Hok)
      as [s1 [Hg [Hok1 [Ho1 Hb1]]]].
    destruct (enc_each E (IH Hsup) l s1 Hl Hok1) as [s' [He [Hok2 [Ho2 Hb2]]]].
    exists s'. rewrite Hg. cbn [bind].
    split; [exact He | split; [assumption | split; [congruence|]]].
    rewrite Hb2, Hb1, Ho1, <- app_assoc. reflexivity.
  - destruct v as [|l|]; try discriminate.
    cbn [has_type] in Hv. apply andb_prop in Hv. destruct Hv as [Hlen Hl].
    rewrite serialize_FixedArity, Hlen. cbn [negb].
    exact (enc_each E (IH Hsup) l s Hl Hok).
  - destruct v as [|l|]; try discriminate.
    rewrite serialize_Composite, wire_Composite.
    rewrite has_type_Composite in Hv.
    apply enc_members; try assumption.
    cbn [supported] in Hsup. destruct members; [discriminate | exact Hsup].
  - destruct v as [z| |]; try discriminate.
    cbn [supported] in Hsup.
    apply andb_prop in Hsup. destruct Hsup as [Hsup HW2].
    apply andb_prop in Hsup. destruct Hsup as [HU HW1].
    destruct (supported_itype_give U HU) as [_ [H2 _]].
    cbn [Policy.serialize wire]. apply enc_give; [lia | assumption | assumption].
  - destruct v as [| |]; try discriminate.
    cbn [supported] in Hsup.
    cbn [Policy.serialize wire]. apply enc_give; try assumption.
    + change (bitsize (sizeof size_t)) with word_bits. lia.
    + reflexivity.
Qed.

(** [take] over a stream that starts with [W] bits of [z]: the result is
    their value, or'ed with the sign mask when [T] is signed, and cast. *)
Lemma dec_take (T : itype) (W z : Z) (rest : list bool) (d : D.t) :
  1 <= W <= bitsize (sizeof T) -> sizeof T <= sizeof_size_t ->
  des_ok d -> dec_bits d = val_bits (D.byteOrder_ d) W z ++ rest ->
  exists d',
    D.take T W d =
      Ok (static_cast T
            (if is_signed T
             then Z.lor (z mod 2 ^ W) (sign_mask (D.byteOrder_ d) W)
             else z mod 2 ^ W), d')
    /\ des_ok d' /\ D.byteOrder_ d' = D.byteOrder_ d /\ dec_bits d' = rest.
Proof.
  intros HW HT Hok Hbits. unfold D.take.
  destruct (W >? bitsize (sizeof T)) eqn:E1; [lia|].
  destruct (sizeof T >? sizeof_size_t) eqn:E2; [lia|].
  destruct (W =? 0) eqn:E3; [lia|].
  assert (Hw : 0 <= W <= word_bits)
    by (unfold bitsize, CHAR_BIT, sizeof_size_t, word_bits in *; lia).
  pose proof (val_bits_length (D.byteOrder_ d) W z) as Hlen.
  assert (HL : Z.of_nat (length (val_bits (D.byteOrder_ d) W z)) = W)
    by (rewrite Hlen; lia).
  destruct (dec_impl (val_bits (D.byteOrder_ d) W z) rest (is_signed T) d)
    as [d' [Hi Hrest]]; [lia | assumption | assumption |].
  rewrite HL in Hi. exists d'. rewrite Hi. cbn [bind]. cbv zeta.
  rewrite dec_value_val_bits by assumption.
  split; [reflexivity | exact Hrest].
Qed.

(** *** Casts that restore the value *)

Lemma cast_unsigned (T : itype) (W z : Z) :
  is_signed T = false -> in_range T z = true -> 0 <= W -> z < 2 ^ W ->
  static_cast T (z mod 2 ^ W) = z.
Proof.
  unfold is_signed, in_range, static_cast. intros Hs Hr HW Hz.
  destruct (kind T); try discriminate.
  - assert (H01 : z = 0 \/ z = 1) by lia.
    rewrite Z.mod_small by lia. destruct H01 as [->| ->]; reflexivity.
  - rewrite (Z.mod_small z (2 ^ W)) by lia. apply Z.mod_small. lia.
Qed.

Lemma sign_mask_low_bits (o : ByteOrder) (W j : Z) :
  0 <= W <= word_bits -> (o = MsbFirst \/ 2 * W <= word_bits) ->
  0 <= j < W -> Z.testbit (sign_mask o W) j = false.
Proof.
  intros HW Ho Hj. unfold sign_mask. destruct o.
  - replace (2 ^ word_bits - 2 ^ W) with ((2 ^ (word_bits - W) - 1) * 2 ^ W).
    + apply Z.mul_pow2_bits_low. lia.
    + rewrite Z.mul_sub_distr_r, <- Z.pow_add_r by lia.
      replace (word_bits - W + W) with word_bits by lia. lia.
  - destruct Ho as [Ho|Ho]; [discriminate|].
    replace (2 ^ word_bits - 2 ^ (word_bits - W))
      with ((2 ^ W - 1) * 2 ^ (word_bits - W)).
    + apply Z.mul_pow2_bits_low. lia.
    + rewrite Z.mul_sub_distr_r, <- Z.pow_add_r by lia.
      replace (W + (word_bits - W)) with word_bits by lia. lia.
Qed.

Lemma lor_sign_mask_mod (o : ByteOrder) (W v : Z) :
  0 <= W <= word_bits -> (o = MsbFirst \/ 2 * W <= word_bits) ->
  Z.lor (v mod 2 ^ W) (sign_mask o W) mod 2 ^ W = v mod 2 ^ W.
Proof.
  intros HW Ho. apply Z.bits_inj'. intros j Hj.
  rewrite !Z.testbit_mod_pow2 by lia. rewrite Z.lor_spec.
  rewrite Z.testbit_mod_pow2 by lia.
  destruct (Z.ltb_spec j W) as [Hlt|Hge]; cbn [andb]; [|reflexivity].
  rewrite sign_mask_low_bits by (try assumption; lia).
  apply orb_false_r.
Qed.

Lemma cast_signed (o : ByteOrder) (T : itype) (z : Z) :
  kind T = KSigned -> supported_itype T = true -> exact_itype o T = true ->
  in_range T z = true ->
  static_cast T
    (Z.lor (z mod 2 ^ bitsize (sizeof T)) (sign_mask o (bitsize (sizeof T)))) = z.
Proof.
  intros Hk Hsup Hex Hr.
  pose proof (supported_itype_sizeof T Hsup) as Hsz.
  unfold static_cast, in_range, exact_itype, is_signed in *. rewrite Hk in *.
  cbv zeta. set (W := bitsize (sizeof T)) in *.
  assert (HW : 1 <= W <= word_bits)
    by (subst W; unfold bitsize, CHAR_BIT, word_bits; lia).
  assert (Ho : o = MsbFirst \/ 2 * W <= word_bits).
  { cbn [negb orb] in Hex. destruct o; [left; reflexivity|right].
    cbn [ByteOrder_eqb] in Hex. rewrite orb_false_r in Hex.
    subst W. unfold bitsize, CHAR_BIT, word_bits, sizeof_size_t in *. lia. }
  assert (Hp : 2 ^ W = 2 * 2 ^ (W - 1)).
  { replace W with (Z.succ (W - 1)) at 1 by lia. apply Z.pow_succ_r. lia. }
  assert (Hpos : 0 < 2 ^ (W - 1)) by (apply Z.pow_pos_nonneg; lia).
  rewrite <- Z.add_mod_idemp_l by lia.
  rewrite lor_sign_mask_mod by (try assumption; lia).
  rewrite Z.add_mod_idemp_l by lia.
  rewrite Z.mod_small by lia. lia.
Qed.

Lemma cast_integral (o : ByteOrder) (T : itype) (z : Z) :
  supported_itype T = true -> exact_itype o T = true -> in_range T z = true ->
  static_cast T
    (if is_signed T
     then Z.lor (z mod 2 ^ bitsize (sizeof T)) (sign_mask o (bitsize (sizeof T)))
     else z mod 2 ^ bitsize (sizeof T)) = z.
Proof.
  intros Hsup Hex Hr. destruct (is_signed T) eqn:Hs.
  - apply cast_signed; try assumption.
    unfold is_signed in Hs. destruct (kind T); try discriminate; reflexivity.
  - pose proof (supported_itype_sizeof T Hsup) as Hsz.
    apply cast_unsigned; try assumption.
    + unfold bitsize, CHAR_BIT. lia.
    + unfold in_range, is_signed, supported_itype in *.
      destruct (kind T); try discriminate.
      * assert (sizeof T = 1) by lia.
        replace (bitsize (sizeof T)) with 8
          by (unfold bitsize, CHAR_BIT; lia). lia.
      * lia.
Qed.

(** *** Value initialisation and [resize] *)

Lemma in_range_0 (U : itype) : supported_itype U = true -> in_range U 0 = true.
Proof.
  intros H. pose proof (supported_itype_sizeof U H) as Hsz.
  unfold in_range. destruct (kind U); [reflexivity| |].
  - assert (0 < 2 ^ (bitsize (sizeof U) - 1))
      by (apply Z.pow_pos_nonneg; unfold bitsize, CHAR_BIT; lia). lia.
  - assert (0 < 2 ^ bitsize (sizeof U))
      by (apply Z.pow_pos_nonneg; unfold bitsize, CHAR_BIT; lia). lia.
Qed.

Lemma forallb_repeat {A : Type} (f : A -> bool) (x : A) (n : nat) :
  f x = true -> forallb f (repeat x n) = true.
Proof. intros H. induction n; cbn; rewrite ?H; auto. Qed.

Lemma value_init_has_type (T : type) :
  supported T = true -> has_type T (value_init T) = true.
Proof.
  induction T as [U|U|w|E IH|n E IH|members IH|U W|W] using type_nested_ind;
    intros Hsup; cbn [supported value_init has_type] in *.
  - apply in_range_0, Hsup.
  - apply in_range_0, Hsup.
  - assert (0 < 2 ^ w) by (apply Z.pow_pos_nonneg; lia). lia.
  - reflexivity.
  - rewrite repeat_length, Nat.eqb_refl. cbn [andb].
    apply forallb_repeat, IH, Hsup.
  - change (has_types members (map value_init members) = true).
    assert (Hall : forallb supported members = true)
      by (destruct members; [discriminate | exact Hsup]).
    clear Hsup. induction IH as [|M members HM _ IHm]; [reflexivity|].
    cbn [forallb] in Hall. apply andb_prop in Hall. destruct Hall as [H1 H2].
    cbn [map has_types]. rewrite (HM H1), (IHm H2). reflexivity.
  - apply in_range_0.
    apply andb_prop in Hsup. destruct Hsup as [Hsup _].
    apply andb_prop in Hsup. destruct Hsup as [Hsup _]. exact Hsup.
  - reflexivity.
Qed.

Lemma resize_length (n : nat) (E : type) (l : list value) :
  length (resize n E l) = n.
Proof.
  unfold resize. rewrite length_app, length_firstn, repeat_length. lia.
Qed.

Lemma forallb_firstn {A : Type} (f : A -> bool) (n : nat) (l : list A) :
  forallb f l = true -> forallb f (firstn n l) = true.
Proof.
  revert n. induction l as [|x l IH]; intros [|n] H; cbn in *; auto.
  apply andb_prop in H. destruct H as [Hx Hl]. rewrite Hx, (IH n Hl). reflexivity.
Qed.

Lemma resize_has_type (n : nat) (E : type) (l : list value) :
  supported E = true -> forallb (has_type E) l = true ->
  forallb (has_type E) (resize n E l) = true.
Proof.
  intros Hsup Hl. unfold resize. rewrite forallb_app.
  rewrite forallb_firstn by assumption.
  rewrite forallb_repeat by (apply value_init_has_type, Hsup). reflexivity.
Qed.

Lemma cast_size_t (n : Z) :
  0 <= n < 2 ^ word_bits ->
  static_cast size_t
    (if is_signed size_t
     then Z.lor (n mod 2 ^ bitsize (sizeof size_t))
            (sign_mask MsbFirst (bitsize (sizeof size_t)))
     else n mod 2 ^ bitsize (sizeof size_t)) = n.
Proof.
  intros Hn. change (is_signed size_t) with false. cbv iota.
  change (bitsize (sizeof size_t)) with word_bits.
  unfold static_cast. cbn [kind size_t].
  change (bitsize (sizeof size_t)) with word_bits.
  rewrite (Z.mod_small n) by exact Hn. apply Z.mod_small. exact Hn.
Qed.


Lemma dec_each (o : ByteOrder) (E : type) :
  decodes o E ->
  forall l tl d rest,
    forallb (has_type E) l = true -> forallb (fits E) l = true ->
    forallb (has_type E) tl = true -> length tl = length l ->
    des_ok d -> D.byteOrder_ d = o ->
    dec_bits d = flat_map (wire o E) l ++ rest ->
    exists d',
      get_each (Policy.deserialize E) tl d = Ok (l, d') /\ des_ok d'
      /\ D.byteOrder_ d' = o /\ dec_bits d' = rest.
Proof.
  intros HE. induction l as [|x l IH]; intros tl d rest Hl Hf Htl Hlen Hok Ho Hb.
  - destruct tl; [|discriminate]. exists d. cbn in *. auto.
  - destruct tl as [|t tl]; [discriminate|].
    cbn [forallb] in *.
    apply andb_prop in Hl. destruct Hl as [Hx Hl].
    apply andb_prop in Hf. destruct Hf as [Hfx Hf].
    apply andb_prop in Htl. destruct Htl as [Ht Htl].
    cbn [flat_map] in Hb. rewrite <- app_assoc in Hb.
    destruct (HE x t d _ Hx Hfx Ht Hok Ho Hb) as [d1 [H1 [Hok1 [Ho1 Hb1]]]].
    cbn [length] in Hlen. injection Hlen as Hlen.
    destruct (IH tl d1 rest Hl Hf Htl Hlen Hok1 Ho1 Hb1)
      as [d' [H2 [Hok2 [Ho2 Hb2]]]].
    exists d'. cbn [get_each]. rewrite H1. cbn [bind]. rewrite H2. cbn [bind].
    auto.
Qed.

Lemma dec_members (o : ByteOrder) (members : list type) :
  Forall (fun M => supported M = true -> exact_type o M = true -> decodes o M)
    members ->
  forallb supported members = true -> forallb (exact_type o) members = true ->
  forall l tl d rest,
    has_types members l = true -> fits_members members l = true ->
    has_types members tl = true ->
    des_ok d -> D.byteOrder_ d = o ->
    dec_bits d = wire_members o members l ++ rest ->
    exists d',
      get_members Policy.deserialize members tl d = Ok (l, d') /\ des_ok d'
      /\ D.byteOrder_ d' = o /\ dec_bits d' = rest.
Proof.
  induction 1 as [|M members HM _ IH]; intros Hsup Hex l tl d rest Hl Hf Htl Hok Ho Hb.
  - destruct l; [|discriminate]. destruct tl; [|discriminate].
    exists d. cbn in *. auto.
  - destruct l as [|x l]; [discriminate|]. destruct tl as [|t tl]; [discriminate|].
    cbn [forallb has_types fits_members] in *.
    apply andb_prop in Hsup. destruct Hsup as [HsM Hsup].
    apply andb_prop in Hex. destruct Hex as [HeM Hex].
    apply andb_prop in Hl. destruct Hl as [Hx Hl].
    apply andb_prop in Hf. destruct Hf as [Hfx Hf].
    apply andb_prop in Htl. destruct Htl as [Ht Htl].
    cbn [wire_members] in Hb. rewrite <- app_assoc in Hb.
    destruct (HM HsM HeM x t d _ Hx Hfx Ht Hok Ho Hb) as [d1 [H1 [Hok1 [Ho1 Hb1]]]].
    destruct (IH Hsup Hex l tl d1 rest Hl Hf Htl Hok1 Ho1 Hb1)
      as [d' [H2 [Hok2 [Ho2 Hb2]]]].
    exists d'. cbn [get_members]. rewrite H1. cbn [bind]. rewrite H2. cbn [bind].
    auto.
Qed.

Lemma dec_policy (o : ByteOrder) (T : type) :
  supported T = true -> exact_type o T = true -> decodes o T.
Proof.
  induction T as [U|U|w|E IH|n E IH|members IH|U W|W] using type_nested_ind;
    intros Hsup Hex v t d rest Hv Hf Ht Hok Ho Hb.
  - destruct v as [z| |]; try discriminate. destruct t as [z0| |]; try discriminate.
    cbn [supported exact_type has_type wire Policy.deserialize] in *.
    destruct (supported_itype_give U Hsup) as [H1 [H2 _]].
    rewrite <- Ho in Hb.
    destruct (dec_take U _ z rest d H1 H2 Hok Hb) as [d' [Hd [Hok' [Ho' Hb']]]].
    exists d'. rewrite Hd. cbn [bind].
    rewrite cast_integral by (try assumption; rewrite Ho; assumption).
    split; [reflexivity | split; [assumption | split; [congruence | assumption]]].
  - destruct v as [z| |]; try discriminate. destruct t as [z0| |]; try discriminate.
    cbn [supported exact_type has_type wire Policy.deserialize] in *.
    destruct (supported_itype_give U Hsup) as [H1 [H2 _]].
    rewrite <- Ho in Hb.
    destruct (dec_take U _ z rest d H1 H2 Hok Hb) as [d' [Hd [Hok' [Ho' Hb']]]].
    exists d'. rewrite Hd. cbn [bind].
    rewrite cast_integral by (try assumption; rewrite Ho; assumption).
    split; [reflexivity | split; [assumption | split; [congruence | assumption]]].
  - destruct v as [z| |]; try discriminate. destruct t as [z0| |]; try discriminate.
    destruct (supported_Floating w Hsup) as [HU Hw].
    destruct (supported_itype_give _ HU) as [H1 [H2 _]].
    cbn [has_type wire Policy.deserialize] in *.
    rewrite <- Ho, <- Hw in Hb.
    destruct (dec_take _ _ z rest d H1 H2 Hok Hb) as [d' [Hd [Hok' [Ho' Hb']]]].
    exists d'. rewrite Hd. cbn [bind].
    change (is_signed (floating_width_equivalent w)) with false. cbv iota.
    rewrite cast_unsigned.
    + split; [reflexivity | split; [assumption | split; [congruence | assumption]]].
    + reflexivity.
    + unfold in_range. cbn [kind floating_width_equivalent].
      change (sizeof {| kind := KUnsigned; sizeof := w / CHAR_BIT |})
        with (sizeof (floating_width_equivalent w)).
      rewrite Hw. exact Hv.
    + rewrite Hw. lia.
    + rewrite Hw. lia.
  - destruct v as [|l|]; try discriminate. destruct t as [|tl|]; try discriminate.
    cbn [supported exact_type has_type fits wire] in *.
    apply andb_prop in Hv. destruct Hv as [Hlen Hl].
    apply andb_prop in Ht. destruct Ht as [_ Htl].
    rewrite deserialize_Resizable.
    assert (Hsz : supported_itype size_t = true) by reflexivity.
    destruct (supported_itype_give _ Hsz) as [H1 [H2 _]].
    rewrite <- app_assoc in Hb. rewrite <- Ho in Hb at 1.
    change word_bits with (bitsize (sizeof size_t)) in Hb at 1.
    destruct (dec_take size_t _ _ _ d H1 H2 Hok Hb) as [d1 [Hd [Hok1 [Ho1 Hb1]]]].
    rewrite Hd. cbn [bind]. change (is_signed size_t) with false. cbv iota.
    pose proof (cast_size_t (Z.of_nat (length l))) as Hc.
    change (is_signed size_t) with false in Hc. cbv iota in Hc.
    rewrite Hc by lia. clear Hc.
    rewrite Nat2Z.id.
    destruct (dec_each o E (IH Hsup Hex) l (resize (length l) E tl) d1 rest)
      as [d' [He [Hok' [Ho' Hb']]]];
      try assumption.
    + apply resize_has_type; assumption.
    + apply resize_length.
    + congruence.
    + exists d'. rewrite He. cbn [bind]. auto.
  - destruct v as [|l|]; try discriminate. destruct t as [|tl|]; try discriminate.
    cbn [supported exact_type has_type fits wire] in *.
    apply andb_prop in Hv. destruct Hv as [Hlen Hl].
    apply andb_prop in Ht. destruct Ht as [Htlen Htl].
    rewrite deserialize_FixedArity, Htlen. cbn [negb].
    apply Nat.eqb_eq in Hlen, Htlen.
    destruct (dec_each o E (IH Hsup Hex) l tl d rest)
      as [d' [He [Hok' [Ho' Hb']]]]; try assumption; [congruence|].
    exists d'. rewrite He. cbn [bind]. auto.
  - destruct v as [|l|]; try discriminate. destruct t as [|tl|]; try discriminate.
    rewrite has_type_Composite in Hv, Ht. rewrite fits_Composite in Hf.
    rewrite wire_Composite in Hb. rewrite deserialize_Composite.
    cbn [supported exact_type] in Hsup, Hex.
    assert (Hall : forallb supported members = true)
      by (destruct members; [discriminate | exact Hsup]).
    destruct (dec_members o members IH Hall Hex l tl d rest)
      as [d' [He [Hok' [Ho' Hb']]]]; try assumption.
    exists d'. rewrite He. cbn [bind]. auto.
  - destruct v as [z| |]; try discriminate. destruct t as [z0| |]; try discriminate.
    cbn [supported exact_type has_type fits wire Policy.deserialize] in *.
    apply andb_prop in Hsup. destruct Hsup as [Hsup HW2].
    apply andb_prop in Hsup. destruct Hsup as [HU HW1].
    destruct (supported_itype_give U HU) as [_ [H2 _]].
    rewrite <- Ho in Hb.
    destruct (dec_take U W z rest d) as [d' [Hd [Hok' [Ho' Hb']]]];
      try assumption; [lia|].
    exists d'. rewrite Hd. cbn [bind].
    apply negb_true_iff in Hex. rewrite Hex.
    rewrite cast_unsigned by (try assumption; lia).
    split; [reflexivity | split; [assumption | split; [congruence | assumption]]].
  - destruct v as [| |]; try discriminate. destruct t as [| |]; try discriminate.
    cbn [supported wire Policy.deserialize] in *.
    rewrite <- Ho in Hb.
    destruct (dec_take size_t W 0 rest d) as [d' [Hd [Hok' [Ho' Hb']]]];
      try assumption.
    + change (bitsize (sizeof size_t)) with word_bits. lia.
    + reflexivity.
    + exists d'. rewrite Hd. cbn [bind].
      split; [reflexivity | split; [assumption | split; [congruence | assumption]]].
Qed.

(** ** Round trip *)

Lemma ser_ok_init (o : ByteOrder) : ser_ok (S.init o).
Proof. destruct o; split; reflexivity. Qed.

Lemma serialize_wire (T : type) (v : value) (o : ByteOrder) :
  supported T = true -> has_type T v = true ->
  exists ser,
    Policy.serialize T v (S.init o) = Ok ser /\ ser_ok ser
    /\ S.byteOrder_ ser = o /\ enc_bits ser = wire o T v.
Proof.
  intros Hsup Hv.
  destruct (enc_policy T Hsup v (S.init o) Hv (ser_ok_init o))
    as [ser [Hs [Hok [Ho Hb]]]].
  exists ser. auto.
Qed.

(** Decoding the bytes of an encoding that ends on a byte boundary, into any
    object of the type. *)
Lemma roundtrip_into (T : type) (v t : value) (o : ByteOrder) :
  supported T = true -> exact_type o T = true ->
  has_type T v = true -> fits T v = true -> has_type T t = true ->
  ends_on_byte_boundary T v o = true ->
  exists data,
    serialize T v o = Ok data /\ deserialize_into T t data o = Ok v.
Proof.
  intros Hsup Hex Hv Hf Ht Hend.
  destruct (serialize_wire T v o Hsup Hv) as [ser [Hs [[Hacc Hbytes] [Ho Hb]]]].
  unfold ends_on_byte_boundary in Hend. rewrite Hs in Hend.
  apply Z.eqb_eq in Hend.
  exists (S.bytes ser). unfold serialize. rewrite Hs. cbn [bind].
  rewrite (flush_empty ser Hend). split; [reflexivity|].
  unfold enc_bits in Hb. rewrite Hend, Ho in Hb.
  change (pending o 0 (S.byte_ ser)) with (@nil bool) in Hb.
  rewrite app_nil_r in Hb.
  assert (Hd : des_ok (D.init (S.bytes ser) o)) by (split; [reflexivity | exact Hbytes]).
  assert (Hbits : dec_bits (D.init (S.bytes ser) o) = wire o T v ++ []).
  { unfold dec_bits. cbn [D.init D.byteOrder_ D.bitsLeft_ D.byte_ D.input].
    rewrite remaining_nil, app_nil_r. exact Hb. }
  destruct (dec_policy o T Hsup Hex v t _ [] Hv Hf Ht Hd eq_refl Hbits)
    as [d' [Hdes _]].
  unfold deserialize_into. rewrite Hdes. reflexivity.
Qed.

(** C1, as amended.  For a supported type without word-wide signed integers
    under [LsbFirst] and without bit-fields over signed types, a value whose
    bit-fields hold values representable in their widths, and an encoding
    that is a whole number of bytes, [deserialize<T>(serialize(v, order),
    order)] is [v]. *)
Theorem roundtrip_on_byte_boundary (T : type) (v : value) (o : ByteOrder) :
  supported T = true -> exact_type o T = true ->
  has_type T v = true -> fits T v = true ->
  ends_on_byte_boundary T v o = true ->
  exists data, serialize T v o = Ok data /\ deserialize T data o = Ok v.
Proof.
  intros Hsup Hex Hv Hf Hend. unfold deserialize.
  apply roundtrip_into; try assumption.
  apply value_init_has_type, Hsup.
Qed.

Lemma roundtrip_on_byte_boundary_witness :
  exists data,
    serialize (Composite [Flags; Resizable (Integral int16_t); Floating 32])
      (VSeq [VSeq [VSpare; VInt 1; VInt 2]; VSeq [VInt (-5); VInt 300];
             VInt 0xBFA00000]) LsbFirst = Ok data
    /\ deserialize (Composite [Flags; Resizable (Integral int16_t); Floating 32])
         data LsbFirst
       = Ok (VSeq [VSeq [VSpare; VInt 1; VInt 2]; VSeq [VInt (-5); VInt 300];
                   VInt 0xBFA00000]).
Proof.
  apply (roundtrip_on_byte_boundary
           (Composite [Flags; Resizable (Integral int16_t); Floating 32])
           (VSeq [VSeq [VSpare; VInt 1; VInt 2]; VSeq [VInt (-5); VInt 300];
                  VInt 0xBFA00000]) LsbFirst);
    vm_compute; reflexivity.
Defined.

(** C1 as stated fails where a bit-field holds more than its width: the
    policy of [Bits<uint8_t, 2>] transfers the two low bits of the value 7,
    and 3 is read back. *)
Lemma roundtrip_truncates_bit_field :
  supported Flags = true
  /\ has_type Flags (VSeq [VSpare; VInt 7; VInt 2]) = true
  /\ serialize Flags (VSeq [VSpare; VInt 7; VInt 2]) MsbFirst = Ok [0x0E]
  /\ deserialize Flags [0x0E] MsbFirst = Ok (VSeq [VSpare; VInt 3; VInt 2])
  /\ serialize Flags (VSeq [VSpare; VInt 7; VInt 2]) LsbFirst = Ok [0xB0]
  /\ deserialize Flags [0xB0] LsbFirst = Ok (VSeq [VSpare; VInt 3; VInt 2])
  /\ VSeq [VSpare; VInt 3; VInt 2] <> VSeq [VSpare; VInt 7; VInt 2].
Proof. repeat split; try (vm_compute; reflexivity). discriminate. Qed.

(** ** The policy of resizable containers *)

Lemma put_each_app (put : value -> S.t -> result S.t) (l1 l2 : list value) (ser : S.t) :
  put_each put (l1 ++ l2) ser = (ser1 <- put_each put l1 ser ;; put_each put l2 ser1).
Proof.
  revert ser. induction l1 as [|x l1 IH]; intros ser; [reflexivity|].
  cbn [app put_each]. destruct (put x ser) as [ser'|e]; cbn [bind]; auto.
Qed.

Lemma get_each_app (get : value -> D.t -> result (value * D.t))
  (l1 l2 : list value) (des : D.t) :
  get_each get (l1 ++ l2) des =
  ('(l1', des1) <- get_each get l1 des ;;
   '(l2', des2) <- get_each get l2 des1 ;;
   Ok (l1' ++ l2', des2)).
Proof.
  revert des. induction l1 as [|x l1 IH]; intros des.
  - cbn [app get_each bind].
    destruct (get_each get l2 des) as [[l2' d2]|e]; reflexivity.
  - cbn [app get_each]. destruct (get x des) as [[x' d1]|e]; cbn [bind]; auto.
    rewrite IH. destruct (get_each get l1 d1) as [[l1' d1']|e]; cbn [bind]; auto.
    destruct (get_each get l2 d1') as [[l2' d2]|e]; reflexivity.
Qed.

Lemma get_each_length (get : value -> D.t -> result (value * D.t))
  (l : list value) : forall (des : D.t) (l' : list value) (des' : D.t),
  get_each get l des = Ok (l', des') -> length l' = length l.
Proof.
  induction l as [|x l IH]; intros des l' des'; cbn [get_each].
  - intros [= <- _]. reflexivity.
  - destruct (get x des) as [[x' d1]|e]; cbn [bind]; [|discriminate].
    destruct (get_each get l d1) as [[l'' d2]|e] eqn:He; cbn [bind]; [|discriminate].
    intros [= <- _]. cbn [length]. f_equal. eapply IH, He.
Qed.

(** C7. The policy of a resizable container encodes the element count
    through the policy of [size_t] (the full platform word) and then every
    element in order through the policy of the element type, so that the
    stream receives the bits of the count followed by the encodings of the
    elements; decoding reads the count through the policy of [size_t],
    resizes the object to exactly that many elements and decodes each
    element of the resized object in place, in order. *)
Theorem resizable_policy (E : type) (c t : list value) (ser : S.t) (des : D.t) :
  Policy.serialize (Resizable E) (VSeq c) ser =
    (ser1 <- Policy.serialize (Integral size_t)
               (VInt (Z.of_nat (length c))) ser ;;
     put_each (Policy.serialize E) c ser1)
  /\ (supported E = true -> has_type (Resizable E) (VSeq c) = true ->
      ser_ok ser ->
      exists ser',
        Policy.serialize (Resizable E) (VSeq c) ser = Ok ser'
        /\ enc_bits ser' =
             enc_bits ser
             ++ val_bits (S.byteOrder_ ser) word_bits (Z.of_nat (length c))
             ++ flat_map (wire (S.byteOrder_ ser) E) c)
  /\ Policy.deserialize (Resizable E) (VSeq t) des =
       ('(size, des1) <- Policy.deserialize (Integral size_t) (VInt 0) des ;;
        match size with
        | VInt n =>
            '(c', des') <- get_each (Policy.deserialize E)
                             (resize (Z.to_nat n) E t) des1 ;;
            Ok (VSeq c', des')
        | _ => Err ill_typed
        end)
  /\ (forall v des',
      Policy.deserialize (Resizable E) (VSeq t) des = Ok (v, des') ->
      exists n des1 c',
        D.take size_t word_bits des = Ok (n, des1)
        /\ length (resize (Z.to_nat n) E t) = Z.to_nat n
        /\ get_each (Policy.deserialize E) (resize (Z.to_nat n) E t) des1
           = Ok (c', des')
        /\ v = VSeq c' /\ length c' = Z.to_nat n).
Proof.
  split; [reflexivity|]. split; [|split].
  - intros Hsup Hc Hok.
    assert (Hs : supported (Resizable E) = true) by exact Hsup.
    destruct (enc_policy (Resizable E) Hs (VSeq c) ser Hc Hok)
      as [ser' [H1 [_ [_ H2]]]].
    exists ser'. split; [exact H1|]. exact H2.
  - rewrite deserialize_Resizable. cbn [Policy.deserialize].
    destruct (D.take size_t (bitsize (sizeof size_t)) des) as [[n d1]|e];
      reflexivity.
  - intros v des'. rewrite deserialize_Resizable.
    change (bitsize (sizeof size_t)) with word_bits.
    destruct (D.take size_t word_bits des) as [[n d1]|e]; cbn [bind];
      [|discriminate].
    destruct (get_each (Policy.deserialize E) (resize (Z.to_nat n) E t) d1)
      as [[c' d2]|e] eqn:He; cbn [bind]; [|discriminate].
    intros [= <- <-]. exists n, d1, c'.
    split; [reflexivity|]. split; [apply resize_length|].
    split; [exact He|]. split; [reflexivity|].
    rewrite (get_each_length _ _ _ _ _ He). apply resize_length.
Qed.

(** A container of three integers: the count 3 as a 64-bit word, then the
    three elements; decoding regrows an empty container, and shrinks a
    longer one, to three elements. *)
Example resizable_three :
  serialize (Resizable (Integral uint8_t)) (VSeq [VInt 1; VInt 2; VInt 3]) MsbFirst
    = Ok [0; 0; 0; 0; 0; 0; 0; 3; 1; 2; 3]
  /\ serialize (Resizable (Integral uint8_t)) (VSeq [VInt 1; VInt 2; VInt 3]) LsbFirst
    = Ok [3; 0; 0; 0; 0; 0; 0; 0; 1; 2; 3]
  /\ deserialize (Resizable (Integral uint8_t))
       [0; 0; 0; 0; 0; 0; 0; 3; 1; 2; 3] MsbFirst
     = Ok (VSeq [VInt 1; VInt 2; VInt 3])
  /\ deserialize_into (Resizable (Integral uint8_t))
       (VSeq [VInt 9; VInt 9; VInt 9; VInt 9; VInt 9])
       [0; 0; 0; 0; 0; 0; 0; 3; 1; 2; 3] MsbFirst
     = Ok (VSeq [VInt 1; VInt 2; VInt 3]).
Proof. repeat split; vm_compute; reflexivity. Qed.

(** ** Trailing input *)

(** Whatever the decoder does on an input it does on every extension of it,
    leaving the extension untouched. *)
Lemma step_extend (sfx : list Z) (data signMask : Z) (d : D.t) (x : Z * Z * D.t) :
  D.step data signMask d = Ok x ->
  D.step data signMask (extend sfx d) =
    Ok (let '(a, m, d') := x in (a, m, extend sfx d')).
Proof.
  unfold D.step, D.getByte, extend.
  destruct d as [o B r inp]. cbn [D.byteOrder_ D.byte_ D.bitsLeft_ D.input].
  destruct o, (r =? 0); try destruct inp as [|b inp];
    cbn [bind app D.byteOrder_ D.byte_ D.bitsLeft_ D.input];
    intros [= <-]; reflexivity.
Qed.

Lemma loop_extend (sfx : list Z) (n : nat) :
  forall (data signMask : Z) (d : D.t) (x : Z * Z * D.t),
  D.loop n data signMask d = Ok x ->
  D.loop n data signMask (extend sfx d) =
    Ok (let '(a, m, d') := x in (a, m, extend sfx d')).
Proof.
  induction n as [|n IH]; intros data signMask d x; cbn [D.loop].
  - intros [= <-]. reflexivity.
  - destruct (D.step data signMask d) as [[[a m] d1]|e] eqn:Hs; cbn [bind];
      [|discriminate].
    rewrite (step_extend sfx _ _ _ _ Hs). cbn [bind]. apply IH.
Qed.

Lemma impl_extend (sfx : list Z) (data bits : Z) (signExtend : bool)
  (d : D.t) (v : Z) (d' : D.t) :
  D.impl data bits signExtend d = Ok (v, d') ->
  D.impl data bits signExtend (extend sfx d) = Ok (v, extend sfx d').
Proof.
  unfold D.impl.
  destruct (D.loop (Z.to_nat bits) data (usize (-1)) d) as [[[a m] d1]|e] eqn:Hl;
    cbn [bind]; [|discriminate].
  rewrite (loop_extend sfx _ _ _ _ _ Hl). cbn [bind extend D.byteOrder_].
  destruct (D.byteOrder_ d); intros [= <- <-]; reflexivity.
Qed.

Lemma take_extend (sfx : list Z) (T : itype) (bits : Z) (d : D.t) (v : Z) (d' : D.t) :
  D.take T bits d = Ok (v, d') ->
  D.take T bits (extend sfx d) = Ok (v, extend sfx d').
Proof.
  unfold D.take.
  destruct (bits >? bitsize (sizeof T)); [discriminate|].
  destruct (sizeof T >? sizeof_size_t); [discriminate|].
  destruct (bits =? 0); [discriminate|].
  destruct (D.impl 0 bits (is_signed T) d) as [[x d1]|e] eqn:Hi; cbn [bind];
    [|discriminate].
  rewrite (impl_extend sfx _ _ _ _ _ _ Hi). cbn [bind].
  intros [= <- <-]. reflexivity.
Qed.


Lemma get_each_extend (sfx : list Z) (E : type) :
  extends sfx E ->
  forall l d l' d',
    get_each (Policy.deserialize E) l d = Ok (l', d') ->
    get_each (Policy.deserialize E) l (extend sfx d) = Ok (l', extend sfx d').
Proof.
  intros HE. induction l as [|x l IH]; intros d l' d'; cbn [get_each].
  - intros [= <- <-]. reflexivity.
  - destruct (Policy.deserialize E x d) as [[x' d1]|e] eqn:Hx; cbn [bind];
      [|discriminate].
    rewrite (HE _ _ _ _ Hx). cbn [bind].
    destruct (get_each (Policy.deserialize E) l d1) as [[l'' d2]|e] eqn:Hl;
      cbn [bind]; [|discriminate].
    rewrite (IH _ _ _ Hl). cbn [bind]. intros [= <- <-]. reflexivity.
Qed.

Lemma get_members_extend (sfx : list Z) (members : list type) :
  Forall (extends sfx) members ->
  forall l d l' d',
    get_members Policy.deserialize members l d = Ok (l', d') ->
    get_members Policy.deserialize members l (extend sfx d)
    = Ok (l', extend sfx d').
Proof.
  induction 1 as [|M members HM _ IH]; intros l d l' d'; cbn [get_members].
  - destruct l; [|discriminate]. intros [= <- <-]. reflexivity.
  - destruct l as [|x l]; [discriminate|].
    destruct (Policy.deserialize M x d) as [[x' d1]|e] eqn:Hx; cbn [bind];
      [|discriminate].
    rewrite (HM _ _ _ _ Hx). cbn [bind].
    destruct (get_members Policy.deserialize members l d1) as [[l'' d2]|e] eqn:Hl;
      cbn [bind]; [|discriminate].
    rewrite (IH _ _ _ _ Hl). cbn [bind]. intros [= <- <-]. reflexivity.
Qed.

Ltac take_extend_case sfx :=
  match goal with
  | |- context [D.take ?U ?W ?d] =>
      let Ht := fresh "Ht" in
      destruct (D.take U W d) as [[? ?]|?] eqn:Ht; cbn [bind];
      [rewrite (take_extend sfx _ _ _ _ _ Ht); cbn [bind];
       intros [= <- <-]; reflexivity
      |discriminate]
  end.

Lemma policy_extend (sfx : list Z) (T : type) : extends sfx T.
Proof.
  induction T as [U|U|w|E IH|n E IH|members IH|U W|W] using type_nested_ind;
    intros t d r d'.
  - destruct t; cbn [Policy.deserialize]; try discriminate. take_extend_case sfx.
  - destruct t; cbn [Policy.deserialize]; try discriminate. take_extend_case sfx.
  - destruct t; cbn [Policy.deserialize]; try discriminate. take_extend_case sfx.
  - destruct t as [|l|]; try (cbn [Policy.deserialize]; discriminate).
    rewrite !deserialize_Resizable.
    destruct (D.take size_t (bitsize (sizeof size_t)) d) as [[size d1]|e] eqn:Ht;
      cbn [bind]; [|discriminate].
    rewrite (take_extend sfx _ _ _ _ _ Ht). cbn [bind].
    destruct (get_each (Policy.deserialize E) (resize (Z.to_nat size) E l) d1)
      as [[l' d2]|e] eqn:Hl; cbn [bind]; [|discriminate].
    rewrite (get_each_extend sfx E IH _ _ _ _ Hl). cbn [bind].
    intros [= <- <-]. reflexivity.
  - destruct t as [|l|]; try (cbn [Policy.deserialize]; discriminate).
    rewrite !deserialize_FixedArity.
    destruct (negb (length l =? n)%nat); [discriminate|].
    destruct (get_each (Policy.deserialize E) l d) as [[l' d2]|e] eqn:Hl;
      cbn [bind]; [|discriminate].
    rewrite (get_each_extend sfx E IH _ _ _ _ Hl). cbn [bind].
    intros [= <- <-]. reflexivity.
  - destruct t as [|l|]; try (cbn [Policy.deserialize]; discriminate).
    rewrite !deserialize_Composite.
    destruct (get_members Policy.deserialize members l d) as [[l' d2]|e] eqn:Hl;
      cbn [bind]; [|discriminate].
    rewrite (get_members_extend sfx members IH _ _ _ _ Hl). cbn [bind].
    intros [= <- <-]. reflexivity.
  - destruct t; cbn [Policy.deserialize]; try discriminate. take_extend_case sfx.
  - destruct t; cbn [Policy.deserialize]; try discriminate. take_extend_case sfx.
Qed.

(** ** Decoding the bytes of an encoding *)

Lemma flush_tail_checked (o : ByteOrder) (k B : Z) :
  accumulator_ok o k B = true ->
  tail_okb o (pending o k B) (byte_bits o B) = true.
Proof.
  intros Hacc. destruct (accumulator_ok_range _ _ _ Hacc) as [Hk HB].
  assert (H : forallb (fun o => forallb (fun k => forallb (flush_tail_check o k)
                (Zrange 256)) (Zrange 8)) [MsbFirst; LsbFirst] = true)
    by (vm_compute; reflexivity).
  rewrite forallb_forall in H.
  assert (Ho : In o [MsbFirst; LsbFirst]) by (destruct o; cbn; auto).
  pose proof (Zrange_forallb _ _ (Zrange_forallb _ _ (H o Ho) k Hk) B HB) as Hc.
  unfold flush_tail_check in Hc. rewrite Hacc in Hc. exact Hc.
Qed.

(** [take] on any stream that holds enough bits. *)
Lemma take_any (T : itype) (W : Z) (d : D.t) :
  1 <= W <= bitsize (sizeof T) -> sizeof T <= sizeof_size_t ->
  des_ok d -> (Z.to_nat W <= length (dec_bits d))%nat ->
  exists x d',
    D.take T W d = Ok (x, d') /\ des_ok d'
    /\ D.byteOrder_ d' = D.byteOrder_ d
    /\ dec_bits d' = skipn (Z.to_nat W) (dec_bits d)
    /\ x = static_cast T
             (let v := dec_value (D.byteOrder_ d) W
                         (firstn (Z.to_nat W) (dec_bits d)) in
              if is_signed T then Z.lor v (sign_mask (D.byteOrder_ d) W) else v).
Proof.
  intros HW HT Hok Hlen. unfold D.take.
  destruct (W >? bitsize (sizeof T)) eqn:E1; [lia|].
  destruct (sizeof T >? sizeof_size_t) eqn:E2; [lia|].
  destruct (W =? 0) eqn:E3; [lia|].
  assert (Hw : 0 <= W <= word_bits)
    by (unfold bitsize, CHAR_BIT, sizeof_size_t, word_bits in *; lia).
  set (L := firstn (Z.to_nat W) (dec_bits d)).
  assert (HL : Z.of_nat (length L) = W)
    by (subst L; rewrite length_firstn; lia).
  destruct (dec_impl L (skipn (Z.to_nat W) (dec_bits d)) (is_signed T) d)
    as [d' [Hi [Hok' [Ho' Hb']]]].
  - lia.
  - assumption.
  - subst L. symmetry. apply firstn_skipn.
  - rewrite HL in Hi. eexists. exists d'. rewrite Hi. cbn [bind].
    split; [reflexivity|]. auto.
Qed.

(** *** Static types *)


Lemma static_take (T : itype) (W : Z) (d : D.t) :
  1 <= W <= bitsize (sizeof T) -> sizeof T <= sizeof_size_t ->
  des_ok d -> (Z.to_nat W <= length (dec_bits d))%nat ->
  exists x d',
    D.take T W d = Ok (x, d') /\ des_ok d'
    /\ D.byteOrder_ d' = D.byteOrder_ d
    /\ dec_bits d' = skipn (Z.to_nat W) (dec_bits d).
Proof.
  intros HW HT Hok Hlen.
  destruct (take_any T W d HW HT Hok Hlen) as [x [d' [H1 [H2 [H3 [H4 _]]]]]].
  exists x, d'. auto.
Qed.

Lemma static_each (E : type) :
  static_ok E ->
  forall tl d,
    forallb (has_type E) tl = true -> des_ok d ->
    (length tl * bit_size E <= length (dec_bits d))%nat ->
    exists l' d',
      get_each (Policy.deserialize E) tl d = Ok (l', d') /\ des_ok d'
      /\ D.byteOrder_ d' = D.byteOrder_ d
      /\ dec_bits d' = skipn (length tl * bit_size E) (dec_bits d).
Proof.
  intros HE. induction tl as [|t tl IH]; intros d Htl Hok Hlen.
  - exists [], d. cbn. auto.
  - cbn [forallb] in Htl. apply andb_prop in Htl. destruct Htl as [Ht Htl].
    cbn [length] in Hlen.
    destruct (HE t d Ht Hok) as [r [d1 [H1 [Hok1 [Ho1 Hb1]]]]]; [lia|].
    destruct (IH d1 Htl Hok1) as [l' [d' [H2 [Hok2 [Ho2 Hb2]]]]].
    { rewrite Hb1, length_skipn. lia. }
    exists (r :: l'), d'. cbn [get_each]. rewrite H1. cbn [bind].
    rewrite H2. cbn [bind].
    split; [reflexivity | split; [assumption | split; [congruence|]]].
    rewrite Hb2, Hb1, skipn_skipn. f_equal. cbn [length]. lia.
Qed.

Lemma static_members (members : list type) :
  Forall (fun M => supported M = true -> is_static M = true -> static_ok M)
    members ->
  forallb supported members = true -> forallb is_static members = true ->
  forall tl d,
    has_types members tl = true -> des_ok d ->
    (list_sum (map bit_size members) <= length (dec_bits d))%nat ->
    exists l' d',
      get_members Policy.deserialize members tl d = Ok (l', d') /\ des_ok d'
      /\ D.byteOrder_ d' = D.byteOrder_ d
      /\ dec_bits d' = skipn (list_sum (map bit_size members)) (dec_bits d).
Proof.
  induction 1 as [|M members HM _ IH]; intros Hsup Hst tl d Htl Hok Hlen.
  - destruct tl; [|discriminate]. exists [], d. cbn. auto.
  - destruct tl as [|t tl]; [discriminate|].
    change (list_sum (map bit_size (M :: members)))
      with (bit_size M + list_sum (map bit_size members))%nat in *.
    cbn [forallb has_types] in *.
    apply andb_prop in Hsup. destruct Hsup as [HsM Hsup].
    apply andb_prop in Hst. destruct Hst as [HtM Hst].
    apply andb_prop in Htl. destruct Htl as [Ht Htl].
    destruct (HM HsM HtM t d Ht Hok) as [r [d1 [H1 [Hok1 [Ho1 Hb1]]]]]; [lia|].
    destruct (IH Hsup Hst tl d1 Htl Hok1) as [l' [d' [H2 [Hok2 [Ho2 Hb2]]]]].
    { rewrite Hb1, length_skipn. lia. }
    exists (r :: l'), d'. cbn [get_members]. rewrite H1. cbn [bind].
    rewrite H2. cbn [bind].
    split; [reflexivity | split; [assumption | split; [congruence|]]].
    rewrite Hb2, Hb1, skipn_skipn. f_equal. lia.
Qed.

Lemma static_decode (T : type) :
  supported T = true -> is_static T = true -> static_ok T.
Proof.
  induction T as [U|U|w|E IH|n E IH|members IH|U W|W] using type_nested_ind;
    intros Hsup Hst t d Ht Hok Hlen.
  - destruct t as [z| |]; try discriminate.
    destruct (supported_itype_give U Hsup) as [H1 [H2 _]].
    destruct (static_take U _ d H1 H2 Hok Hlen) as [x [d' [Hd Hrest]]].
    exists (VInt x), d'. cbn [Policy.deserialize]. rewrite Hd. auto.
  - destruct t as [z| |]; try discriminate.
    destruct (supported_itype_give U Hsup) as [H1 [H2 _]].
    destruct (static_take U _ d H1 H2 Hok Hlen) as [x [d' [Hd Hrest]]].
    exists (VInt x), d'. cbn [Policy.deserialize]. rewrite Hd. auto.
  - destruct t as [z| |]; try discriminate.
    destruct (supported_Floating w Hsup) as [HU Hw].
    destruct (supported_itype_give _ HU) as [H1 [H2 _]].
    cbn [bit_size] in *.
    assert (Hlen' : (Z.to_nat (bitsize (sizeof (floating_width_equivalent w)))
                     <= length (dec_bits d))%nat) by (rewrite Hw; exact Hlen).
    destruct (static_take _ _ d H1 H2 Hok Hlen') as [x [d' [Hd Hrest]]].
    rewrite Hw in Hrest.
    exists (VInt x), d'. cbn [Policy.deserialize]. rewrite Hd. auto.
  - discriminate.
  - destruct t as [|tl|]; try discriminate.
    cbn [has_type supported is_static bit_size] in *.
    apply andb_prop in Ht. destruct Ht as [Htlen Htl].
    rewrite deserialize_FixedArity, Htlen. cbn [negb].
    apply Nat.eqb_eq in Htlen.
    destruct (Nat.eq_dec n 0) as [->|Hn].
    + destruct tl; [|discriminate]. exists (VSeq []), d. cbn. auto.
    + assert (HsE : is_static E = true).
      { apply Nat.eqb_neq in Hn. rewrite Hn in Hst. exact Hst. }
      destruct (static_each E (IH Hsup HsE) tl d Htl Hok)
        as [l' [d' [He [Hok' [Ho' Hb']]]]]; [rewrite Htlen; exact Hlen|].
      exists (VSeq l'), d'. rewrite He. cbn [bind]. rewrite Htlen in Hb'. auto.
  - destruct t as [|tl|]; try discriminate.
    rewrite has_type_Composite in Ht. rewrite deserialize_Composite.
    cbn [supported is_static bit_size] in *.
    assert (Hall : forallb supported members = true)
      by (destruct members; [discriminate | exact Hsup]).
    destruct (static_members members IH Hall Hst tl d Ht Hok Hlen)
      as [l' [d' [He Hrest]]].
    exists (VSeq l'), d'. rewrite He. cbn [bind]. auto.
  - destruct t as [z| |]; try discriminate.
    cbn [supported bit_size] in *.
    apply andb_prop in Hsup. destruct Hsup as [Hsup HW2].
    apply andb_prop in Hsup. destruct Hsup as [HU HW1].
    destruct (supported_itype_give U HU) as [_ [H2 _]].
    destruct (static_take U W d) as [x [d' [Hd Hrest]]];
      try assumption; [lia|].
    exists (VInt x), d'. cbn [Policy.deserialize]. rewrite Hd. auto.
  - destruct t as [| |]; try discriminate.
    cbn [supported bit_size] in *.
    destruct (static_take size_t W d) as [x [d' [Hd Hrest]]]; try assumption.
    + change (bitsize (sizeof size_t)) with word_bits. lia.
    + reflexivity.
    + exists VSpare, d'. cbn [Policy.deserialize]. rewrite Hd. auto.
Qed.

Lemma flat_map_length_const {A B : Type} (f : A -> list B) (c : nat) (l : list A) :
  (forall x, In x l -> length (f x) = c) ->
  length (flat_map f l) = (length l * c)%nat.
Proof.
  induction l as [|x l IH]; intros H; [reflexivity|].
  cbn [flat_map length]. rewrite length_app, (H x (or_introl eq_refl)).
  rewrite IH by (intros y Hy; apply H; right; exact Hy). lia.
Qed.

Lemma forallb_In {A : Type} (f : A -> bool) (l : list A) (x : A) :
  forallb f l = true -> In x l -> f x = true.
Proof. intros H. rewrite forallb_forall in H. apply H. Qed.

(** The encoding of a value of a static type has the length of the type. *)
Lemma wire_length_static (o : ByteOrder) (T : type) :
  supported T = true -> is_static T = true ->
  forall v, has_type T v = true -> length (wire o T v) = bit_size T.
Proof.
  induction T as [U|U|w|E IH|n E IH|members IH|U W|W] using type_nested_ind;
    intros Hsup Hst v Hv.
  - destruct v; try discriminate. apply val_bits_length.
  - destruct v; try discriminate. apply val_bits_length.
  - destruct v; try discriminate. apply val_bits_length.
  - discriminate.
  - destruct v as [|l|]; try discriminate.
    cbn [has_type supported is_static bit_size wire] in *.
    apply andb_prop in Hv. destruct Hv as [Hlen Hl].
    apply Nat.eqb_eq in Hlen. subst n.
    destruct l as [|x l]; [reflexivity|].
    cbn [length Nat.eqb orb] in Hst.
    apply flat_map_length_const. intros y Hy.
    apply IH; try assumption. eapply forallb_In; eassumption.
  - destruct v as [|l|]; try discriminate.
    rewrite has_type_Composite in Hv. rewrite wire_Composite.
    cbn [supported is_static bit_size] in *.
    assert (Hall : forallb supported members = true)
      by (destruct members; [discriminate | exact Hsup]).
    clear Hsup. revert l Hv.
    induction IH as [|M members HM _ IHm]; intros l Hv.
    + destruct l; [reflexivity | discriminate].
    + destruct l as [|x l]; [discriminate|].
      cbn [forallb has_types] in *.
      apply andb_prop in Hall. destruct Hall as [H1 H2].
      apply andb_prop in Hst. destruct Hst as [H3 H4].
      apply andb_prop in Hv. destruct Hv as [H5 H6].
      cbn [wire_members]. rewrite length_app, (HM H1 H3 x H5), (IHm H4 H2 l H6).
      reflexivity.
  - destruct v; try discriminate. apply val_bits_length.
  - destruct v; try discriminate. apply val_bits_length.
Qed.

(** A type with a value encoded in fewer bits than a count is static. *)
Lemma small_is_static (o : ByteOrder) (T : type) :
  forall v, has_type T v = true ->
  (length (wire o T v) < 64)%nat -> is_static T = true.
Proof.
  induction T as [U|U|w|E IH|n E IH|members IH|U W|W] using type_nested_ind;
    intros v Hv Hlen; try reflexivity.
  - destruct v as [|l|]; try discriminate.
    cbn [wire] in Hlen. rewrite length_app, val_bits_length in Hlen.
    change (Z.to_nat word_bits) with 64%nat in Hlen. lia.
  - destruct v as [|l|]; try discriminate.
    cbn [has_type is_static wire] in *.
    apply andb_prop in Hv. destruct Hv as [Hn Hl].
    apply Nat.eqb_eq in Hn. subst n.
    destruct l as [|x l]; [reflexivity|].
    cbn [length Nat.eqb orb forallb flat_map] in *.
    apply andb_prop in Hl. destruct Hl as [Hx _].
    rewrite length_app in Hlen. apply (IH x Hx). lia.
  - destruct v as [|l|]; try discriminate.
    rewrite has_type_Composite in Hv. rewrite wire_Composite in Hlen.
    cbn [is_static]. revert l Hv Hlen.
    induction IH as [|M members HM _ IHm]; intros l Hv Hlen; [reflexivity|].
    destruct l as [|x l]; [discriminate|].
    cbn [has_types wire_members forallb] in *.
    apply andb_prop in Hv. destruct Hv as [H5 H6].
    rewrite length_app in Hlen.
    rewrite (HM x H5) by lia. rewrite (IHm l H6) by lia. reflexivity.
Qed.

(** *** Counts read at the end of the input *)

Lemma msbval_acc (bits : list bool) : forall a,
  fold_left (fun a b => 2 * a + Z.b2z b) bits a
  = a * 2 ^ Z.of_nat (length bits) + msbval bits.
Proof.
  unfold msbval. induction bits as [|b bits IH]; intros a.
  - cbn. lia.
  - cbn [fold_left length]. rewrite IH, (IH (2 * 0 + Z.b2z b)).
    rewrite Nat2Z.inj_succ, Z.pow_succ_r by lia. lia.
Qed.

Lemma msbval_app (A B : list bool) :
  msbval (A ++ B) = msbval A * 2 ^ Z.of_nat (length B) + msbval B.
Proof. unfold msbval at 1. rewrite fold_left_app. apply msbval_acc. Qed.

Lemma msbval_range (bits : list bool) :
  0 <= msbval bits < 2 ^ Z.of_nat (length bits).
Proof.
  induction bits as [|b bits IH] using rev_ind; [cbn; lia|].
  rewrite msbval_app, length_app. cbn [length].
  rewrite Nat2Z.inj_add, Z.pow_add_r by lia.
  change (msbval [b]) with (2 * 0 + Z.b2z b). change (2 ^ Z.of_nat 1) with 2.
  destruct b; cbn [Z.b2z]; lia.
Qed.

Lemma lor_even_bit (x : Z) (b : bool) :
  Z.lor (2 * x) (if b then 1 else 0) = 2 * x + Z.b2z b.
Proof.
  destruct b; cbn [Z.b2z]; [|rewrite Z.lor_0_r; lia].
  assert (Hl : Z.land (2 * x) 1 = 0).
  { change 1 with (Z.ones 1). rewrite Z.land_ones by lia.
    change (2 ^ 1) with 2. rewrite Z.mul_comm. apply Z.mod_mul. lia. }
  rewrite <- Z.lxor_lor by exact Hl. symmetry. apply Z.add_nocarry_lxor, Hl.
Qed.

Lemma fold_push_msbval (bits : list bool) :
  Z.of_nat (length bits) <= word_bits ->
  fold_left (data_push MsbFirst) bits 0 = msbval bits.
Proof.
  induction bits as [|b bits IH] using rev_ind; intros Hlen; [reflexivity|].
  rewrite length_app in Hlen. cbn [length] in Hlen.
  rewrite fold_left_app, msbval_app. cbn [fold_left length].
  rewrite IH by lia. change (msbval [b]) with (2 * 0 + Z.b2z b).
  change (2 ^ Z.of_nat 1) with 2.
  pose proof (msbval_range bits) as Hr.
  assert (Hp : 2 * 2 ^ Z.of_nat (length bits) <= 2 ^ word_bits).
  { rewrite <- Z.pow_succ_r by lia. apply Z.pow_le_mono_r; lia. }
  unfold data_push. change (D.dataMask MsbFirst) with 1.
  unfold usize. rewrite Z.shiftl_mul_pow2 by lia. change (2 ^ 1) with 2.
  rewrite Z.mod_small by lia.
  replace (msbval bits * 2) with (2 * msbval bits) by lia.
  pose proof (lor_even_bit (msbval bits) b) as Hl.
  destruct b; cbn [Z.b2z] in *; [rewrite Hl; lia | lia].
Qed.

Lemma msbval_le_app (A B B' : list bool) :
  length B = length B' -> msbval B' <= msbval B ->
  msbval (A ++ B') <= msbval (A ++ B).
Proof. intros Hl Hle. rewrite !msbval_app, Hl. lia. Qed.

Lemma all_false_eq (A B : list bool) :
  length A = length B -> all_false A = true -> all_false B = true -> A = B.
Proof.
  revert B. induction A as [|a A IH]; intros [|b B] Hl HA HB;
    try discriminate; [reflexivity|].
  cbn [all_false forallb length] in *.
  apply andb_prop in HA. destruct HA as [Ha HA].
  apply andb_prop in HB. destruct HB as [Hb HB].
  destruct a, b; try discriminate. f_equal. apply IH; auto.
Qed.

Lemma val_bits_lsb_high (n : Z) (c : nat) :
  0 <= n < 2 ^ (word_bits - Z.of_nat c) -> (c <= 64)%nat ->
  all_false (skipn (64 - c) (val_bits LsbFirst word_bits n)) = true.
Proof.
  intros Hn Hc. unfold all_false, val_bits.
  rewrite skipn_map. apply forallb_forall. intros b Hb.
  apply in_map_iff in Hb. destruct Hb as [i [<- Hi]].
  change (Z.to_nat word_bits) with 64%nat in Hi.
  rewrite skipn_seq in Hi. apply in_seq in Hi.
  apply negb_true_iff.
  destruct (Z.eq_dec n 0) as [->|Hn0]; [apply Z.bits_0|].
  apply Z.bits_above_log2; [lia|].
  apply Z.log2_lt_pow2; [lia|].
  eapply Z.lt_le_trans; [apply Hn|]. apply Z.pow_le_mono_r; [lia|].
  unfold word_bits. lia.
Qed.

(** The count that [take<size_t>] assembles from the bits [A ++ BZ], where
    the encoder had given [A ++ BW], the bits of [n]: it does not exceed [n],
    unless [n] is astronomically large. *)
Lemma count_overlap (o : ByteOrder) (A BW BZ : list bool) (n : Z) :
  length BW = length BZ -> (length BW <= 7)%nat ->
  (length A + length BW = 64)%nat ->
  A ++ BW = val_bits o word_bits n -> 0 <= n < 2 ^ word_bits ->
  match o with
  | MsbFirst => msbval BZ <= msbval BW
  | LsbFirst => all_false BW = true -> all_false BZ = true
  end ->
  let x := static_cast size_t (dec_value o word_bits (A ++ BZ)) in
  0 <= x /\ (x <= n \/ 2 ^ 57 <= n).
Proof.
  intros Hlen Hc HA Hbits Hn Htail. cbv zeta.
  assert (Hcast : forall y, static_cast size_t y = y mod 2 ^ word_bits)
    by reflexivity.
  assert (Hval : dec_value o word_bits (A ++ BW) = n).
  { rewrite Hbits, dec_value_val_bits by (unfold word_bits; lia).
    apply Z.mod_small, Hn. }
  rewrite Hcast. split; [apply Z.mod_pos_bound; reflexivity|].
  destruct o.
  - left. unfold dec_value in *.
    rewrite fold_push_msbval in Hval |- *
      by (rewrite length_app; unfold word_bits; lia).
    pose proof (msbval_range (A ++ BZ)) as Hr.
    rewrite length_app in Hr.
    replace (Z.of_nat (length A + length BZ)) with word_bits in Hr
      by (unfold word_bits; lia).
    rewrite Z.mod_small by exact Hr.
    rewrite <- Hval. apply msbval_le_app; [exact Hlen | exact Htail].
  - destruct (Z.lt_ge_cases n (2 ^ 57)) as [Hsmall|Hbig]; [left | right; exact Hbig].
    assert (HBW : all_false BW = true).
    { replace BW with (skipn (64 - length BW) (val_bits LsbFirst word_bits n)).
      - apply val_bits_lsb_high; [|lia]. split; [lia|].
        eapply Z.lt_le_trans; [exact Hsmall|].
        apply Z.pow_le_mono_r; unfold word_bits; lia.
      - rewrite <- Hbits. replace (64 - length BW)%nat with (length A) by lia.
        rewrite skipn_app, skipn_all, Nat.sub_diag. reflexivity. }
    rewrite (all_false_eq BZ BW) by (auto; symmetry; exact Hlen).
    rewrite Hval, Z.mod_small by exact Hn. lia.
Qed.

(** *** Decoding the bytes that [serialize] returns

    [F0] are the bits of the bytes emitted before [flush], [W] the bits then
    pending in the accumulator and [Zt] the bits of what [flush] emits for
    them.  The decoder is followed along the encoding of a value: it reaches
    the end of every component no later than the encoder did, and together
    with it until the last byte. *)
Section FlushedTail.
Variable o : ByteOrder.
Variables F0 W Zt : list bool.
Hypothesis Htail : tail_okb o W Zt = true.
Hypothesis HW : (length W <= 7)%nat.

Local Abbreviation at_pos := (at_pos_in o F0 Zt).
Local Abbreviation resumes := (resumes_in o F0 W Zt).

Lemma tail_length : (length W <= length Zt)%nat.
Proof.
  unfold tail_okb in Htail. apply andb_prop in Htail.
  destruct Htail as [H _]. apply Nat.leb_le, H.
Qed.

Lemma tail_at (c : nat) :
  (c <= length W)%nat ->
  match o with
  | MsbFirst => msbval (firstn c Zt) <= msbval (firstn c W)
  | LsbFirst => all_false (firstn c W) = true -> all_false (firstn c Zt) = true
  end.
Proof.
  intros Hc. unfold tail_okb in Htail. apply andb_prop in Htail.
  destruct Htail as [_ H]. rewrite forallb_forall in H.
  specialize (H c). assert (Hin : In c (seq 0 (S (length W))))
    by (apply in_seq; lia).
  specialize (H Hin). destruct o.
  - apply Z.leb_le, H.
  - intros HWc. rewrite HWc in H. exact H.
Qed.

Lemma ideal_end (q : nat) (w Q : list bool) :
  skipn q (F0 ++ W) = w ++ Q -> (q <= length (F0 ++ W))%nat ->
  (q + length w <= length (F0 ++ W))%nat
  /\ skipn (q + length w) (F0 ++ W) = Q.
Proof.
  intros Hs Hq. split.
  - pose proof (f_equal (@length bool) Hs) as Hl.
    rewrite length_skipn in Hl. rewrite !length_app in *. lia.
  - rewrite Nat.add_comm, <- skipn_skipn, Hs.
    rewrite skipn_app, skipn_all, Nat.sub_diag. reflexivity.
Qed.

Lemma available (p q n : nat) (d : D.t) :
  at_pos p d -> (p <= q)%nat -> (q + n <= length (F0 ++ W))%nat ->
  (n <= length (dec_bits d))%nat.
Proof.
  intros [_ [_ Hb]] Hpq Hq. rewrite Hb, length_skipn.
  pose proof tail_length. rewrite !length_app in *. lia.
Qed.

Lemma resumes_take (T : itype) (bits : Z) (p q : nat) (d : D.t) :
  1 <= bits <= bitsize (sizeof T) -> sizeof T <= sizeof_size_t ->
  at_pos p d -> (p <= q)%nat -> (q + Z.to_nat bits <= length (F0 ++ W))%nat ->
  exists x d',
    D.take T bits d = Ok (x, d') /\ at_pos (p + Z.to_nat bits) d'.
Proof.
  intros Hb HT Hat Hpq Hq.
  pose proof (available p q _ d Hat Hpq Hq) as Hav.
  destruct Hat as [Hok [Ho Hbits]].
  destruct (static_take T bits d Hb HT Hok Hav) as [x [d' [Hd [Hok' [Ho' Hb']]]]].
  exists x, d'. split; [exact Hd|].
  split; [exact Hok' | split; [congruence|]].
  rewrite Hb', Hbits, skipn_skipn. f_equal. lia.
Qed.

Lemma resumes_each (E : type) :
  resumes E ->
  forall l tl p q Q d,
    forallb (has_type E) l = true -> forallb (has_type E) tl = true ->
    length tl = length l ->
    skipn q (F0 ++ W) = flat_map (wire o E) l ++ Q ->
    (q <= length (F0 ++ W))%nat ->
    at_pos p d -> (p <= q)%nat -> (p = q \/ length F0 < q)%nat ->
    exists l' d' p',
      get_each (Policy.deserialize E) tl d = Ok (l', d') /\ at_pos p' d'
      /\ (p' <= q + length (flat_map (wire o E) l))%nat
      /\ (p' = q + length (flat_map (wire o E) l)
          \/ length F0 < q + length (flat_map (wire o E) l))%nat.
Proof.
  intros HE. induction l as [|x l IH]; intros tl p q Q d Hl Htl Hlen Hs Hq Hat Hpq Hsync.
  - destruct tl; [|discriminate]. exists [], d, p. cbn [get_each flat_map length].
    split; [reflexivity|]. split; [exact Hat|]. lia.
  - destruct tl as [|t tl]; [discriminate|].
    cbn [forallb flat_map length] in *.
    apply andb_prop in Hl. destruct Hl as [Hx Hl].
    apply andb_prop in Htl. destruct Htl as [Ht Htl].
    rewrite <- app_assoc in Hs.
    destruct (HE x t p q _ d Hx Ht Hs Hq Hat Hpq Hsync)
      as [r [d1 [p1 [H1 [Hat1 [Hp1 Hsync1]]]]]].
    destruct (ideal_end q _ _ Hs Hq) as [Hq1 Hs1].
    injection Hlen as Hlen.
    destruct (IH tl p1 _ Q d1 Hl Htl Hlen Hs1 Hq1 Hat1 Hp1 Hsync1)
      as [l' [d' [p' [H2 [Hat' [Hp' Hsync']]]]]].
    exists (r :: l'), d', p'. cbn [get_each]. rewrite H1. cbn [bind].
    rewrite H2. cbn [bind].
    split; [reflexivity|]. split; [exact Hat'|].
    rewrite length_app. lia.
Qed.

Lemma resumes_members (members : list type) :
  Forall (fun M => supported M = true -> resumes M) members ->
  forallb supported members = true ->
  forall l tl p q Q d,
    has_types members l = true -> has_types members tl = true ->
    skipn q (F0 ++ W) = wire_members o members l ++ Q ->
    (q <= length (F0 ++ W))%nat ->
    at_pos p d -> (p <= q)%nat -> (p = q \/ length F0 < q)%nat ->
    exists l' d' p',
      get_members Policy.deserialize members tl d = Ok (l', d') /\ at_pos p' d'
      /\ (p' <= q + length (wire_members o members l))%nat
      /\ (p' = q + length (wire_members o members l)
          \/ length F0 < q + length (wire_members o members l))%nat.
Proof.
  induction 1 as [|M members HM _ IH];
    intros Hsup l tl p q Q d Hl Htl Hs Hq Hat Hpq Hsync.
  - destruct l; [|discriminate]. destruct tl; [|discriminate].
    exists [], d, p. cbn [get_members wire_members length].
    split; [reflexivity|]. split; [exact Hat|]. lia.
  - destruct l as [|x l]; [discriminate|]. destruct tl as [|t tl]; [discriminate|].
    cbn [forallb has_types wire_members] in *.
    apply andb_prop in Hsup. destruct Hsup as [HsM Hsup].
    apply andb_prop in Hl. destruct Hl as [Hx Hl].
    apply andb_prop in Htl. destruct Htl as [Ht Htl].
    rewrite <- app_assoc in Hs.
    destruct (HM HsM x t p q _ d Hx Ht Hs Hq Hat Hpq Hsync)
      as [r [d1 [p1 [H1 [Hat1 [Hp1 Hsync1]]]]]].
    destruct (ideal_end q _ _ Hs Hq) as [Hq1 Hs1].
    destruct (IH Hsup l tl p1 _ Q d1 Hl Htl Hs1 Hq1 Hat1 Hp1 Hsync1)
      as [l' [d' [p' [H2 [Hat' [Hp' Hsync']]]]]].
    exists (r :: l'), d', p'. cbn [get_members]. rewrite H1. cbn [bind].
    rewrite H2. cbn [bind].
    split; [reflexivity|]. split; [exact Hat'|].
    rewrite length_app. lia.
Qed.

Lemma resumes_take_at (T : itype) (bits z : Z) (p q : nat) (Q : list bool) (d : D.t) :
  1 <= bits <= bitsize (sizeof T) -> sizeof T <= sizeof_size_t ->
  skipn q (F0 ++ W) = val_bits o bits z ++ Q -> (q <= length (F0 ++ W))%nat ->
  at_pos p d -> (p <= q)%nat -> (p = q \/ length F0 < q)%nat ->
  exists x d' p',
    D.take T bits d = Ok (x, d') /\ at_pos p' d'
    /\ (p' <= q + length (val_bits o bits z))%nat
    /\ (p' = q + length (val_bits o bits z)
        \/ length F0 < q + length (val_bits o bits z))%nat.
Proof.
  intros Hb HT Hs Hq Hat Hpq Hsync.
  destruct (ideal_end q _ _ Hs Hq) as [Hq1 _].
  rewrite val_bits_length in *.
  destruct (resumes_take T bits p q d Hb HT Hat Hpq Hq1) as [x [d' [Hd Hat']]].
  exists x, d', (p + Z.to_nat bits)%nat. split; [exact Hd|].
  split; [exact Hat'|]. lia.
Qed.

Lemma firstn_exact {A : Type} (a b : list A) : firstn (length a) (a ++ b) = a.
Proof.
  rewrite firstn_app, firstn_all, Nat.sub_diag, firstn_O. apply app_nil_r.
Qed.

Lemma resumes_Resizable (E : type) :
  supported E = true -> resumes E -> resumes (Resizable E).
Proof.
  intros Hsup HE v t p q Q d Hv Ht Hs Hq Hat Hpq Hsync.
  destruct v as [|l|]; try discriminate. destruct t as [|tl|]; try discriminate.
  cbn [has_type wire] in *.
  apply andb_prop in Hv. destruct Hv as [Hn Hl].
  apply andb_prop in Ht. destruct Ht as [_ Htl].
  apply Z.ltb_lt in Hn.
  rewrite <- app_assoc in Hs.
  destruct (ideal_end q _ _ Hs Hq) as [Hq1 Hs1].
  destruct (ideal_end _ _ _ Hs1 Hq1) as [Hq2 _].
  rewrite ?length_app, ?val_bits_length in *.
  change (Z.to_nat word_bits) with 64%nat in *.
  pose proof tail_length as Htl_len.
  assert (Hp : p = q) by (destruct Hsync; [assumption | lia]). subst p.
  pose proof (available q q 64 d Hat (Nat.le_refl q)) as Hav.
  rewrite ?length_app in Hav. specialize (Hav Hq1).
  destruct Hat as [Hok [Ho Hbits]].
  destruct (take_any size_t word_bits d) as [x [d1 [Hd [Hok1 [Ho1 [Hb1 Hx]]]]]];
    [change (bitsize (sizeof size_t)) with word_bits; unfold word_bits; lia
    | reflexivity | exact Hok | exact Hav |].
  change (Z.to_nat word_bits) with 64%nat in *.
  change (is_signed size_t) with false in Hx. cbv zeta iota in Hx.
  rewrite Ho, Hbits in Hx.
  assert (Hat1 : at_pos (q + 64) d1).
  { split; [exact Hok1 | split; [congruence|]].
    rewrite Hb1, Hbits, skipn_skipn. f_equal. lia. }
  assert (HvalL : firstn 64 (skipn q (F0 ++ W))
                  = val_bits o word_bits (Z.of_nat (length l))).
  { rewrite Hs. rewrite <- (val_bits_length o word_bits (Z.of_nat (length l))) at 1.
    apply firstn_exact. }
  assert (Hcast : forall y, static_cast size_t y = y mod 2 ^ word_bits)
    by reflexivity.
  rewrite deserialize_Resizable.
  change (bitsize (sizeof size_t)) with word_bits. rewrite Hd. cbn [bind].
  destruct (le_lt_dec (q + 64) (length F0)) as [Hin|Hover].
  - (* the count lies in the bytes emitted before flush *)
    assert (Hsame : forall Y, firstn 64 (skipn q (F0 ++ Y)) = firstn 64 (skipn q F0)).
    { intros Y. rewrite skipn_app, firstn_app, length_skipn.
      replace (64 - (length F0 - q))%nat with 0%nat by lia.
      rewrite firstn_O. apply app_nil_r. }
    rewrite Hsame, <- (Hsame W), HvalL in Hx.
    rewrite dec_value_val_bits, Hcast in Hx by (unfold word_bits; lia).
    rewrite Z.mod_mod, Z.mod_small in Hx by (try lia; unfold word_bits; lia).
    subst x. rewrite Nat2Z.id.
    destruct (resumes_each E HE l (resize (length l) E tl) (q + 64) (q + 64) Q d1)
      as [l' [d' [p' [He [Hat' [Hp' Hsync']]]]]]; try assumption.
    + apply resize_has_type; assumption.
    + apply resize_length.
    + rewrite length_app. lia.
    + lia.
    + left. reflexivity.
    + exists (VSeq l'), d', p'. rewrite He. cbn [bind].
      split; [reflexivity|]. split; [exact Hat'|]. lia.
  - (* the count reaches into the last byte *)
    set (c := (q + 64 - length F0)%nat).
    assert (Hc : (c <= length W)%nat) by (subst c; lia).
    assert (Hsplit : forall Y, (c <= length Y)%nat ->
              firstn 64 (skipn q (F0 ++ Y)) = skipn q F0 ++ firstn c Y).
    { intros Y HY. rewrite skipn_app, firstn_app, length_skipn.
      replace (q - length F0)%nat with 0%nat by lia. cbn [skipn].
      rewrite firstn_all2 by (rewrite length_skipn; lia).
      f_equal. f_equal. subst c. lia. }
    rewrite (Hsplit W Hc) in HvalL.
    rewrite (Hsplit Zt) in Hx by lia.
    pose proof (count_overlap o (skipn q F0) (firstn c W) (firstn c Zt)
                  (Z.of_nat (length l))) as Hcount.
    rewrite !length_firstn, length_skipn in Hcount.
    specialize (Hcount ltac:(lia) ltac:(lia) ltac:(subst c; lia) HvalL
                       ltac:(lia) (tail_at c Hc)).
    cbv zeta in Hcount. rewrite <- Hx in Hcount. destruct Hcount as [Hx0 Hxn].
    clear Hx.
    destruct l as [|x0 l0].
    + (* an empty container *)
      cbn [length] in Hxn. assert (x = 0) by lia. subst x.
      exists (VSeq []), d1, (q + 64)%nat. cbn.
      split; [reflexivity|]. split; [exact Hat1|]. lia.
    + cbn [forallb] in Hl. apply andb_prop in Hl. destruct Hl as [Hx0t Hl0].
      assert (HsE : is_static E = true).
      { apply (small_is_static o E x0 Hx0t). cbn [flat_map] in Hq2.
        rewrite length_app in Hq2. lia. }
      assert (Hsize : length (flat_map (wire o E) (x0 :: l0))
                      = (length (x0 :: l0) * bit_size E)%nat).
      { apply flat_map_length_const. intros y Hy.
        apply wire_length_static; try assumption.
        destruct Hy as [<-|Hy]; [assumption|].
        exact (forallb_In (has_type E) l0 y Hl0 Hy). }
      rewrite Hsize in Hq2.
      assert (Hmul : (Z.to_nat x * bit_size E
                      <= length (x0 :: l0) * bit_size E)%nat).
      { destruct Hxn as [Hle|Hbig].
        - apply Nat.mul_le_mono_r. lia.
        - assert (Hw : bit_size E = 0%nat).
          { destruct (bit_size E) as [|w]; [reflexivity|].
            assert (7 <= length (x0 :: l0))%nat.
            { apply Nat2Z.inj_le. eapply Z.le_trans; [|exact Hbig]. lia. }
            exfalso. nia. }
          rewrite Hw. lia. }
      destruct (static_each E (static_decode E Hsup HsE)
                  (resize (Z.to_nat x) E tl) d1)
        as [l' [d' [He [Hok' [Ho' Hb']]]]].
      * apply resize_has_type; assumption.
      * exact Hok1.
      * rewrite resize_length. destruct Hat1 as [_ [_ Hb1']].
        rewrite Hb1', length_skipn, length_app. lia.
      * rewrite resize_length in Hb'.
        exists (VSeq l'), d', (q + 64 + Z.to_nat x * bit_size E)%nat.
        rewrite He. cbn [bind].
        split; [reflexivity|]. split.
        -- split; [exact Hok' | split; [congruence|]].
           destruct Hat1 as [_ [_ Hb1']].
           rewrite Hb', Hb1', skipn_skipn. f_equal. lia.
        -- rewrite Hsize. lia.
Qed.

Lemma resumes_policy (T : type) : supported T = true -> resumes T.
Proof.
  induction T as [U|U|w|E IH|n E IH|members IH|U Wd|Wd] using type_nested_ind;
    intros Hsup.
  - intros v t p q Q d Hv Ht Hs Hq Hat Hpq Hsync.
    destruct v as [z| |]; try discriminate. destruct t as [z0| |]; try discriminate.
    destruct (supported_itype_give U Hsup) as [H1 [H2 _]].
    cbn [wire Policy.deserialize] in *.
    destruct (resumes_take_at U _ z p q Q d H1 H2 Hs Hq Hat Hpq Hsync)
      as [x [d' [p' [Hd Hrest]]]].
    exists (VInt x), d', p'. rewrite Hd. cbn [bind]. auto.
  - intros v t p q Q d Hv Ht Hs Hq Hat Hpq Hsync.
    destruct v as [z| |]; try discriminate. destruct t as [z0| |]; try discriminate.
    destruct (supported_itype_give U Hsup) as [H1 [H2 _]].
    cbn [wire Policy.deserialize] in *.
    destruct (resumes_take_at U _ z p q Q d H1 H2 Hs Hq Hat Hpq Hsync)
      as [x [d' [p' [Hd Hrest]]]].
    exists (VInt x), d', p'. rewrite Hd. cbn [bind]. auto.
  - intros v t p q Q d Hv Ht Hs Hq Hat Hpq Hsync.
    destruct v as [z| |]; try discriminate. destruct t as [z0| |]; try discriminate.
    destruct (supported_Floating w Hsup) as [HU Hw].
    destruct (supported_itype_give _ HU) as [H1 [H2 _]].
    cbn [wire Policy.deserialize] in *.
    assert (Hs' : skipn q (F0 ++ W)
                  = val_bits o (bitsize (sizeof (floating_width_equivalent w))) z
                    ++ Q) by (rewrite Hw; exact Hs).
    destruct (resumes_take_at _ _ z p q Q d H1 H2 Hs' Hq Hat Hpq Hsync)
      as [x [d' [p' [Hd Hrest]]]].
    rewrite Hw in Hrest.
    exists (VInt x), d', p'. rewrite Hd. cbn [bind]. auto.
  - apply resumes_Resizable; [exact Hsup | exact (IH Hsup)].
  - intros v t p q Q d Hv Ht Hs Hq Hat Hpq Hsync.
    destruct v as [|l|]; try discriminate. destruct t as [|tl|]; try discriminate.
    cbn [has_type supported wire] in *.
    apply andb_prop in Hv. destruct Hv as [Hlen Hl].
    apply andb_prop in Ht. destruct Ht as [Htlen Htl].
    rewrite deserialize_FixedArity, Htlen. cbn [negb].
    apply Nat.eqb_eq in Hlen, Htlen.
    destruct (resumes_each E (IH Hsup) l tl p q Q d)
      as [l' [d' [p' [He Hrest]]]]; try assumption; [congruence|].
    exists (VSeq l'), d', p'. rewrite He. cbn [bind]. auto.
  - intros v t p q Q d Hv Ht Hs Hq Hat Hpq Hsync.
    destruct v as [|l|]; try discriminate. destruct t as [|tl|]; try discriminate.
    rewrite has_type_Composite in Hv, Ht. rewrite wire_Composite in *.
    rewrite deserialize_Composite. cbn [supported] in Hsup.
    assert (Hall : forallb supported members = true)
      by (destruct members; [discriminate | exact Hsup]).
    destruct (resumes_members members IH Hall l tl p q Q d)
      as [l' [d' [p' [He Hrest]]]]; try assumption.
    exists (VSeq l'), d', p'. rewrite He. cbn [bind]. auto.
  - intros v t p q Q d Hv Ht Hs Hq Hat Hpq Hsync.
    destruct v as [z| |]; try discriminate. destruct t as [z0| |]; try discriminate.
    cbn [supported wire Policy.deserialize] in *.
    apply andb_prop in Hsup. destruct Hsup as [Hsup HW2].
    apply andb_prop in Hsup. destruct Hsup as [HU HW1].
    destruct (supported_itype_give U HU) as [_ [H2 _]].
    destruct (resumes_take_at U Wd z p q Q d) as [x [d' [p' [Hd Hrest]]]];
      try assumption; [lia|].
    exists (VInt x), d', p'. rewrite Hd. cbn [bind]. auto.
  - intros v t p q Q d Hv Ht Hs Hq Hat Hpq Hsync.
    destruct v as [| |]; try discriminate. destruct t as [| |]; try discriminate.
    cbn [supported wire Policy.deserialize] in *.
    destruct (resumes_take_at size_t Wd 0 p q Q d) as [x [d' [p' [Hd Hrest]]]];
      try assumption.
    + change (bitsize (sizeof size_t)) with word_bits. lia.
    + reflexivity.
    + exists VSpare, d', p'. rewrite Hd. cbn [bind]. auto.
Qed.

End FlushedTail.

Lemma byte_bits_length (o : ByteOrder) (b : Z) : length (byte_bits o b) = 8%nat.
Proof. reflexivity. Qed.

Lemma pending_length (o : ByteOrder) (k B : Z) :
  length (pending o k B) = Z.to_nat k.
Proof. unfold pending. rewrite length_map, length_seq. reflexivity. Qed.

(** The decoder does not run out of input on the bytes of an encoding,
    whatever [flush] had to emit. *)
Lemma decode_own_encoding (T : type) (v : value) (o : ByteOrder) :
  supported T = true -> has_type T v = true ->
  exists data r d',
    serialize T v o = Ok data
    /\ Policy.deserialize T (value_init T) (D.init data o) = Ok (r, d').
Proof.
  intros Hsup Hv.
  destruct (serialize_wire T v o Hsup Hv) as [ser [Hs [[Hacc Hbytes] [Ho Hb]]]].
  pose proof (value_init_has_type T Hsup) as Ht.
  unfold serialize. rewrite Hs. cbn [bind].
  unfold enc_bits in Hb. rewrite Ho in Hb, Hacc.
  set (F0 := flat_map (byte_bits o) (S.bytes ser)) in *.
  destruct (Z.eq_dec (S.bitsSet_ ser) 0) as [Hk|Hk].
  - rewrite (flush_empty ser Hk). rewrite Hk in Hb.
    change (pending o 0 (S.byte_ ser)) with (@nil bool) in Hb.
    assert (Htail : tail_okb o [] [] = true) by (destruct o; reflexivity).
    destruct (resumes_policy o F0 [] [] Htail ltac:(cbn; lia) T Hsup
                v (value_init T) 0%nat 0%nat [] (D.init (S.bytes ser) o))
      as [r [d' [p' [Hd _]]]]; try assumption.
    + cbn [skipn]. rewrite Hb, app_nil_r. reflexivity.
    + lia.
    + split; [split; [reflexivity | exact Hbytes]|]. split; [reflexivity|].
      unfold dec_bits. cbn [D.init D.byteOrder_ D.bitsLeft_ D.byte_ D.input skipn].
      rewrite remaining_nil. cbn [app]. rewrite app_nil_r. reflexivity.
    + lia.
    + left. reflexivity.
    + exists (S.bytes ser), r, d'. auto.
  - rewrite (flush_partial ser Hk). cbn [S.bytes].
    destruct (accumulator_ok_range _ _ _ Hacc) as [Hkr HB].
    pose proof (flush_tail_checked o _ _ Hacc) as Htail.
    assert (HW : (length (pending o (S.bitsSet_ ser) (S.byte_ ser)) <= 7)%nat)
      by (rewrite pending_length; lia).
    destruct (resumes_policy o F0 _ _ Htail HW T Hsup
                v (value_init T) 0%nat 0%nat []
                (D.init (S.bytes ser ++ [S.byte_ ser]) o))
      as [r [d' [p' [Hd _]]]]; try assumption.
    + cbn [skipn]. rewrite Hb, app_nil_r. reflexivity.
    + lia.
    + split; [split; [reflexivity|]|].
      * cbn [D.init D.input]. rewrite forallb_app, Hbytes. cbn [forallb andb].
        unfold byte_ok. lia.
      * split; [reflexivity|].
        unfold dec_bits. cbn [D.init D.byteOrder_ D.bitsLeft_ D.byte_ D.input skipn].
        rewrite remaining_nil, flat_map_app. cbn [flat_map app].
        rewrite app_nil_r. reflexivity.
    + lia.
    + left. reflexivity.
    + exists (S.bytes ser ++ [S.byte_ ser]), r, d'. auto.
Qed.

(** A transfer pulls a byte only when it needs a bit and none is left. *)
Lemma loop_budget (n : nat) : forall (data signMask : Z) (d : D.t) x,
  0 <= D.bitsLeft_ d <= 7 ->
  D.loop n data signMask d = Ok x ->
  let d' := snd x in
  0 <= D.bitsLeft_ d' <= 7
  /\ 8 * Z.of_nat (length (D.input d')) + D.bitsLeft_ d'
     = 8 * Z.of_nat (length (D.input d)) + D.bitsLeft_ d - Z.of_nat n.
Proof.
  induction n as [|n IH]; intros data signMask d x Hr; cbn [D.loop].
  - intros [= <-]. cbn [snd]. lia.
  - destruct (D.step data signMask d) as [[[a m] d1]|e] eqn:Hs; cbn [bind];
      [|discriminate].
    intros Hl.
    assert (H1 : 0 <= D.bitsLeft_ d1 <= 7
                 /\ 8 * Z.of_nat (length (D.input d1)) + D.bitsLeft_ d1
                    = 8 * Z.of_nat (length (D.input d)) + D.bitsLeft_ d - 1).
    { unfold D.step, D.getByte in Hs. destruct d as [o B r inp].
      cbn [D.byteOrder_ D.byte_ D.bitsLeft_ D.input] in *.
      destruct (r =? 0) eqn:Hr0.
      - destruct inp as [|b inp]; [destruct o; discriminate|].
        destruct o; cbn [bind D.input] in Hs; injection Hs as _ _ <-;
          cbn [D.bitsLeft_ D.input length]; change (bitsize 1 - 1) with 7; lia.
      - assert (Hu : u8 (r - 1) = r - 1) by (unfold u8; apply Z.mod_small; lia).
        destruct o; cbn [bind] in Hs; injection Hs as _ _ <-;
          cbn [D.bitsLeft_ D.input]; rewrite Hu; lia. }
    destruct H1 as [Hr1 He1].
    destruct (IH a m d1 x Hr1 Hl) as [Hr' He']. cbv zeta. lia.
Qed.

Lemma take_budget (T : itype) (bits : Z) (d : D.t) (x : Z) (d' : D.t) :
  0 <= bits -> 0 <= D.bitsLeft_ d <= 7 -> D.take T bits d = Ok (x, d') ->
  0 <= D.bitsLeft_ d' <= 7
  /\ 8 * Z.of_nat (length (D.input d')) + D.bitsLeft_ d'
     = 8 * Z.of_nat (length (D.input d)) + D.bitsLeft_ d - bits.
Proof.
  intros Hbits Hr. unfold D.take.
  destruct (bits >? bitsize (sizeof T)); [discriminate|].
  destruct (sizeof T >? sizeof_size_t); [discriminate|].
  destruct (bits =? 0) eqn:E3; [discriminate|].
  unfold D.impl.
  destruct (D.loop (Z.to_nat bits) 0 (usize (-1)) d) as [[[a m] d1]|e] eqn:Hl;
    cbn [bind]; [|discriminate].
  pose proof (loop_budget _ _ _ _ _ Hr Hl) as Hb. cbn [snd] in Hb.
  rewrite Z2Nat.id in Hb by exact Hbits.
  destruct (D.byteOrder_ d); cbn [bind]; intros [= _ <-]; exact Hb.
Qed.

(** C10. For a supported type [T] and a value [v] of it, decoding
    [serialize(v, order)] succeeds, and decoding [serialize(v, order)]
    followed by any bytes succeeds with the same value, the decoder ending
    in the same state with those bytes still unread behind its cursor; and a
    [take] of [bits] bits with [bitsLeft_] in hand pulls just the bytes that
    hold the missing bits. *)
Theorem trailing_input_ignored (T : type) (v : value) (o : ByteOrder) (sfx : list Z) :
  supported T = true -> has_type T v = true ->
  (exists data r d',
      serialize T v o = Ok data
      /\ Policy.deserialize T (value_init T) (D.init data o) = Ok (r, d')
      /\ Policy.deserialize T (value_init T) (D.init (data ++ sfx) o)
         = Ok (r, extend sfx d')
      /\ deserialize T data o = Ok r
      /\ deserialize T (data ++ sfx) o = Ok r)
  /\ (forall U bits d x d',
      0 <= bits -> 0 <= D.bitsLeft_ d <= 7 -> D.take U bits d = Ok (x, d') ->
      0 <= D.bitsLeft_ d' <= 7
      /\ 8 * Z.of_nat (length (D.input d) - length (D.input d'))
         = bits - D.bitsLeft_ d + D.bitsLeft_ d').
Proof.
  intros Hsup Hv. split.
  - destruct (decode_own_encoding T v o Hsup Hv) as [data [r [d' [Hs Hd]]]].
    pose proof (policy_extend sfx T _ _ _ _ Hd) as He.
    change (extend sfx (D.init data o)) with (D.init (data ++ sfx) o) in He.
    exists data, r, d'. unfold deserialize, deserialize_into.
    rewrite Hd, He. auto.
  - intros U bits d x d' Hbits Hr Ht.
    destruct (take_budget U bits d x d' Hbits Hr Ht) as [Hr' Hb].
    split; [exact Hr'|]. lia.
Qed.

Lemma trailing_input_ignored_witness :
  exists data r d',
    serialize (Composite [Bits uint8_t 4; Resizable (Bits int8_t 1)])
      (VSeq [VInt 0; VSeq [VInt 0; VInt (-1)]]) MsbFirst = Ok data
    /\ Policy.deserialize (Composite [Bits uint8_t 4; Resizable (Bits int8_t 1)])
         (value_init (Composite [Bits uint8_t 4; Resizable (Bits int8_t 1)]))
         (D.init data MsbFirst) = Ok (r, d')
    /\ Policy.deserialize (Composite [Bits uint8_t 4; Resizable (Bits int8_t 1)])
         (value_init (Composite [Bits uint8_t 4; Resizable (Bits int8_t 1)]))
         (D.init (data ++ [0xFF; 0x01]) MsbFirst) = Ok (r, extend [0xFF; 0x01] d')
    /\ deserialize (Composite [Bits uint8_t 4; Resizable (Bits int8_t 1)])
         data MsbFirst = Ok r
    /\ deserialize (Composite [Bits uint8_t 4; Resizable (Bits int8_t 1)])
         (data ++ [0xFF; 0x01]) MsbFirst = Ok r.
Proof.
  apply (trailing_input_ignored
           (Composite [Bits uint8_t 4; Resizable (Bits int8_t 1)])
           (VSeq [VInt 0; VSeq [VInt 0; VInt (-1)]]) MsbFirst [0xFF; 0x01]);
    vm_compute; reflexivity.
Defined.

(** * Further properties of the code

    Properties of [align], of the structural decomposition, of the encoder
    and of the decoder that the code shows beyond the statements above.  As
    in the model of the container policy, [resize] always succeeds: running
    out of memory is not modelled. *)

(** ** [align] *)

(** The loop runs up to the first index at which its test fails. *)
Lemma align_loop_stop (a s0 K : nat) :
  forall (n i : nat) (data : list Z),
    (K - i = n)%nat -> (i <= K)%nat ->
    length data = (s0 + i)%nat ->
    (forall j, (i <= j < K)%nat -> (j < a - (s0 + j) mod a)%nat) ->
    ~ (K < a - (s0 + K) mod a)%nat ->
    align_loop a i data = data ++ repeat 0 (K - i).
Proof.
  induction n as [|n IH]; intros i data Hn Hi Hlen Hgo Hstop.
  - assert (i = K) by lia. subst i.
    rewrite align_loop_equation_1.
    destruct (lt_dec K (a - length data mod a)) as [Hlt|Hlt];
      [exfalso; apply Hstop; rewrite <- Hlen; exact Hlt|].
    cbn. replace (K - K)%nat with 0%nat by lia. cbn. now rewrite app_nil_r.
  - rewrite align_loop_equation_1.
    destruct (lt_dec i (a - length data mod a)) as [Hlt|Hlt].
    + cbn. rewrite (IH (S i) (data ++ [0])).
      * rewrite <- app_assoc. f_equal.
        replace (K - i)%nat with (S (K - S i)) by lia.
        reflexivity.
      * lia.
      * lia.
      * rewrite length_app, Hlen. cbn. lia.
      * intros j Hj. apply Hgo. lia.
      * exact Hstop.
    + exfalso. apply Hlt. rewrite Hlen. apply Hgo. lia.
Qed.

Lemma mod_shift (a s j r : nat) :
  (0 < a)%nat -> (s mod a = r)%nat -> (r + j < a)%nat -> ((s + j) mod a = r + j)%nat.
Proof.
  intros Ha Hr Hj. symmetry.
  apply (Nat.mod_unique (s + j) a (s / a)); [exact Hj|].
  pose proof (Nat.div_mod_eq s a) as H. rewrite Hr in H. lia.
Qed.

Lemma mod_wrap (a s j r : nat) :
  (0 < a)%nat -> (s mod a = r)%nat -> (a <= r + j < a + a)%nat ->
  ((s + j) mod a = r + j - a)%nat.
Proof.
  intros Ha Hr Hj. symmetry.
  apply (Nat.mod_unique (s + j) a (S (s / a))); [lia|].
  pose proof (Nat.div_mod_eq s a) as H. rewrite Hr in H. lia.
Qed.

Lemma align_eq (data : list Z) (a : nat) :
  (0 < a)%nat ->
  align data a = data ++ repeat 0 (align_padding (length data) a).
Proof.
  intros Ha. unfold align, align_padding.
  set (s0 := length data). set (r := (s0 mod a)%nat).
  assert (Hr : (r < a)%nat) by (apply Nat.mod_upper_bound; lia).
  destruct (Nat.eqb_spec r 0) as [E|E]; cbn [negb].
  - cbn. now rewrite app_nil_r.
  - destruct (Nat.eqb_spec (a - r) 1) as [E1|E1].
    + pose proof (Nat.div_mod_eq a 2) as Hd.
      assert (Hm : (a mod 2 < 2)%nat) by (apply Nat.mod_upper_bound; lia).
      rewrite (align_loop_stop a s0 (S (a / 2)) (S (a / 2)) 0 data).
      * now rewrite Nat.sub_0_r.
      * lia.
      * lia.
      * lia.
      * intros j Hj. destruct j as [|j].
        -- rewrite (mod_shift a s0 0 r); fold r; lia.
        -- rewrite (mod_wrap a s0 (S j) r); fold r; lia.
      * rewrite (mod_wrap a s0 (S (a / 2)) r); fold r; lia.
    + pose proof (Nat.div_mod_eq (a - r + 1) 2) as Hd.
      assert (Hm : ((a - r + 1) mod 2 < 2)%nat) by (apply Nat.mod_upper_bound; lia).
      rewrite (align_loop_stop a s0 ((a - r + 1) / 2) ((a - r + 1) / 2) 0 data).
      * now rewrite Nat.sub_0_r.
      * lia.
      * lia.
      * lia.
      * intros j Hj. rewrite (mod_shift a s0 j r); fold r; lia.
      * rewrite (mod_shift a s0 ((a - r + 1) / 2) r); fold r; lia.
Qed.

Lemma align_padding_off (s a : nat) :
  (0 < a)%nat -> (s mod a <> 0)%nat ->
  (0 < align_padding s a)%nat /\ ((s + align_padding s a) mod a <> 0)%nat.
Proof.
  intros Ha Hs. unfold align_padding.
  set (r := (s mod a)%nat) in *.
  assert (Hr : (r < a)%nat) by (apply Nat.mod_upper_bound; lia).
  destruct (Nat.eqb_spec r 0) as [E|E]; [contradiction|].
  destruct (Nat.eqb_spec (a - r) 1) as [E1|E1].
  - pose proof (Nat.div_mod_eq a 2) as Hd.
    assert (Hm : (a mod 2 < 2)%nat) by (apply Nat.mod_upper_bound; lia).
    split; [lia|].
    rewrite (mod_wrap a s (S (a / 2)) r); fold r; lia.
  - pose proof (Nat.div_mod_eq (a - r + 1) 2) as Hd.
    assert (Hm : ((a - r + 1) mod 2 < 2)%nat) by (apply Nat.mod_upper_bound; lia).
    split; [lia|].
    rewrite (mod_shift a s ((a - r + 1) / 2) r); fold r; lia.
Qed.

(** X1. [align(data, alignment)] with a non-zero [alignment] appends
    [align_padding] zero bytes to [data] and changes nothing else.  That
    number is 0 when the size is a multiple of [alignment].  Otherwise, with
    [n = alignment - size % alignment] bytes missing to the next multiple,
    it is [(n + 1) / 2] when [n >= 2] and [alignment / 2 + 1] when [n = 1],
    the loop bound being re-evaluated on the growing vector: the vector
    grows, and its size is again not a multiple of [alignment]. *)
Theorem align_result (data : list Z) (alignment : nat) :
  (0 < alignment)%nat ->
  align data alignment
    = data ++ repeat 0 (align_padding (length data) alignment) /\
  ((length data mod alignment = 0)%nat -> align data alignment = data) /\
  ((length data mod alignment <> 0)%nat ->
   (length data < length (align data alignment))%nat /\
   (length (align data alignment) mod alignment <> 0)%nat).
Proof.
  intros Ha. pose proof (align_eq data alignment Ha) as E.
  split; [exact E|]. split.
  - intros H0. rewrite E. unfold align_padding. rewrite H0. cbn. apply app_nil_r.
  - intros Hn. rewrite E, length_app, repeat_length.
    destruct (align_padding_off (length data) alignment Ha Hn). lia.
Qed.

Lemma align_result_witness :
  (0 < 4)%nat /\ align [1; 2; 3] 4 = [1; 2; 3; 0; 0; 0].
Proof.
  split; [lia|].
  destruct (align_result [1; 2; 3] 4 ltac:(lia)) as [E _].
  rewrite E. reflexivity.
Defined.

(** ** [make_sequence], [member_count], [member_offsets] *)

Lemma make_sequence_impl_seq (C : nat) :
  forall Is, make_sequence_impl C Is = seq 0 C ++ Is.
Proof.
  induction C as [|C IH]; intros Is; [reflexivity|].
  cbn [make_sequence_impl]. rewrite IH, seq_S, <- app_assoc. reflexivity.
Qed.

(** X2. [make_sequence<C>] is the index sequence [0, 1, ..., C - 1], and
    its [size()] is [C]. *)
Theorem make_sequence_indices (C : nat) :
  make_sequence C = seq 0 C /\ sequence_size (make_sequence C) = C.
Proof.
  unfold make_sequence, sequence_size.
  rewrite make_sequence_impl_seq, app_nil_r. split; [reflexivity|].
  apply length_seq.
Qed.

Lemma member_offsets_impl_length (members : list layout) :
  forall base, length (member_offsets_impl members base) = length members.
Proof.
  induction members as [|M ms IH]; intros base; [reflexivity|].
  cbn. now rewrite IH.
Qed.

Lemma member_offsets_all (T : list layout) :
  member_offsets T = member_offsets_impl T 0.
Proof.
  unfold member_offsets. rewrite member_count_length, firstn_all. reflexivity.
Qed.

(** X3. For a class of any number of scalar members, the probing of
    [member_pack] (double the pack, else extend it by one, else stop) ends
    on the number of members: [member_count<T>::value] is that number, and
    [member_offsets<T>::value()] has one offset for each member. *)
Theorem member_count_any (T : list layout) :
  member_count T = length T /\
  length (member_offsets T) = length T.
Proof.
  split; [apply member_count_length|].
  rewrite member_offsets_all. apply member_offsets_impl_length.
Qed.

Lemma align_up (base a : Z) :
  0 < a ->
  let off := (base + a - 1) / a * a in
  base <= off < base + a /\ off mod a = 0.
Proof.
  intros Ha off. subst off. split.
  - pose proof (Z.div_mod (base + a - 1) a ltac:(lia)) as H.
    pose proof (Z.mod_pos_bound (base + a - 1) a Ha) as Hm.
    lia.
  - apply Z.mod_mul. lia.
Qed.

Lemma member_offsets_impl_natural (members : list layout) :
  Forall (fun M => 0 < align_of M) members ->
  forall base, natural_layout base members (member_offsets_impl members base).
Proof.
  induction 1 as [|M ms HM _ IH]; intros base; [exact I|].
  cbn [member_offsets_impl atom_offset_binder natural_layout].
  destruct (align_up base (align_of M) HM) as [Hr Hm].
  split; [exact Hr|]. split; [exact Hm|]. apply IH.
Qed.

(** X4. [member_offsets<T>::value()] is the natural layout of the members:
    the first offset is the least multiple of the first member's alignment
    from 0 on, and each further offset is the least multiple of the member's
    alignment at or after the end of the member before it, so that members
    are aligned and do not overlap. *)
Theorem member_offsets_natural (T : list layout) :
  Forall (fun M => 0 < align_of M) T ->
  natural_layout 0 T (member_offsets T).
Proof.
  intros H. rewrite member_offsets_all. now apply member_offsets_impl_natural.
Qed.

Lemma member_offsets_natural_witness :
  Forall (fun M => 0 < align_of M) Trio_layout /\
  natural_layout 0 Trio_layout (member_offsets Trio_layout).
Proof.
  assert (H : Forall (fun M => 0 < align_of M) Trio_layout)
    by (repeat constructor).
  split; [exact H|]. exact (member_offsets_natural Trio_layout H).
Defined.

(** ** Bytes emitted before a writer runs *)

Lemma step_prepend (pre : list Z) (data : Z) (s : S.t) :
  S.step data (prepend pre s)
  = (fst (S.step data s), prepend pre (snd (S.step data s))).
Proof.
  destruct s as [o B k bs]. unfold S.step, prepend, S.putByte.
  cbn [S.byteOrder_ S.byte_ S.bitsSet_ S.bytes].
  destruct (negb (Z.land data (S.dataMask o) =? 0));
    cbn [S.byteOrder_ S.byte_ S.bitsSet_ S.bytes];
    destruct (u8 (k + 1) =? bitsize 1);
    cbn [S.byteOrder_ S.byte_ S.bitsSet_ S.bytes];
    destruct o; cbn [fst snd S.byteOrder_ S.byte_ S.bitsSet_ S.bytes];
    rewrite ?app_assoc; reflexivity.
Qed.

Lemma loop_prepend (pre : list Z) (n : nat) :
  forall data s, S.loop n data (prepend pre s) = prepend pre (S.loop n data s).
Proof.
  induction n as [|n IH]; intros data s; [reflexivity|].
  cbn [S.loop]. rewrite step_prepend.
  destruct (S.step data s) as [data' s']. cbn [fst snd]. apply IH.
Qed.

Lemma give_prepend (T : itype) (z W : Z) : commutes_with_prepend (S.give T z W).
Proof.
  intros pre s. unfold S.give.
  destruct (W >? bitsize (sizeof T)); [reflexivity|].
  destruct (sizeof T >? sizeof_size_t); [reflexivity|].
  destruct (W =? 0); [reflexivity|].
  cbn [bind]. f_equal. unfold S.impl.
  change (S.byteOrder_ (prepend pre s)) with (S.byteOrder_ s).
  apply loop_prepend.
Qed.

Lemma run_all_prepend (ws : list (S.t -> result S.t)) :
  Forall commutes_with_prepend ws -> commutes_with_prepend (run_all ws).
Proof.
  induction 1 as [|w ws Hw _ IH]; intros pre s; [reflexivity|].
  cbn [run_all]. rewrite Hw.
  destruct (w s) as [s1|e]; [|reflexivity]. cbn [bind]. apply IH.
Qed.

Lemma put_each_run (put : value -> S.t -> result S.t) (l : list value) (s : S.t) :
  put_each put l s = run_all (map put l) s.
Proof.
  revert s. induction l as [|x l IH]; intros s; [reflexivity|].
  cbn [put_each map run_all]. destruct (put x s) as [s1|e]; [|reflexivity].
  cbn [bind]. apply IH.
Qed.

Lemma put_members_run (put : type -> value -> S.t -> result S.t)
  (members : list type) :
  forall (l : list value) (s : S.t),
    length l = length members ->
    put_members put members l s
    = run_all (map (fun p => put (fst p) (snd p)) (combine members l)) s.
Proof.
  induction members as [|M ms IH]; intros l s Hl.
  - destruct l; [reflexivity|discriminate].
  - destruct l as [|x l]; [discriminate|].
    cbn [put_members combine map run_all fst snd].
    destruct (put M x s) as [s1|e]; [|reflexivity].
    cbn [bind]. apply IH. now injection Hl.
Qed.

Lemma put_members_ill (put : type -> value -> S.t -> result S.t)
  (members : list type) :
  forall (l : list value),
    length l <> length members ->
    Forall (fun M => forall x, commutes_with_prepend (put M x)) members ->
    commutes_with_prepend (put_members put members l).
Proof.
  induction members as [|M ms IH]; intros l Hl HF pre s.
  - destruct l; [contradiction|reflexivity].
  - destruct l as [|x l]; [reflexivity|].
    cbn [put_members]. inversion HF as [|? ? HM HF']; subst.
    rewrite HM. destruct (put M x s) as [s1|e]; [|reflexivity].
    cbn [bind]. apply IH; [cbn in Hl; lia|exact HF'].
Qed.

Lemma policy_prepend (T : type) :
  forall v, commutes_with_prepend (Policy.serialize T v).
Proof.
  induction T as [U|U|w|E IH|n E IH|members IH|U W|W] using type_nested_ind;
    intros v; destruct v as [z|l|]; try (intros pre s; reflexivity).
  - apply give_prepend.
  - apply give_prepend.
  - apply give_prepend.
  - intros pre s. rewrite !serialize_Resizable.
    rewrite (give_prepend size_t _ _ pre s).
    destruct (S.give size_t _ _ s) as [s1|e]; [|reflexivity]. cbn [bind].
    rewrite !put_each_run. apply run_all_prepend.
    apply Forall_forall. intros w Hw. apply in_map_iff in Hw.
    destruct Hw as [x [<- _]]. apply IH.
  - intros pre s. rewrite !serialize_FixedArity.
    destruct (negb (length l =? n)%nat); [reflexivity|].
    rewrite !put_each_run. apply run_all_prepend.
    apply Forall_forall. intros w Hw. apply in_map_iff in Hw.
    destruct Hw as [x [<- _]]. apply IH.
  - intros pre s. rewrite !serialize_Composite.
    destruct (Nat.eq_dec (length l) (length members)) as [Hl|Hl].
    + rewrite !put_members_run by exact Hl. apply run_all_prepend.
      apply Forall_forall. intros w Hw. apply in_map_iff in Hw.
      destruct Hw as [[M x] [<- Hin]]. cbn [fst snd].
      apply in_combine_l in Hin.
      rewrite Forall_forall in IH. apply IH. exact Hin.
    + apply put_members_ill; [exact Hl|].
      eapply Forall_impl; [|exact IH]. intros M HM x. apply HM.
  - apply give_prepend.
  - apply give_prepend.
Qed.

Lemma flush_prepend (pre : list Z) (s : S.t) :
  S.flush (prepend pre s) = prepend pre (S.flush s).
Proof.
  unfold S.flush, S.putByte, prepend. cbn.
  destruct (negb (S.bitsSet_ s =? 0)); cbn; rewrite ?app_assoc; reflexivity.
Qed.

(** A serializer on a byte boundary is a fresh one after its bytes. *)
Lemma aligned_prepend (s : S.t) :
  ser_ok s -> S.bitsSet_ s = 0 ->
  s = prepend (S.bytes s) (S.init (S.byteOrder_ s)).
Proof.
  intros [Hacc _] Hk. destruct s as [o B k bs].
  cbn [S.byteOrder_ S.byte_ S.bitsSet_ S.bytes] in *. subst k.
  unfold prepend, S.init. cbn [S.byteOrder_ S.byte_ S.bitsSet_ S.bytes].
  rewrite app_nil_r. f_equal.
  unfold accumulator_ok in Hacc. rewrite !andb_true_iff in Hacc.
  destruct Hacc as [[[_ H1] H2] H3].
  apply Z.leb_le in H1. apply Z.ltb_lt in H2. apply Z.eqb_eq in H3.
  destruct o.
  - change (2 ^ (0 + 1)) with 2 in H2.
    rewrite Z.mod_small in H3 by lia. exact H3.
  - change (2 ^ (7 - 0)) with 128 in H3.
    rewrite Z.mod_small in H3 by lia. exact H3.
Qed.

Lemma run_all_written (o : ByteOrder) (ws : list (S.t -> result S.t)) :
  Forall commutes_with_prepend ws ->
  Forall (ends_aligned o) (removelast ws) ->
  written o (run_all ws) = concat_results (map (written o) ws).
Proof.
  induction ws as [|w ws IH]; intros Hc Ha; [reflexivity|].
  inversion Hc as [|? ? Hw Hc']; subst.
  destruct ws as [|w2 ws].
  - cbn [run_all map concat_results]. unfold written.
    destruct (w (S.init o)) as [s|e]; [|reflexivity].
    cbn [bind]. now rewrite app_nil_r.
  - change (removelast (w :: w2 :: ws)) with (w :: removelast (w2 :: ws)) in Ha.
    inversion Ha as [|? ? [s1 [E1 [Hok [Ho Hk]]]] Ha']; subst.
    specialize (IH Hc' Ha').
    change (map (written (S.byteOrder_ s1)) (w :: w2 :: ws))
      with (written (S.byteOrder_ s1) w :: map (written (S.byteOrder_ s1)) (w2 :: ws)).
    cbn [concat_results]. rewrite <- IH.
    unfold written at 1 2. change (run_all (w :: w2 :: ws) (S.init (S.byteOrder_ s1)))
      with (s' <- w (S.init (S.byteOrder_ s1)) ;; run_all (w2 :: ws) s').
    rewrite E1. cbn [bind].
    rewrite (flush_empty s1 Hk).
    rewrite (aligned_prepend s1 Hok Hk) at 1.
    rewrite (run_all_prepend (w2 :: ws) Hc').
    unfold written.
    destruct (run_all (w2 :: ws) (S.init (S.byteOrder_ s1))) as [s2|e]; [|reflexivity].
    cbn [bind]. rewrite flush_prepend. reflexivity.
Qed.

Lemma ends_on_byte_boundary_aligned (T : type) (v : value) (o : ByteOrder) :
  supported T = true -> has_type T v = true ->
  ends_on_byte_boundary T v o = true ->
  ends_aligned o (Policy.serialize T v).
Proof.
  intros Hs Ht He.
  destruct (serialize_wire T v o Hs Ht) as [s [E [Hok [Ho _]]]].
  exists s. unfold ends_on_byte_boundary in He. rewrite E in He.
  apply Z.eqb_eq in He. auto.
Qed.

Lemma removelast_map {A B : Type} (f : A -> B) (l : list A) :
  removelast (map f l) = map f (removelast l).
Proof.
  induction l as [|x l IH]; [reflexivity|].
  destruct l as [|y l]; [reflexivity|].
  change (removelast (map f (x :: y :: l))) with (f x :: removelast (map f (y :: l))).
  rewrite IH. reflexivity.
Qed.

Lemma In_removelast {A : Type} (x : A) (l : list A) :
  In x (removelast l) -> In x l.
Proof.
  induction l as [|y l IH]; [intros []|].
  destruct l as [|z l]; [intros []|].
  change (removelast (y :: z :: l)) with (y :: removelast (z :: l)).
  intros [<-|H]; [now left|right; now apply IH].
Qed.

Lemma has_types_length (members : list type) :
  forall l, has_types members l = true -> length l = length members.
Proof.
  induction members as [|M ms IH]; intros [|x l] H; try discriminate; [reflexivity|].
  cbn in H. apply andb_prop in H. destruct H as [_ H]. cbn. f_equal. now apply IH.
Qed.

Lemma has_types_combine (members : list type) :
  forall l p, has_types members l = true -> In p (combine members l) ->
    has_type (fst p) (snd p) = true.
Proof.
  induction members as [|M ms IH]; intros [|x l] p H Hin; try discriminate;
    try contradiction.
  cbn in H. apply andb_prop in H. destruct H as [Hx H].
  destruct Hin as [<-|Hin]; [exact Hx|]. eapply IH; eassumption.
Qed.

(** X7. When every member of a composite but the last is encoded in a
    whole number of bytes, the bytes of the composite are the bytes of its
    members, each serialized on its own, one after the other. *)
Theorem composite_concatenates (members : list type) (l : list value)
  (o : ByteOrder) :
  supported (Composite members) = true ->
  has_type (Composite members) (VSeq l) = true ->
  forallb (fun p => ends_on_byte_boundary (fst p) (snd p) o)
          (removelast (combine members l)) = true ->
  serialize (Composite members) (VSeq l) o
  = concat_results
      (map (fun p => serialize (fst p) (snd p) o) (combine members l)).
Proof.
  intros Hs Ht Ha. rewrite has_type_Composite in Ht.
  assert (Hsm : forallb supported members = true).
  { destruct members; [discriminate|exact Hs]. }
  unfold serialize at 1. rewrite serialize_Composite.
  rewrite put_members_run by (now apply has_types_length).
  set (ws := map (fun p => Policy.serialize (fst p) (snd p)) (combine members l)).
  change (written o (run_all ws)
          = concat_results
              (map (fun p => serialize (fst p) (snd p) o) (combine members l))).
  rewrite run_all_written.
  - unfold ws. rewrite map_map. reflexivity.
  - apply Forall_forall. intros w Hw. apply in_map_iff in Hw.
    destruct Hw as [p [<- _]]. apply policy_prepend.
  - unfold ws. rewrite removelast_map. apply Forall_forall.
    intros w Hw. apply in_map_iff in Hw. destruct Hw as [[M x] [<- Hin]].
    pose proof (forallb_In _ _ (M, x) Ha Hin) as HM.
    apply In_removelast in Hin. cbn [fst snd] in *.
    apply ends_on_byte_boundary_aligned.
    + apply in_combine_l in Hin.
      exact (forallb_In supported members M Hsm Hin).
    + exact (has_types_combine members l (M, x) Ht Hin).
    + exact HM.
Qed.

Lemma composite_concatenates_witness :
  serialize Trio (VSeq [VInt 0x12345678; VInt 1; VInt 0]) LsbFirst
  = Ok ([0x78; 0x56; 0x34; 0x12] ++ [0x01] ++ [0x00]).
Proof.
  unfold Trio. rewrite composite_concatenates; reflexivity.
Defined.

(** ** The bytes of an encoding *)

Lemma enc_bits_length (s : S.t) :
  length (enc_bits s)
  = (8 * length (S.bytes s) + Z.to_nat (S.bitsSet_ s))%nat.
Proof.
  unfold enc_bits. rewrite length_app, pending_length.
  rewrite (flat_map_length_const _ 8%nat)
    by (intros; apply byte_bits_length).
  lia.
Qed.

Lemma flat_map_byte_bits_length (o : ByteOrder) (l : list Z) :
  length (flat_map (byte_bits o) l) = (8 * length l)%nat.
Proof.
  rewrite (flat_map_length_const _ 8%nat) by (intros; apply byte_bits_length).
  lia.
Qed.

(** What [serialize] returns, in terms of the serializer it flushes. *)
Lemma serialize_flushed (T : type) (v : value) (o : ByteOrder) :
  supported T = true -> has_type T v = true ->
  exists ser,
    Policy.serialize T v (S.init o) = Ok ser /\
    serialize T v o = Ok (S.bytes (S.flush ser)) /\
    ser_ok ser /\ S.byteOrder_ ser = o /\ enc_bits ser = wire o T v /\
    0 <= S.bitsSet_ ser < 8 /\ 0 <= S.byte_ ser < 256.
Proof.
  intros Hs Ht.
  destruct (serialize_wire T v o Hs Ht) as [ser [E [Hok [Ho Hb]]]].
  exists ser. unfold serialize. rewrite E. cbn [bind].
  repeat split; try assumption; try apply Hok;
    destruct Hok as [Hacc _]; apply accumulator_ok_range in Hacc; lia.
Qed.

Lemma serialize_whole_bytes (T : type) (v : value) (o : ByteOrder) :
  supported T = true -> has_type T v = true ->
  (length (wire o T v) mod 8 = 0)%nat ->
  exists data,
    serialize T v o = Ok data /\ forallb byte_ok data = true /\
    flat_map (byte_bits o) data = wire o T v /\
    ends_on_byte_boundary T v o = true.
Proof.
  intros Hs Ht Hm.
  destruct (serialize_flushed T v o Hs Ht)
    as [ser [E [E' [Hok [Ho [Hb [Hk HB]]]]]]].
  assert (Hk0 : S.bitsSet_ ser = 0).
  { pose proof (enc_bits_length ser) as Hl. rewrite Hb in Hl.
    rewrite Hl in Hm.
    replace (8 * length (S.bytes ser) + Z.to_nat (S.bitsSet_ ser))%nat
      with (Z.to_nat (S.bitsSet_ ser) + length (S.bytes ser) * 8)%nat in Hm
      by lia.
    rewrite Nat.Div0.mod_add in Hm.
    rewrite Nat.mod_small in Hm by lia. lia. }
  exists (S.bytes ser). rewrite E', (flush_empty ser Hk0).
  split; [reflexivity|]. split; [apply Hok|]. split.
  - unfold enc_bits in Hb. rewrite Hk0, Ho in Hb.
    change (pending o 0 (S.byte_ ser)) with (@nil bool) in Hb.
    now rewrite app_nil_r in Hb.
  - unfold ends_on_byte_boundary. rewrite E. now apply Z.eqb_eq.
Qed.

Lemma bits_byte_checked (o : ByteOrder) (b : Z) :
  byte_ok b = true -> bits_byte o (byte_bits o b) = b.
Proof.
  intros Hb. unfold byte_ok in Hb. apply andb_prop in Hb. destruct Hb as [H0 H1].
  apply Z.leb_le in H0. apply Z.ltb_lt in H1.
  assert (H : forallb (bits_byte_check o) (Zrange 256) = true)
    by (destruct o; vm_compute; reflexivity).
  apply Z.eqb_eq. apply (Zrange_forallb (bits_byte_check o) 256 H). lia.
Qed.

Lemma app_inv_length {A : Type} (a b x y : list A) :
  length a = length b -> a ++ x = b ++ y -> a = b /\ x = y.
Proof.
  revert b. induction a as [|h a IH]; intros [|h' b] Hl H; try discriminate.
  - now split.
  - cbn in H. injection H as -> H. injection Hl as Hl.
    destruct (IH b Hl H) as [-> ->]. now split.
Qed.

Lemma bytes_of_bits_inj (o : ByteOrder) (l1 : list Z) :
  forall l2,
    forallb byte_ok l1 = true -> forallb byte_ok l2 = true ->
    flat_map (byte_bits o) l1 = flat_map (byte_bits o) l2 -> l1 = l2.
Proof.
  induction l1 as [|a l1 IH]; intros [|b l2] H1 H2 H.
  - reflexivity.
  - apply (f_equal (@length bool)) in H.
    rewrite !flat_map_byte_bits_length in H. cbn in H. lia.
  - apply (f_equal (@length bool)) in H.
    rewrite !flat_map_byte_bits_length in H. cbn in H. lia.
  - cbn [flat_map] in H. cbn [forallb] in H1, H2.
    apply andb_prop in H1. apply andb_prop in H2.
    destruct H1 as [Ha H1]. destruct H2 as [Hb H2].
    apply app_inv_length in H; [|now rewrite !byte_bits_length].
    destruct H as [Hab H].
    rewrite <- (bits_byte_checked o a Ha), <- (bits_byte_checked o b Hb), Hab.
    f_equal. now apply IH.
Qed.

(** The bytes of a whole-byte encoding are determined by its bits. *)
Lemma serialize_unique_bytes (T : type) (v : value) (o : ByteOrder)
  (bs : list Z) :
  supported T = true -> has_type T v = true ->
  forallb byte_ok bs = true ->
  flat_map (byte_bits o) bs = wire o T v ->
  serialize T v o = Ok bs.
Proof.
  intros Hs Ht Hbs Hw.
  destruct (serialize_whole_bytes T v o Hs Ht) as [data [E [Hd [Hb _]]]].
  - rewrite <- Hw, flat_map_byte_bits_length.
    now rewrite Nat.mul_comm, Nat.Div0.mod_mul.
  - rewrite E. f_equal. apply (bytes_of_bits_inj o); try assumption.
    now rewrite Hb, Hw.
Qed.

(** X5. [serialize] of a value of a supported type does not throw; it
    returns bytes in [0, 256), one for every eight bits of the encoding and
    one more for a remainder.  For a type without resizable containers that
    number depends on the type alone. *)
Theorem serialize_total (T : type) (v : value) (o : ByteOrder) :
  supported T = true -> has_type T v = true ->
  exists data,
    serialize T v o = Ok data /\
    forallb byte_ok data = true /\
    length data = ((length (wire o T v) + 7) / 8)%nat /\
    (is_static T = true -> length data = ((bit_size T + 7) / 8)%nat).
Proof.
  intros Hs Ht.
  destruct (serialize_flushed T v o Hs Ht)
    as [ser [E [E' [Hok [Ho [Hb [Hk HB]]]]]]].
  exists (S.bytes (S.flush ser)). split; [exact E'|].
  pose proof (enc_bits_length ser) as Hl. rewrite Hb in Hl.
  assert (Hlen : length (S.bytes (S.flush ser))
                 = ((length (wire o T v) + 7) / 8)%nat).
  { rewrite Hl. destruct (Z.eq_dec (S.bitsSet_ ser) 0) as [Hk0|Hk0].
    - rewrite (flush_empty ser Hk0), Hk0.
      apply (Nat.div_unique _ 8 _ 7); cbn; lia.
    - rewrite (flush_partial ser Hk0). cbn [S.bytes]. rewrite length_app.
      apply (Nat.div_unique _ 8 _ (Z.to_nat (S.bitsSet_ ser) - 1)); cbn [length]; lia. }
  split; [|split; [exact Hlen|]].
  - destruct Hok as [_ Hbytes].
    destruct (Z.eq_dec (S.bitsSet_ ser) 0) as [Hk0|Hk0].
    + now rewrite (flush_empty ser Hk0).
    + rewrite (flush_partial ser Hk0). cbn [S.bytes].
      rewrite forallb_app, Hbytes. cbn. unfold byte_ok.
      rewrite andb_true_r. apply andb_true_intro.
      split; [apply Z.leb_le | apply Z.ltb_lt]; lia.
  - intros Hst. rewrite Hlen.
    now rewrite (wire_length_static o T Hs Hst v Ht).
Qed.

Lemma serialize_total_witness :
  exists data,
    serialize Flags (VSeq [VSpare; VInt 1; VInt 2]) LsbFirst = Ok data /\
    length data = 1%nat.
Proof.
  destruct (serialize_total Flags (VSeq [VSpare; VInt 1; VInt 2]) LsbFirst
              eq_refl eq_refl) as [data [E [_ [_ Hl]]]].
  exists data. split; [exact E|]. exact (Hl eq_refl).
Defined.

(** *** Byte order of whole integers *)

Lemma map_seq_bytes {A : Type} (g : nat -> A) (n : nat) :
  map g (seq 0 (n * 8))
  = flat_map (fun i => map (fun j => g (i * 8 + j)%nat) (seq 0 8)) (seq 0 n).
Proof.
  induction n as [|n IH]; [reflexivity|].
  replace (S n * 8)%nat with (n * 8 + 8)%nat by lia.
  rewrite seq_app, map_app, IH, (seq_S n 0), flat_map_app. f_equal.
  cbn [flat_map]. rewrite app_nil_r. cbn [Nat.add].
  generalize (n * 8)%nat as m. intros m. cbn [seq map].
  repeat (f_equal; try (f_equal; lia)).
Qed.

Lemma flat_map_ext_in {A B : Type} (f g : A -> list B) (l : list A) :
  (forall x, In x l -> f x = g x) -> flat_map f l = flat_map g l.
Proof.
  induction l as [|x l IH]; intros H; [reflexivity|].
  cbn. rewrite (H x (or_introl eq_refl)). f_equal. apply IH.
  intros y Hy. apply H. now right.
Qed.

Lemma testbit_byte_of (z k j : Z) :
  0 <= k -> 0 <= j < 8 ->
  Z.testbit ((z / 2 ^ k) mod 256) j = Z.testbit z (k + j).
Proof.
  intros Hk Hj. change 256 with (2 ^ 8).
  rewrite Z.mod_pow2_bits_low by lia.
  rewrite Z.div_pow2_bits by lia. f_equal. lia.
Qed.

Lemma big_endian_bits (n : nat) (z : Z) :
  flat_map (byte_bits MsbFirst) (big_endian n z)
  = val_bits MsbFirst (8 * Z.of_nat n) z.
Proof.
  unfold val_bits, big_endian.
  replace (Z.to_nat (8 * Z.of_nat n)) with (n * 8)%nat by lia.
  rewrite map_seq_bytes, flat_map_concat_map, map_map, <- flat_map_concat_map.
  apply flat_map_ext_in. intros i Hi. apply in_seq in Hi.
  unfold byte_bits. apply map_ext_in. intros j Hj. apply in_seq in Hj.
  unfold bit_index. rewrite testbit_byte_of by lia. f_equal. lia.
Qed.

Lemma little_endian_bits (n : nat) (z : Z) :
  flat_map (byte_bits LsbFirst) (little_endian n z)
  = val_bits LsbFirst (8 * Z.of_nat n) z.
Proof.
  unfold val_bits, little_endian.
  replace (Z.to_nat (8 * Z.of_nat n)) with (n * 8)%nat by lia.
  rewrite map_seq_bytes, flat_map_concat_map, map_map, <- flat_map_concat_map.
  apply flat_map_ext_in. intros i Hi. apply in_seq in Hi.
  unfold byte_bits. apply map_ext_in. intros j Hj. apply in_seq in Hj.
  unfold bit_index. rewrite testbit_byte_of by lia. f_equal. lia.
Qed.

Lemma rev_map_seq {A : Type} (f : nat -> A) (n : nat) :
  rev (map f (seq 0 n)) = map (fun i => f (n - 1 - i)%nat) (seq 0 n).
Proof.
  induction n as [|n IH]; [reflexivity|].
  rewrite seq_S at 1. rewrite map_app, rev_app_distr. cbn [map rev app Nat.add].
  rewrite IH. change (seq 0 (S n)) with (0%nat :: seq 1 n).
  cbn [map]. f_equal; [f_equal; lia|].
  rewrite seq_map_S. apply map_ext_in. intros i Hi. apply in_seq in Hi.
  f_equal. lia.
Qed.

Lemma little_endian_rev (n : nat) (z : Z) :
  little_endian n z = rev (big_endian n z).
Proof.
  unfold little_endian, big_endian. rewrite rev_map_seq.
  apply map_ext_in. intros i Hi. apply in_seq in Hi.
  do 4 f_equal. lia.
Qed.

Lemma forallb_byte_ok_map {A : Type} (f : A -> Z) (l : list A) :
  forallb byte_ok (map (fun x => f x mod 256) l) = true.
Proof.
  induction l as [|x l IH]; [reflexivity|].
  cbn [map forallb]. rewrite IH, andb_true_r.
  pose proof (Z.mod_pos_bound (f x) 256 ltac:(lia)).
  unfold byte_ok. apply andb_true_intro.
  split; [apply Z.leb_le | apply Z.ltb_lt]; lia.
Qed.

(** X6. An integer of a supported integral type is serialized as the bytes
    of its two's complement: most significant byte first under [MsbFirst],
    least significant byte first under [LsbFirst], the one sequence being
    the reverse of the other. *)
Theorem integral_byte_order (U : itype) (z : Z) :
  supported_itype U = true -> in_range U z = true ->
  serialize (Integral U) (VInt z) MsbFirst
    = Ok (big_endian (Z.to_nat (sizeof U)) z) /\
  serialize (Integral U) (VInt z) LsbFirst
    = Ok (little_endian (Z.to_nat (sizeof U)) z) /\
  little_endian (Z.to_nat (sizeof U)) z
    = rev (big_endian (Z.to_nat (sizeof U)) z).
Proof.
  intros Hs Hr.
  assert (Hw : 8 * Z.of_nat (Z.to_nat (sizeof U)) = bitsize (sizeof U)).
  { destruct (supported_itype_sizeof U Hs) as [H|[H|[H|H]]];
      rewrite H; reflexivity. }
  split; [|split].
  - apply serialize_unique_bytes; [exact Hs|exact Hr| |].
    + apply forallb_byte_ok_map.
    + rewrite big_endian_bits, Hw. reflexivity.
  - apply serialize_unique_bytes; [exact Hs|exact Hr| |].
    + apply forallb_byte_ok_map.
    + rewrite little_endian_bits, Hw. reflexivity.
  - apply little_endian_rev.
Qed.

Lemma integral_byte_order_witness :
  serialize (Integral int16_t) (VInt (-2)) MsbFirst = Ok [0xFF; 0xFE] /\
  serialize (Integral int16_t) (VInt (-2)) LsbFirst = Ok [0xFE; 0xFF].
Proof.
  destruct (integral_byte_order int16_t (-2) eq_refl eq_refl) as [H1 [H2 _]].
  split; [exact H1|exact H2].
Defined.

(** ** Containers *)

(** X8. When every element but the last is encoded in a whole number of
    bytes, the bytes of a resizable container are the eight bytes of its
    element count followed by the bytes of its elements, each serialized on
    its own; those of a fixed-arity container are the bytes of its elements,
    with no count. *)
Theorem container_concatenates (E : type) (l : list value) (o : ByteOrder) :
  supported E = true ->
  forallb (has_type E) l = true ->
  Z.of_nat (length l) < 2 ^ word_bits ->
  forallb (fun x => ends_on_byte_boundary E x o) (removelast l) = true ->
  serialize (Resizable E) (VSeq l) o
    = (count <- serialize (Integral size_t) (VInt (Z.of_nat (length l))) o ;;
       elements <- concat_results (map (fun x => serialize E x o) l) ;;
       Ok (count ++ elements)) /\
  serialize (FixedArity (length l) E) (VSeq l) o
    = concat_results (map (fun x => serialize E x o) l).
Proof.
  intros Hs Ht Hn Ha.
  assert (Hc : Forall commutes_with_prepend (map (Policy.serialize E) l)).
  { apply Forall_forall. intros w Hw. apply in_map_iff in Hw.
    destruct Hw as [x [<- _]]. apply policy_prepend. }
  assert (Hal : Forall (ends_aligned o) (removelast (map (Policy.serialize E) l))).
  { rewrite removelast_map. apply Forall_forall. intros w Hw.
    apply in_map_iff in Hw. destruct Hw as [x [<- Hin]].
    apply ends_on_byte_boundary_aligned.
    - exact Hs.
    - apply In_removelast in Hin. exact (forallb_In _ _ x Ht Hin).
    - exact (forallb_In _ _ x Ha Hin). }
  assert (Hel : written o (run_all (map (Policy.serialize E) l))
                = concat_results (map (fun x => serialize E x o) l)).
  { rewrite run_all_written by assumption. now rewrite map_map. }
  split.
  - assert (Hsz : has_type (Integral size_t) (VInt (Z.of_nat (length l))) = true).
    { change (in_range size_t (Z.of_nat (length l)) = true).
      unfold in_range. cbn [kind size_t].
      change (bitsize (sizeof size_t)) with word_bits.
      apply andb_true_intro. split; [apply Z.leb_le | apply Z.ltb_lt]; lia. }
    destruct (serialize_whole_bytes (Integral size_t)
                (VInt (Z.of_nat (length l))) o eq_refl Hsz)
      as [count [Ec [_ [_ Hend]]]].
    { cbn [wire]. rewrite val_bits_length. reflexivity. }
    destruct (ends_on_byte_boundary_aligned (Integral size_t) _ o eq_refl Hsz Hend)
      as [s1 [E1 [Hok [Ho Hk]]]].
    rewrite Ec. cbn [bind]. rewrite <- Hel.
    unfold serialize in Ec. rewrite E1 in Ec. cbn [bind] in Ec.
    rewrite (flush_empty s1 Hk) in Ec. injection Ec as <-.
    unfold serialize. rewrite serialize_Resizable.
    change (Policy.serialize (Integral size_t) (VInt (Z.of_nat (length l))) (S.init o))
      with (S.give size_t (Z.of_nat (length l)) (bitsize (sizeof size_t)) (S.init o))
      in E1.
    rewrite E1. cbn [bind]. rewrite put_each_run.
    rewrite (aligned_prepend s1 Hok Hk) at 1. rewrite Ho.
    rewrite (run_all_prepend _ Hc). unfold written.
    destruct (run_all (map (Policy.serialize E) l) (S.init o)) as [s2|e];
      [|reflexivity].
    cbn [bind]. rewrite flush_prepend. reflexivity.
  - unfold serialize at 1. rewrite serialize_FixedArity, Nat.eqb_refl.
    cbn [negb]. rewrite put_each_run. exact Hel.
Qed.

Lemma container_concatenates_witness :
  serialize (Resizable (Integral uint16_t)) (VSeq [VInt 1; VInt 2]) MsbFirst
  = Ok ([0; 0; 0; 0; 0; 0; 0; 2] ++ [0; 1] ++ [0; 2]).
Proof.
  destruct (container_concatenates (Integral uint16_t) [VInt 1; VInt 2]
              MsbFirst eq_refl eq_refl eq_refl eq_refl) as [H _].
  rewrite H. reflexivity.
Defined.

(** ** [give] on any serializer *)

(** X9. On a serializer with [k] bits pending, [give] of [Width] bits
    leaves the bytes already emitted as they are, appends
    [(k + Width) / 8] bytes to them and leaves [(k + Width) mod 8] bits
    pending; the accumulator invariant is kept. *)
Theorem give_accumulates (T : itype) (z W : Z) (s : S.t) :
  1 <= W <= bitsize (sizeof T) -> sizeof T <= sizeof_size_t ->
  ser_ok s ->
  exists s' emitted,
    S.give T z W s = Ok s' /\
    ser_ok s' /\
    S.byteOrder_ s' = S.byteOrder_ s /\
    S.bytes s' = S.bytes s ++ emitted /\
    Z.of_nat (length emitted) = (S.bitsSet_ s + W) / 8 /\
    S.bitsSet_ s' = (S.bitsSet_ s + W) mod 8.
Proof.
  intros HW HT Hok.
  destruct (enc_give T z W s HW HT Hok) as [s' [E [Hok' [Ho Hb]]]].
  pose proof (give_prepend T z W (S.bytes s)
                (S.mk (S.byteOrder_ s) (S.byte_ s) (S.bitsSet_ s) [])) as Hp.
  assert (Hs : prepend (S.bytes s)
                 (S.mk (S.byteOrder_ s) (S.byte_ s) (S.bitsSet_ s) []) = s).
  { destruct s. unfold prepend. cbn. now rewrite app_nil_r. }
  rewrite Hs, E in Hp.
  destruct (S.give T z W _) as [s0|e] in Hp; [|discriminate].
  cbn [bind] in Hp. injection Hp as Hp.
  exists s', (S.bytes s0). split; [exact E|]. split; [exact Hok'|].
  split; [exact Ho|].
  assert (Hbytes : S.bytes s' = S.bytes s ++ S.bytes s0) by (now rewrite Hp).
  split; [exact Hbytes|].
  apply (f_equal (@length bool)) in Hb.
  rewrite length_app, !enc_bits_length, val_bits_length, Hbytes, length_app in Hb.
  destruct Hok as [Hacc _]. destruct Hok' as [Hacc' _].
  apply accumulator_ok_range in Hacc, Hacc'.
  assert (Heq : S.bitsSet_ s + W
                = 8 * Z.of_nat (length (S.bytes s0)) + S.bitsSet_ s') by lia.
  split.
  - apply (Z.div_unique_pos _ _ _ (S.bitsSet_ s')); lia.
  - apply (Z.mod_unique_pos _ _ (Z.of_nat (length (S.bytes s0)))); lia.
Qed.

Lemma give_accumulates_witness :
  exists s' emitted,
    S.give uint16_t 0x1234 12 (S.mk MsbFirst 0x0A 3 [0x55]) = Ok s' /\
    S.bytes s' = [0x55] ++ emitted /\
    Z.of_nat (length emitted) = 1 /\
    S.bitsSet_ s' = 7.
Proof.
  assert (H1 : 1 <= 12 <= bitsize (sizeof uint16_t)) by (cbn; lia).
  assert (H2 : sizeof uint16_t <= sizeof_size_t) by (unfold sizeof_size_t; cbn; lia).
  assert (H3 : ser_ok (S.mk MsbFirst 0x0A 3 [0x55])) by (split; reflexivity).
  destruct (give_accumulates uint16_t 0x1234 12 (S.mk MsbFirst 0x0A 3 [0x55])
              H1 H2 H3)
    as [s' [emitted [E [_ [_ [Hb [Hl Hk]]]]]]].
  exists s', emitted. repeat split; assumption.
Defined.

(** ** Bits left in the input *)

Lemma step_available (data m : Z) (d : D.t) :
  0 <= D.bitsLeft_ d <= 7 -> 1 <= bits_available d ->
  exists data' m' d',
    D.step data m d = Ok (data', m', d') /\
    0 <= D.bitsLeft_ d' <= 7 /\
    bits_available d' = bits_available d - 1.
Proof.
  destruct d as [o B k inp]. unfold bits_available, D.step.
  cbn [D.byteOrder_ D.byte_ D.bitsLeft_ D.input]. intros Hk Ha.
  destruct (Z.eqb_spec k 0) as [->|Hk0].
  - destruct inp as [|b rest]; [cbn [length] in Ha; lia|].
    unfold D.getByte. cbn [D.byteOrder_ D.byte_ D.bitsLeft_ D.input bind].
    destruct o; cbn [bind]; do 3 eexists; (split; [reflexivity|]);
      cbn [D.byteOrder_ D.byte_ D.bitsLeft_ D.input length];
      change (bitsize 1 - 1) with 7; lia.
  - assert (Hu : u8 (k - 1) = k - 1) by (unfold u8; apply Z.mod_small; lia).
    destruct o; cbn [bind]; do 3 eexists; (split; [reflexivity|]);
      cbn [D.byteOrder_ D.byte_ D.bitsLeft_ D.input]; rewrite Hu; lia.
Qed.

Lemma loop_available (n : nat) :
  forall (data m : Z) (d : D.t),
    0 <= D.bitsLeft_ d <= 7 -> Z.of_nat n <= bits_available d ->
    exists x, D.loop n data m d = Ok x.
Proof.
  induction n as [|n IH]; intros data m d Hk Ha.
  - eexists. reflexivity.
  - destruct (step_available data m d Hk ltac:(lia)) as [data' [m' [d' [E [Hk' Ha']]]]].
    cbn [D.loop]. rewrite E. cbn [bind]. apply IH; [exact Hk'|lia].
Qed.

Lemma take_valid (T : itype) (W : Z) (d : D.t) :
  1 <= W <= bitsize (sizeof T) -> sizeof T <= sizeof_size_t ->
  D.take T W d
  = ('(v, d') <- D.impl 0 W (is_signed T) d ;; Ok (static_cast T v, d')).
Proof.
  intros HW HT. unfold D.take.
  destruct (Z.gtb_spec W (bitsize (sizeof T))); [lia|].
  destruct (Z.gtb_spec (sizeof T) sizeof_size_t); [lia|].
  destruct (Z.eqb_spec W 0); [lia|]. reflexivity.
Qed.

Lemma take_available (T : itype) (W : Z) (d : D.t) :
  1 <= W <= bitsize (sizeof T) -> sizeof T <= sizeof_size_t ->
  0 <= D.bitsLeft_ d <= 7 ->
  (W <= bits_available d ->
   exists x d',
     D.take T W d = Ok (x, d') /\
     0 <= D.bitsLeft_ d' <= 7 /\
     bits_available d' = bits_available d - W) /\
  (bits_available d < W -> D.take T W d = Err exhausted).
Proof.
  intros HW HT Hk. split; intros Ha.
  - destruct (loop_available (Z.to_nat W) 0 (usize (-1)) d Hk ltac:(lia))
      as [[[data1 m1] d1] E].
    assert (Et : exists x, D.take T W d = Ok (x, d1)).
    { rewrite (take_valid T W d HW HT). unfold D.impl. rewrite E. cbn [bind].
      destruct (D.byteOrder_ d); cbn [bind]; eexists; reflexivity. }
    destruct Et as [x Et]. exists x, d1. split; [exact Et|].
    destruct (take_budget T W d x d1 ltac:(lia) Hk Et) as [H1 H2].
    unfold bits_available. split; [exact H1|]. lia.
  - rewrite (take_valid T W d HW HT). unfold D.impl.
    rewrite loop_exhausted; [reflexivity|exact Hk|].
    unfold bits_available in Ha. lia.
Qed.

Lemma static_budget_each (E : type) :
  static_budget E ->
  forall (tl : list value) (d : D.t),
    forallb (has_type E) tl = true ->
    0 <= D.bitsLeft_ d <= 7 ->
    (Z.of_nat (length tl * bit_size E) <= bits_available d ->
     exists l' d',
       get_each (Policy.deserialize E) tl d = Ok (l', d') /\
       0 <= D.bitsLeft_ d' <= 7 /\
       bits_available d'
       = bits_available d - Z.of_nat (length tl * bit_size E)) /\
    (bits_available d < Z.of_nat (length tl * bit_size E) ->
     get_each (Policy.deserialize E) tl d = Err exhausted).
Proof.
  intros HE. induction tl as [|x tl IH]; intros d Ht Hk.
  - split; intros Ha.
    + exists [], d. cbn [get_each get_members length Nat.mul list_sum map].
      split; [reflexivity|]. split; [exact Hk|lia].
    + cbn [length Nat.mul list_sum map] in Ha.
      unfold bits_available in Ha. lia.
  - cbn [forallb] in Ht. apply andb_prop in Ht. destruct Ht as [Hx Ht].
    cbn [length]. change (S (length tl) * bit_size E)%nat
      with (bit_size E + length tl * bit_size E)%nat.
    rewrite Nat2Z.inj_add. cbn [get_each].
    destruct (HE x d Hx Hk) as [Hgo Hstop].
    destruct (Z_le_gt_dec (Z.of_nat (bit_size E)) (bits_available d)) as [Hle|Hgt].
    + destruct (Hgo Hle) as [x' [d1 [E1 [Hk1 Ha1]]]]. rewrite E1. cbn [bind].
      destruct (IH d1 Ht Hk1) as [Hgo' Hstop'].
      split; intros Ha.
      * destruct (Hgo' ltac:(lia)) as [l' [d' [E2 [Hk2 Ha2]]]].
        rewrite E2. cbn [bind]. exists (x' :: l'), d'.
        split; [reflexivity|]. split; [exact Hk2|lia].
      * rewrite Hstop' by lia. reflexivity.
    + rewrite Hstop by lia. split; intros Ha; [lia|reflexivity].
Qed.

Lemma static_budget_members (members : list type) :
  Forall (fun M => supported M = true -> is_static M = true -> static_budget M)
         members ->
  forallb supported members = true ->
  forallb is_static members = true ->
  forall (tl : list value) (d : D.t),
    has_types members tl = true ->
    0 <= D.bitsLeft_ d <= 7 ->
    (Z.of_nat (list_sum (map bit_size members)) <= bits_available d ->
     exists l' d',
       get_members Policy.deserialize members tl d = Ok (l', d') /\
       0 <= D.bitsLeft_ d' <= 7 /\
       bits_available d'
       = bits_available d - Z.of_nat (list_sum (map bit_size members))) /\
    (bits_available d < Z.of_nat (list_sum (map bit_size members)) ->
     get_members Policy.deserialize members tl d = Err exhausted).
Proof.
  induction 1 as [|M ms HM _ IH]; intros Hs Hst tl d Ht Hk.
  - destruct tl; [|discriminate].
    change (list_sum (map bit_size [])) with 0%nat. split; intros Ha.
    + exists [], d. cbn [get_members].
      split; [reflexivity|]. split; [exact Hk|lia].
    + unfold bits_available in Ha. lia.
  - destruct tl as [|x tl]; [discriminate|].
    cbn [forallb has_types] in Hs, Hst, Ht.
    apply andb_prop in Hs. destruct Hs as [HsM Hs].
    apply andb_prop in Hst. destruct Hst as [HstM Hst].
    apply andb_prop in Ht. destruct Ht as [Hx Ht].
    change (list_sum (map bit_size (M :: ms)))
      with (bit_size M + list_sum (map bit_size ms))%nat.
    rewrite Nat2Z.inj_add. cbn [get_members].
    destruct (HM HsM HstM x d Hx Hk) as [Hgo Hstop].
    destruct (Z_le_gt_dec (Z.of_nat (bit_size M)) (bits_available d)) as [Hle|Hgt].
    + destruct (Hgo Hle) as [x' [d1 [E1 [Hk1 Ha1]]]]. rewrite E1. cbn [bind].
      destruct (IH Hs Hst tl d1 Ht Hk1) as [Hgo' Hstop'].
      split; intros Ha.
      * destruct (Hgo' ltac:(lia)) as [l' [d' [E2 [Hk2 Ha2]]]].
        rewrite E2. cbn [bind]. exists (x' :: l'), d'.
        split; [reflexivity|]. split; [exact Hk2|lia].
      * rewrite Hstop' by lia. reflexivity.
    + rewrite Hstop by lia. split; intros Ha; [lia|reflexivity].
Qed.

Ltac budget_of_take H :=
  let Hgo := fresh "Hgo" in
  let Hstop := fresh "Hstop" in
  destruct H as [Hgo Hstop]; split; intros Ha;
  [ let x := fresh "x" in
    let d' := fresh "d'" in
    let E := fresh "E" in
    let Hr := fresh "Hr" in
    destruct (Hgo ltac:(lia)) as [x [d' [E Hr]]];
    cbn [Policy.deserialize]; rewrite E; cbn [bind];
    do 2 eexists; split; [reflexivity|];
    destruct Hr; split; [assumption|lia]
  | cbn [Policy.deserialize]; rewrite Hstop by lia; reflexivity ].

Lemma static_budget_policy (T : type) :
  supported T = true -> is_static T = true -> static_budget T.
Proof.
  induction T as [U|U|w|E IH|n E IH|members IH|U W|W] using type_nested_ind;
    intros Hsup Hst t d Ht Hk.
  - destruct t as [z| |]; try discriminate.
    destruct (supported_itype_give U Hsup) as [H1 [H2 _]].
    pose proof (take_available U _ d H1 H2 Hk) as H.
    cbn [bit_size]. budget_of_take H.
  - destruct t as [z| |]; try discriminate.
    destruct (supported_itype_give U Hsup) as [H1 [H2 _]].
    pose proof (take_available U _ d H1 H2 Hk) as H.
    cbn [bit_size]. budget_of_take H.
  - destruct t as [z| |]; try discriminate.
    destruct (supported_Floating w Hsup) as [HU Hw].
    destruct (supported_itype_give _ HU) as [H1 [H2 _]].
    pose proof (take_available _ _ d H1 H2 Hk) as H.
    cbn [bit_size]. budget_of_take H.
  - discriminate.
  - destruct t as [|tl|]; try discriminate.
    cbn [has_type supported is_static bit_size] in *.
    apply andb_prop in Ht. destruct Ht as [Htlen Htl].
    rewrite deserialize_FixedArity, Htlen. cbn [negb].
    apply Nat.eqb_eq in Htlen. subst n.
    destruct tl as [|x tl].
    + split; intros Ha.
      * exists (VSeq []), d. cbn [get_each bind length Nat.mul].
        split; [reflexivity|]. split; [exact Hk|lia].
      * cbn [length Nat.mul] in Ha. unfold bits_available in Ha. lia.
    + cbn [length Nat.eqb orb] in Hst.
      destruct (static_budget_each E (IH Hsup Hst) (x :: tl) d Htl Hk)
        as [Hgo Hstop].
      split; intros Ha.
      * destruct (Hgo Ha) as [l' [d' [E1 Hr]]]. rewrite E1. cbn [bind].
        exists (VSeq l'), d'. split; [reflexivity|exact Hr].
      * rewrite (Hstop Ha). reflexivity.
  - destruct t as [|tl|]; try discriminate.
    rewrite has_type_Composite in Ht. rewrite deserialize_Composite.
    cbn [supported is_static bit_size] in *.
    assert (Hall : forallb supported members = true)
      by (destruct members; [discriminate | exact Hsup]).
    destruct (static_budget_members members IH Hall Hst tl d Ht Hk)
      as [Hgo Hstop].
    split; intros Ha.
    + destruct (Hgo Ha) as [l' [d' [E1 Hr]]]. rewrite E1. cbn [bind].
      exists (VSeq l'), d'. split; [reflexivity|exact Hr].
    + rewrite (Hstop Ha). reflexivity.
  - destruct t as [z| |]; try discriminate.
    cbn [supported bit_size] in *.
    apply andb_prop in Hsup. destruct Hsup as [Hsup HW2].
    apply andb_prop in Hsup. destruct Hsup as [HU HW1].
    apply Z.leb_le in HW1, HW2.
    destruct (supported_itype_give U HU) as [_ [H2 _]].
    pose proof (take_available U W d ltac:(lia) H2 Hk) as H.
    budget_of_take H.
  - destruct t as [| |]; try discriminate.
    cbn [supported bit_size] in *.
    apply andb_prop in Hsup. destruct Hsup as [HW1 HW2].
    apply Z.leb_le in HW1, HW2.
    assert (HW : 1 <= W <= bitsize (sizeof size_t))
      by (change (bitsize (sizeof size_t)) with word_bits; lia).
    pose proof (take_available size_t W d HW ltac:(reflexivity) Hk) as H.
    budget_of_take H.
Qed.

(** ** [take] on any deserializer *)

Lemma step_suffix (data m : Z) (d : D.t) (x : Z * Z * D.t) :
  D.step data m d = Ok x ->
  exists n, D.input (snd x) = skipn n (D.input d).
Proof.
  destruct d as [o B k inp]. unfold D.step.
  cbn [D.byteOrder_ D.byte_ D.bitsLeft_ D.input].
  destruct (k =? 0).
  - destruct inp as [|b rest]; unfold D.getByte;
      cbn [D.byteOrder_ D.byte_ D.bitsLeft_ D.input bind].
    + destruct o; discriminate.
    + destruct o; cbn [bind]; intros H; injection H as <-; exists 1%nat; reflexivity.
  - destruct o; cbn [bind]; intros H; injection H as <-; exists 0%nat; reflexivity.
Qed.

Lemma loop_suffix (n : nat) :
  forall (data m : Z) (d : D.t) (x : Z * Z * D.t),
    D.loop n data m d = Ok x ->
    exists k, D.input (snd x) = skipn k (D.input d).
Proof.
  induction n as [|n IH]; intros data m d x H.
  - cbn in H. injection H as <-. exists 0%nat. reflexivity.
  - cbn [D.loop] in H.
    destruct (D.step data m d) as [[[data' m'] d']|e] eqn:E; [|discriminate].
    cbn [bind] in H.
    destruct (step_suffix _ _ _ _ E) as [k1 H1]. cbn [snd] in H1.
    destruct (IH _ _ _ _ H) as [k2 H2].
    exists (k1 + k2)%nat. rewrite H2, H1, skipn_skipn. f_equal. lia.
Qed.

(** X10. [take] of [Width] bits succeeds exactly when that many bits are
    left, counting the unread bits of the current byte and eight for every
    byte not yet pulled; it then uses up exactly [Width] of them, pulling
    bytes from the front of the input only, and it throws
    [std::out_of_range] otherwise. *)
Theorem take_consumes (T : itype) (W : Z) (d : D.t) :
  1 <= W <= bitsize (sizeof T) -> sizeof T <= sizeof_size_t ->
  0 <= D.bitsLeft_ d <= 7 ->
  (W <= bits_available d ->
   exists x d' pulled,
     D.take T W d = Ok (x, d') /\
     0 <= D.bitsLeft_ d' <= 7 /\
     bits_available d' = bits_available d - W /\
     D.input d' = skipn pulled (D.input d)) /\
  (bits_available d < W -> D.take T W d = Err exhausted).
Proof.
  intros HW HT Hk.
  destruct (take_available T W d HW HT Hk) as [Hgo Hstop].
  split; [|exact Hstop]. intros Ha.
  destruct (Hgo Ha) as [x [d' [E [Hk' Ha']]]].
  assert (Hsfx : exists pulled, D.input d' = skipn pulled (D.input d)).
  { rewrite (take_valid T W d HW HT) in E. unfold D.impl in E.
    destruct (D.loop (Z.to_nat W) 0 (usize (-1)) d) as [[[data1 m1] d1]|e] eqn:El;
      [|discriminate].
    cbn [bind] in E.
    destruct (loop_suffix _ _ _ _ _ El) as [k Hk1]. cbn [snd] in Hk1.
    exists k. destruct (D.byteOrder_ d); cbn [bind] in E;
      injection E as _ <-; exact Hk1. }
  destruct Hsfx as [pulled Hsfx].
  exists x, d', pulled. auto.
Qed.

Lemma take_consumes_witness :
  D.take uint16_t 12 (D.mk LsbFirst 0x15 3 [0xAB]) = Err exhausted.
Proof.
  assert (H1 : 1 <= 12 <= bitsize (sizeof uint16_t)) by (cbn; lia).
  assert (H2 : sizeof uint16_t <= sizeof_size_t) by (unfold sizeof_size_t; cbn; lia).
  assert (H3 : 0 <= D.bitsLeft_ (D.mk LsbFirst 0x15 3 [0xAB]) <= 7) by (cbn; lia).
  destruct (take_consumes uint16_t 12 (D.mk LsbFirst 0x15 3 [0xAB]) H1 H2 H3)
    as [_ H].
  apply H. cbn. lia.
Defined.

(** ** Decoded values are values of the type *)

Lemma static_cast_in_range (U : itype) (x : Z) :
  supported_itype U = true -> in_range U (static_cast U x) = true.
Proof.
  intros Hs. pose proof (supported_itype_sizeof U Hs) as Hsz.
  assert (Hw : 1 <= bitsize (sizeof U))
    by (destruct Hsz as [H|[H|[H|H]]]; rewrite H; cbv; discriminate).
  unfold in_range, static_cast. destruct (kind U).
  - destruct (x =? 0); reflexivity.
  - cbv zeta.
    pose proof (Z.mod_pos_bound (x + 2 ^ (bitsize (sizeof U) - 1))
                  (2 ^ bitsize (sizeof U)) ltac:(apply Z.pow_pos_nonneg; lia)) as Hm.
    assert (Hp : 2 ^ bitsize (sizeof U) = 2 * 2 ^ (bitsize (sizeof U) - 1)).
    { rewrite <- Z.pow_succ_r by lia. f_equal. lia. }
    apply andb_true_intro. split; [apply Z.leb_le | apply Z.ltb_lt]; lia.
  - pose proof (Z.mod_pos_bound x (2 ^ bitsize (sizeof U))
                  ltac:(apply Z.pow_pos_nonneg; lia)) as Hm.
    apply andb_true_intro. split; [apply Z.leb_le | apply Z.ltb_lt]; lia.
Qed.

Lemma take_in_range (T : itype) (W : Z) (d : D.t) (x : Z) (d' : D.t) :
  supported_itype T = true ->
  D.take T W d = Ok (x, d') -> in_range T x = true.
Proof.
  intros Hs. unfold D.take.
  destruct (W >? bitsize (sizeof T)); [discriminate|].
  destruct (sizeof T >? sizeof_size_t); [discriminate|].
  destruct (W =? 0); [discriminate|].
  destruct (D.impl 0 W (is_signed T) d) as [[v d1]|e]; [|discriminate].
  cbn [bind]. intros H. injection H as <- _. now apply static_cast_in_range.
Qed.

Lemma typed_each (E : type) :
  well_typed_result E ->
  forall tl d l' d',
    forallb (has_type E) tl = true ->
    get_each (Policy.deserialize E) tl d = Ok (l', d') ->
    forallb (has_type E) l' = true.
Proof.
  intros HE. induction tl as [|x tl IH]; intros d l' d' Ht H.
  - cbn in H. injection H as <- _. reflexivity.
  - cbn [forallb] in Ht. apply andb_prop in Ht. destruct Ht as [Hx Ht].
    cbn [get_each] in H.
    destruct (Policy.deserialize E x d) as [[x' d1]|e] eqn:E1; [|discriminate].
    cbn [bind] in H.
    destruct (get_each (Policy.deserialize E) tl d1) as [[l'' d2]|e] eqn:E2;
      [|discriminate].
    cbn [bind] in H. injection H as <- _. cbn [forallb].
    rewrite (HE x d x' d1 Hx E1). exact (IH d1 l'' d2 Ht E2).
Qed.

Lemma typed_members (members : list type) :
  Forall (fun M => supported M = true -> well_typed_result M) members ->
  forallb supported members = true ->
  forall tl d l' d',
    has_types members tl = true ->
    get_members Policy.deserialize members tl d = Ok (l', d') ->
    has_types members l' = true.
Proof.
  induction 1 as [|M ms HM _ IH]; intros Hs tl d l' d' Ht H.
  - destruct tl; [|discriminate]. cbn in H. injection H as <- _. reflexivity.
  - destruct tl as [|x tl]; [discriminate|].
    cbn [forallb has_types] in Hs, Ht.
    apply andb_prop in Hs. destruct Hs as [HsM Hs].
    apply andb_prop in Ht. destruct Ht as [Hx Ht].
    cbn [get_members] in H.
    destruct (Policy.deserialize M x d) as [[x' d1]|e] eqn:E1; [|discriminate].
    cbn [bind] in H.
    destruct (get_members Policy.deserialize ms tl d1) as [[l'' d2]|e] eqn:E2;
      [|discriminate].
    cbn [bind] in H. injection H as <- _. cbn [has_types].
    rewrite (HM HsM x d x' d1 Hx E1). exact (IH Hs tl d1 l'' d2 Ht E2).
Qed.

Ltac typed_of_take U :=
  match goal with
  | H : context [D.take U ?W ?d] |- _ =>
      let x := fresh "x" in
      let d1 := fresh "d1" in
      let E := fresh "E" in
      destruct (D.take U W d) as [[x d1]|?] eqn:E; [|discriminate];
      cbn [bind] in H; injection H as <- _
  end.

Lemma typed_policy (T : type) : supported T = true -> well_typed_result T.
Proof.
  induction T as [U|U|w|E IH|n E IH|members IH|U W|W] using type_nested_ind;
    intros Hsup t d r d' Ht H.
  - destruct t as [z| |]; try discriminate. cbn [Policy.deserialize] in H.
    typed_of_take U. cbn [has_type]. eapply take_in_range; eassumption.
  - destruct t as [z| |]; try discriminate. cbn [Policy.deserialize] in H.
    typed_of_take U. cbn [has_type]. eapply take_in_range; eassumption.
  - destruct t as [z| |]; try discriminate. cbn [Policy.deserialize] in H.
    destruct (supported_Floating w Hsup) as [HU Hw].
    typed_of_take (floating_width_equivalent w). cbn [has_type].
    pose proof (take_in_range _ _ _ _ _ HU E) as Hr.
    unfold in_range in Hr. cbn [kind floating_width_equivalent] in Hr.
    rewrite Hw in Hr. exact Hr.
  - destruct t as [|tl|]; try discriminate.
    cbn [has_type supported] in *. apply andb_prop in Ht. destruct Ht as [_ Htl].
    rewrite deserialize_Resizable in H.
    destruct (D.take size_t (bitsize (sizeof size_t)) d) as [[size d1]|e] eqn:E1;
      [|discriminate].
    cbn [bind] in H.
    destruct (get_each (Policy.deserialize E) (resize (Z.to_nat size) E tl) d1)
      as [[l' d2]|e] eqn:E2; [|discriminate].
    cbn [bind] in H. injection H as <- _.
    pose proof (take_in_range size_t _ _ _ _ eq_refl E1) as Hr.
    unfold in_range in Hr. cbn [kind size_t] in Hr.
    change (bitsize (sizeof size_t)) with word_bits in Hr.
    apply andb_prop in Hr. destruct Hr as [Hr0 Hr1].
    apply Z.leb_le in Hr0. apply Z.ltb_lt in Hr1.
    apply andb_true_intro. split.
    + apply Z.ltb_lt. rewrite (get_each_length _ _ _ _ _ E2), resize_length. lia.
    + eapply typed_each; [exact (IH Hsup)| |exact E2].
      apply resize_has_type; assumption.
  - destruct t as [|tl|]; try discriminate.
    cbn [has_type supported] in *. apply andb_prop in Ht. destruct Ht as [Hlen Htl].
    rewrite deserialize_FixedArity, Hlen in H. cbn [negb] in H.
    destruct (get_each (Policy.deserialize E) tl d) as [[l' d2]|e] eqn:E2;
      [|discriminate].
    cbn [bind] in H. injection H as <- _.
    apply andb_true_intro. split.
    + rewrite (get_each_length _ _ _ _ _ E2). exact Hlen.
    + eapply typed_each; [exact (IH Hsup)|exact Htl|exact E2].
  - destruct t as [|tl|]; try discriminate.
    rewrite has_type_Composite in Ht. rewrite deserialize_Composite in H.
    assert (Hall : forallb supported members = true)
      by (destruct members; [discriminate | exact Hsup]).
    destruct (get_members Policy.deserialize members tl d) as [[l' d2]|e] eqn:E2;
      [|discriminate].
    cbn [bind] in H. injection H as <- _. rewrite has_type_Composite.
    eapply typed_members; eassumption.
  - destruct t as [z| |]; try discriminate. cbn [Policy.deserialize] in H.
    cbn [supported] in Hsup.
    apply andb_prop in Hsup. destruct Hsup as [Hsup _].
    apply andb_prop in Hsup. destruct Hsup as [HU _].
    typed_of_take U. cbn [has_type]. eapply take_in_range; eassumption.
  - destruct t as [| |]; try discriminate. cbn [Policy.deserialize] in H.
    typed_of_take size_t. reflexivity.
Qed.

(** X11. For a supported type without resizable containers, [deserialize]
    returns a value of the type whenever the input holds at least as many
    bits as the type takes, whatever the bytes are, and throws
    [std::out_of_range] whenever it holds fewer. *)
Theorem static_decode_needs (T : type) (data : list Z) (o : ByteOrder) :
  supported T = true -> is_static T = true ->
  ((bit_size T <= 8 * length data)%nat ->
   exists r, deserialize T data o = Ok r /\ has_type T r = true) /\
  ((8 * length data < bit_size T)%nat ->
   deserialize T data o = Err exhausted).
Proof.
  intros Hs Hst.
  pose proof (value_init_has_type T Hs) as Hi.
  destruct (static_budget_policy T Hs Hst (value_init T) (D.init data o) Hi)
    as [Hgo Hstop]; [cbn; lia|].
  unfold bits_available in Hgo, Hstop.
  cbn [D.init D.input D.bitsLeft_] in Hgo, Hstop.
  unfold deserialize, deserialize_into. split; intros Ha.
  - destruct (Hgo ltac:(lia)) as [r [d' [E _]]]. exists r.
    rewrite E. split; [reflexivity|].
    exact (typed_policy T Hs _ _ _ _ Hi E).
  - rewrite Hstop by lia. reflexivity.
Qed.

Lemma static_decode_needs_witness :
  (exists r, deserialize Trio [0x12; 0x34; 0x56; 0x78; 1; 0; 9] MsbFirst = Ok r) /\
  deserialize Trio [0x12; 0x34; 0x56; 0x78; 1] MsbFirst = Err exhausted.
Proof.
  split.
  - destruct (static_decode_needs Trio [0x12; 0x34; 0x56; 0x78; 1; 0; 9] MsbFirst
                eq_refl eq_refl) as [H _].
    destruct (H ltac:(cbn; lia)) as [r [E _]]. exists r. exact E.
  - destruct (static_decode_needs Trio [0x12; 0x34; 0x56; 0x78; 1] MsbFirst
                eq_refl eq_refl) as [_ H].
    apply H. cbn. lia.
Defined.



(** ** The object decoded into *)

Lemma overwrites_each (E : type) :
  overwrites E ->
  forall l1 l2 d,
    length l1 = length l2 ->
    forallb (has_type E) l1 = true -> forallb (has_type E) l2 = true ->
    get_each (Policy.deserialize E) l1 d = get_each (Policy.deserialize E) l2 d.
Proof.
  intros HE. induction l1 as [|x1 l1 IH]; intros [|x2 l2] d Hl H1 H2;
    try discriminate; [reflexivity|].
  cbn [forallb] in H1, H2.
  apply andb_prop in H1. destruct H1 as [Hx1 H1].
  apply andb_prop in H2. destruct H2 as [Hx2 H2].
  cbn [get_each]. rewrite (HE x1 x2 d Hx1 Hx2).
  destruct (Policy.deserialize E x2 d) as [[x' d1]|e]; [|reflexivity].
  cbn [bind]. rewrite (IH l2 d1); [reflexivity| |assumption|assumption].
  now injection Hl.
Qed.

Lemma overwrites_members (members : list type) :
  Forall (fun M => supported M = true -> overwrites M) members ->
  forallb supported members = true ->
  forall l1 l2 d,
    has_types members l1 = true -> has_types members l2 = true ->
    get_members Policy.deserialize members l1 d
    = get_members Policy.deserialize members l2 d.
Proof.
  induction 1 as [|M ms HM _ IH]; intros Hs [|x1 l1] [|x2 l2] d H1 H2;
    try discriminate; [reflexivity|].
  cbn [forallb has_types] in Hs, H1, H2.
  apply andb_prop in Hs. destruct Hs as [HsM Hs].
  apply andb_prop in H1. destruct H1 as [Hx1 H1].
  apply andb_prop in H2. destruct H2 as [Hx2 H2].
  cbn [get_members]. rewrite (HM HsM x1 x2 d Hx1 Hx2).
  destruct (Policy.deserialize M x2 d) as [[x' d1]|e]; [|reflexivity].
  cbn [bind]. rewrite (IH Hs l1 l2 d1 H1 H2). reflexivity.
Qed.

Lemma overwrites_policy (T : type) : supported T = true -> overwrites T.
Proof.
  induction T as [U|U|w|E IH|n E IH|members IH|U W|W] using type_nested_ind;
    intros Hsup t1 t2 d H1 H2;
    try (destruct t1; try discriminate; destruct t2; try discriminate;
         reflexivity).
  - destruct t1 as [|l1|]; try discriminate. destruct t2 as [|l2|]; try discriminate.
    cbn [has_type supported] in *.
    apply andb_prop in H1. destruct H1 as [_ H1].
    apply andb_prop in H2. destruct H2 as [_ H2].
    rewrite !deserialize_Resizable.
    destruct (D.take size_t (bitsize (sizeof size_t)) d) as [[size d1]|e];
      [|reflexivity].
    cbn [bind].
    rewrite (overwrites_each E (IH Hsup) (resize (Z.to_nat size) E l1)
               (resize (Z.to_nat size) E l2) d1).
    + reflexivity.
    + now rewrite !resize_length.
    + now apply resize_has_type.
    + now apply resize_has_type.
  - destruct t1 as [|l1|]; try discriminate. destruct t2 as [|l2|]; try discriminate.
    cbn [has_type supported] in *.
    apply andb_prop in H1. destruct H1 as [Hl1 H1].
    apply andb_prop in H2. destruct H2 as [Hl2 H2].
    rewrite !deserialize_FixedArity, Hl1, Hl2. cbn [negb].
    apply Nat.eqb_eq in Hl1, Hl2.
    rewrite (overwrites_each E (IH Hsup) l1 l2 d); [reflexivity|lia| |];
      assumption.
  - destruct t1 as [|l1|]; try discriminate. destruct t2 as [|l2|]; try discriminate.
    rewrite has_type_Composite in H1, H2. rewrite !deserialize_Composite.
    assert (Hall : forallb supported members = true)
      by (destruct members; [discriminate | exact Hsup]).
    rewrite (overwrites_members members IH Hall l1 l2 d H1 H2). reflexivity.
Qed.

(** X13. Decoding into an existing object gives the outcome of decoding
    into a value-initialised one: nothing of the previous contents of the
    object survives, and the same inputs fail. *)
Theorem decode_overwrites (T : type) (t : value) (data : list Z)
  (o : ByteOrder) :
  supported T = true -> has_type T t = true ->
  deserialize_into T t data o = deserialize T data o.
Proof.
  intros Hs Ht. unfold deserialize, deserialize_into.
  rewrite (overwrites_policy T Hs t (value_init T) (D.init data o) Ht
             (value_init_has_type T Hs)).
  reflexivity.
Qed.

Lemma decode_overwrites_witness :
  deserialize_into (Resizable (Integral uint8_t)) (VSeq [VInt 7; VInt 8; VInt 9])
    [0; 0; 0; 0; 0; 0; 0; 1; 5] MsbFirst
  = deserialize (Resizable (Integral uint8_t)) [0; 0; 0; 0; 0; 0; 0; 1; 5] MsbFirst.
Proof.
  apply (decode_overwrites (Resizable (Integral uint8_t))
           (VSeq [VInt 7; VInt 8; VInt 9])); reflexivity.
Defined.

(** ** Bit-fields of signed types *)

Lemma lor_disjoint (a m W : Z) :
  0 <= W -> 0 <= a < 2 ^ W ->
  (forall j, 0 <= j < W -> Z.testbit m j = false) ->
  Z.lor a m = a + m.
Proof.
  intros HW Ha Hm.
  assert (Hl : Z.land a m = 0).
  { apply Z.bits_inj'. intros j Hj. rewrite Z.land_spec, Z.bits_0.
    destruct (Z_lt_ge_dec j W) as [Hlt|Hge].
    - rewrite (Hm j) by lia. apply andb_false_r.
    - rewrite <- (Z.mod_small a (2 ^ W)) by lia.
      rewrite Z.mod_pow2_bits_high by lia. reflexivity. }
  rewrite <- Z.lxor_lor by exact Hl. symmetry. now apply Z.add_nocarry_lxor.
Qed.

Lemma signed_field_cast (o : ByteOrder) (U : itype) (W z : Z) :
  kind U = KSigned -> supported_itype U = true ->
  1 <= W < bitsize (sizeof U) ->
  - 2 ^ (W - 1) <= z < 2 ^ (W - 1) ->
  (o = LsbFirst -> sizeof U < sizeof_size_t) ->
  static_cast U (Z.lor (z mod 2 ^ W) (sign_mask o W))
  = signed_field_readback o W z.
Proof.
  intros Hk Hs HW Hz Ho.
  destruct (supported_itype_give U Hs) as [_ [_ Hw64]].
  pose proof (supported_itype_sizeof U Hs) as Hsz.
  set (w := bitsize (sizeof U)) in *.
  assert (Hp : 2 ^ W = 2 * 2 ^ (W - 1)).
  { rewrite <- Z.pow_succ_r by lia. f_equal. lia. }
  assert (Hq : 2 ^ w = 2 * 2 ^ (w - 1)).
  { rewrite <- Z.pow_succ_r by lia. f_equal. lia. }
  assert (Hpq : 2 ^ W <= 2 ^ (w - 1)) by (apply Z.pow_le_mono_r; lia).
  assert (Hp0 : 0 < 2 ^ (W - 1)) by (apply Z.pow_pos_nonneg; lia).
  assert (Hm : z mod 2 ^ W = if z <? 0 then z + 2 ^ W else z).
  { destruct (Z.ltb_spec z 0).
    - symmetry. apply (Z.mod_unique_pos _ _ (-1)); lia.
    - apply Z.mod_small. lia. }
  assert (Hr : 0 <= z mod 2 ^ W < 2 ^ W) by (apply Z.mod_pos_bound; lia).
  rewrite (lor_disjoint (z mod 2 ^ W) (sign_mask o W) W); try lia.
  2:{ intros j Hj. apply sign_mask_low_bits; [lia| |exact Hj].
      destruct o; [now left|right].
      specialize (Ho eq_refl). unfold w, bitsize, CHAR_BIT in *.
      unfold sizeof_size_t in Ho. unfold word_bits. lia. }
  unfold static_cast. rewrite Hk. fold w. cbv zeta.
  unfold signed_field_readback, sign_mask. destruct o.
  - assert (H64 : 2 ^ word_bits = 2 ^ (word_bits - w) * 2 ^ w).
    { rewrite <- Z.pow_add_r by lia. f_equal. lia. }
    replace (z mod 2 ^ W + (2 ^ word_bits - 2 ^ W) + 2 ^ (w - 1))
      with (z mod 2 ^ W - 2 ^ W + 2 ^ (w - 1) + 2 ^ (word_bits - w) * 2 ^ w)
      by lia.
    rewrite Z.mod_add by lia. rewrite Hm.
    destruct (Z.ltb_spec z 0); rewrite Z.mod_small; lia.
  - specialize (Ho eq_refl).
    assert (Hw32 : w + W <= word_bits).
    { unfold w, bitsize, CHAR_BIT in *. unfold sizeof_size_t in Ho.
      unfold word_bits. lia. }
    assert (H64 : 2 ^ word_bits = 2 ^ (word_bits - w) * 2 ^ w).
    { rewrite <- Z.pow_add_r by lia. f_equal. lia. }
    assert (H64' : 2 ^ (word_bits - W) = 2 ^ (word_bits - W - w) * 2 ^ w).
    { rewrite <- Z.pow_add_r by lia. f_equal. lia. }
    replace (z mod 2 ^ W + (2 ^ word_bits - 2 ^ (word_bits - W)) + 2 ^ (w - 1))
      with (z mod 2 ^ W + 2 ^ (w - 1)
            + (2 ^ (word_bits - w) - 2 ^ (word_bits - W - w)) * 2 ^ w)
      by lia.
    rewrite Z.mod_add by lia. rewrite Hm.
    destruct (Z.ltb_spec z 0); rewrite Z.mod_small; lia.
Qed.

(** X14. A bit-field narrower than its signed type, holding [z] in the
    two's complement range of its width and padded to a byte boundary, is
    read back as follows.  Under [MsbFirst] a negative [z] is read back as
    [z] and a non-negative one as [z - 2^Width]; under [LsbFirst], for types
    narrower than the platform word, a non-negative [z] is read back as [z]
    and a negative one as [z + 2^Width]. *)
Theorem signed_bit_field_readback (U : itype) (W P z : Z) (o : ByteOrder) :
  kind U = KSigned -> supported_itype U = true ->
  1 <= W < bitsize (sizeof U) ->
  1 <= P <= word_bits -> (W + P) mod 8 = 0 ->
  - 2 ^ (W - 1) <= z < 2 ^ (W - 1) ->
  (o = LsbFirst -> sizeof U < sizeof_size_t) ->
  exists data,
    serialize (Composite [Bits U W; Spare P]) (VSeq [VInt z; VSpare]) o
      = Ok data /\
    deserialize (Composite [Bits U W; Spare P]) data o
      = Ok (VSeq [VInt (signed_field_readback o W z); VSpare]).
Proof.
  intros Hk Hs HW HP Hmod Hz Ho.
  destruct (supported_itype_give U Hs) as [_ [HU8 Hw64]].
  assert (Hsup : supported (Composite [Bits U W; Spare P]) = true).
  { cbn [supported forallb]. rewrite Hs.
    rewrite (proj2 (Z.leb_le 1 W)), (proj2 (Z.leb_le W _)) by lia.
    rewrite (proj2 (Z.leb_le 1 P)), (proj2 (Z.leb_le P _)) by lia.
    reflexivity. }
  assert (Hin : in_range U z = true).
  { unfold in_range. rewrite Hk.
    assert (2 ^ (W - 1) <= 2 ^ (bitsize (sizeof U) - 1))
      by (apply Z.pow_le_mono_r; lia).
    apply andb_true_intro. split; [apply Z.leb_le | apply Z.ltb_lt]; lia. }
  assert (Hty : has_type (Composite [Bits U W; Spare P]) (VSeq [VInt z; VSpare])
                = true).
  { rewrite has_type_Composite. cbn [has_types has_type]. now rewrite Hin. }
  assert (Hwire : wire o (Composite [Bits U W; Spare P]) (VSeq [VInt z; VSpare])
                  = val_bits o W z ++ val_bits o P 0 ++ []).
  { rewrite wire_Composite. reflexivity. }
  destruct (serialize_whole_bytes _ _ o Hsup Hty) as [data [E [Hbytes [Hbits _]]]].
  { rewrite Hwire, !length_app, !val_bits_length. cbn [length].
    pose proof (Z.div_mod (W + P) 8 ltac:(lia)) as Hd. rewrite Hmod in Hd.
    replace (Z.to_nat W + (Z.to_nat P + 0))%nat
      with (Z.to_nat ((W + P) / 8) * 8)%nat by lia.
    apply Nat.Div0.mod_mul. }
  exists data. split; [exact E|].
  assert (Hd : des_ok (D.init data o)) by (split; [reflexivity | exact Hbytes]).
  assert (Hdb : dec_bits (D.init data o)
                = val_bits (D.byteOrder_ (D.init data o)) W z
                  ++ (val_bits o P 0 ++ [])).
  { unfold dec_bits. cbn [D.init D.byteOrder_ D.bitsLeft_ D.byte_ D.input].
    rewrite remaining_nil. cbn [app]. rewrite Hbits. exact Hwire. }
  destruct (dec_take U W z _ (D.init data o) ltac:(lia) HU8 Hd Hdb)
    as [d1 [E1 [Hd1 [Ho1 Hb1]]]].
  assert (Hsg : is_signed U = true) by (unfold is_signed; now rewrite Hk).
  rewrite Hsg in E1.
  change (D.byteOrder_ (D.init data o)) with o in E1, Ho1.
  rewrite (signed_field_cast o U W z Hk Hs HW Hz Ho) in E1.
  assert (Hdb1 : dec_bits d1 = val_bits (D.byteOrder_ d1) P 0 ++ []).
  { rewrite Hb1, Ho1. reflexivity. }
  destruct (dec_take size_t P 0 [] d1) as [d2 [E2 _]];
    [change (bitsize (sizeof size_t)) with word_bits; lia
    |reflexivity|exact Hd1|exact Hdb1|].
  unfold deserialize, deserialize_into.
  change (value_init (Composite [Bits U W; Spare P]))
    with (VSeq [VInt 0; VSpare]).
  rewrite deserialize_Composite. cbn [get_members Policy.deserialize].
  rewrite E1. cbn [bind]. rewrite E2. reflexivity.
Qed.

Lemma signed_bit_field_readback_witness :
  exists data,
    serialize (Composite [Bits int8_t 5; Spare 3]) (VSeq [VInt 5; VSpare])
      MsbFirst = Ok data /\
    deserialize (Composite [Bits int8_t 5; Spare 3]) data MsbFirst
      = Ok (VSeq [VInt (-27); VSpare]).
Proof.
  apply (signed_bit_field_readback int8_t 5 3 5 MsbFirst);
    try reflexivity; try discriminate; unfold word_bits; cbn; lia.
Defined.

(** ** Every byte string is the encoding of the value it decodes to *)

Lemma val_bits_msbval (L : list bool) :
  val_bits MsbFirst (Z.of_nat (length L)) (msbval L) = L.
Proof.
  induction L as [|b L IH] using rev_ind; [reflexivity|].
  rewrite msbval_app, length_app. cbn [length].
  replace (Z.of_nat (length L + 1)) with (Z.succ (Z.of_nat (length L))) by lia.
  unfold val_bits in *. rewrite Z2Nat.inj_succ by lia.
  rewrite Nat2Z.id in *. rewrite seq_S, map_app. cbn [map Nat.add].
  change (2 ^ Z.of_nat 1) with 2.
  replace (msbval [b]) with (Z.b2z b) by (destruct b; reflexivity).
  f_equal.
  - rewrite <- IH at 2. apply map_ext_in. intros i Hi. apply in_seq in Hi.
    replace (Z.succ (Z.of_nat (length L)) - 1 - Z.of_nat i)
      with (Z.succ (Z.of_nat (length L) - 1 - Z.of_nat i)) by lia.
    rewrite (Z.mul_comm (msbval L) 2). apply Z.testbit_succ_r. lia.
  - f_equal.
    replace (Z.succ (Z.of_nat (length L)) - 1 - Z.of_nat (length L)) with 0 by lia.
    rewrite (Z.mul_comm (msbval L) 2). apply Z.testbit_0_r.
Qed.

Lemma val_bits_lsb_rev (W v : Z) :
  val_bits LsbFirst W v = rev (val_bits MsbFirst W v).
Proof.
  unfold val_bits. rewrite rev_map_seq.
  apply map_ext_in. intros i Hi. apply in_seq in Hi. f_equal. lia.
Qed.

(** The value whose [Z.of_nat (length L)]-bit encoding is [L]. *)
Lemma bits_have_value (o : ByteOrder) (L : list bool) :
  exists v,
    0 <= v < 2 ^ Z.of_nat (length L) /\
    val_bits o (Z.of_nat (length L)) v = L.
Proof.
  destruct o.
  - exists (msbval L). split; [apply msbval_range|apply val_bits_msbval].
  - exists (msbval (rev L)). split.
    + rewrite <- length_rev. apply msbval_range.
    + rewrite val_bits_lsb_rev, <- length_rev, val_bits_msbval.
      apply rev_involutive.
Qed.

(** X15. Every sequence of [sizeof(T)] bytes is the encoding of the
    value it decodes to, for an unsigned integer type [T] and either byte
    order: deserializing the bytes and serializing the result gives the
    bytes back. *)
Theorem unsigned_bytes_reencode (U : itype) (data : list Z) (o : ByteOrder) :
  kind U = KUnsigned -> supported_itype U = true ->
  forallb byte_ok data = true ->
  Z.of_nat (length data) = sizeof U ->
  exists v,
    deserialize (Integral U) data o = Ok (VInt v) /\
    serialize (Integral U) (VInt v) o = Ok data.
Proof.
  intros Hk Hs Hb Hl.
  destruct (bits_have_value o (flat_map (byte_bits o) data)) as [v [Hv Hbits]].
  rewrite flat_map_byte_bits_length in Hv, Hbits.
  assert (Hw : Z.of_nat (8 * length data) = bitsize (sizeof U)).
  { unfold bitsize, CHAR_BIT. lia. }
  rewrite Hw in Hv, Hbits.
  assert (Hty : has_type (Integral U) (VInt v) = true).
  { cbn [has_type]. unfold in_range. rewrite Hk.
    apply andb_true_intro. split; [apply Z.leb_le | apply Z.ltb_lt]; lia. }
  assert (Hser : serialize (Integral U) (VInt v) o = Ok data).
  { apply serialize_unique_bytes; [exact Hs|exact Hty|exact Hb|].
    cbn [wire]. now rewrite Hbits. }
  exists v. split; [|exact Hser].
  assert (Hex : exact_type o (Integral U) = true).
  { cbn [exact_type]. unfold exact_itype, is_signed. now rewrite Hk. }
  assert (Hend : ends_on_byte_boundary (Integral U) (VInt v) o = true).
  { destruct (serialize_whole_bytes (Integral U) (VInt v) o Hs Hty)
      as [? [_ [_ [_ He]]]]; [|exact He].
    cbn [wire]. rewrite val_bits_length, <- Hw, Nat2Z.id.
    now rewrite Nat.mul_comm, Nat.Div0.mod_mul. }
  destruct (roundtrip_into (Integral U) (VInt v) (value_init (Integral U)) o
              Hs Hex Hty eq_refl (value_init_has_type (Integral U) Hs) Hend)
    as [data' [E' Hd]].
  rewrite Hser in E'. injection E' as <-. exact Hd.
Qed.

Lemma unsigned_bytes_reencode_witness :
  exists v,
    deserialize (Integral uint32_t) [0x12; 0x34; 0x56; 0x78] LsbFirst
      = Ok (VInt v) /\
    serialize (Integral uint32_t) (VInt v) LsbFirst
      = Ok [0x12; 0x34; 0x56; 0x78].
Proof.
  apply (unsigned_bytes_reencode uint32_t [0x12; 0x34; 0x56; 0x78] LsbFirst);
    reflexivity.
Defined.

(** ** Round trip with seven bits pending *)

(** With seven bits pending, the accumulator is the byte that holds them
    followed by a zero bit. *)
Lemma pending_seven (o : ByteOrder) (B : Z) :
  accumulator_ok o 7 B = true ->
  byte_bits o B = pending o 7 B ++ [false].
Proof.
  intros Hacc. unfold accumulator_ok in Hacc. rewrite !andb_true_iff in Hacc.
  destruct Hacc as [[[_ H1] H2] H3].
  apply Z.leb_le in H1. apply Z.ltb_lt in H2. apply Z.eqb_eq in H3.
  unfold byte_bits, pending, bit_index.
  change (Z.to_nat 7) with 7%nat. change (seq 0 8) with (seq 0 7 ++ [7%nat]).
  rewrite map_app. destruct o.
  - f_equal. cbn [map]. f_equal.
    change (7 - Z.of_nat 7) with 0. rewrite Z.bit0_eqb, H3. reflexivity.
  - f_equal. cbn [map]. f_equal.
    change (Z.of_nat 7) with 7.
    rewrite <- (Z.mod_small B (2 ^ 7)) by (change (2 ^ 7) with 128; lia).
    apply Z.mod_pow2_bits_high. lia.
Qed.

(** X16. The round trip also holds for an encoding that ends one bit
    before a byte boundary: with seven bits pending, the byte that [flush]
    emits is the one that holds them in stream order, followed by a zero
    bit.  Under the conditions on the type and the value of the round trip
    on a byte boundary, [deserialize<T>(serialize(v, order), order)] is
    [v]. *)
Theorem roundtrip_one_bit_short (T : type) (v : value) (o : ByteOrder) :
  supported T = true -> exact_type o T = true ->
  has_type T v = true -> fits T v = true ->
  ends_one_bit_short T v o = true ->
  exists data, serialize T v o = Ok data /\ deserialize T data o = Ok v.
Proof.
  intros Hsup Hex Hv Hf Hend.
  destruct (serialize_wire T v o Hsup Hv) as [ser [Hs [[Hacc Hbytes] [Ho Hb]]]].
  unfold ends_one_bit_short in Hend. rewrite Hs in Hend.
  apply Z.eqb_eq in Hend.
  assert (Hk : S.bitsSet_ ser <> 0) by lia.
  exists (S.bytes ser ++ [S.byte_ ser]). unfold serialize. rewrite Hs.
  cbn [bind]. rewrite (flush_partial ser Hk). cbn [S.bytes].
  split; [reflexivity|].
  rewrite Hend, Ho in Hacc.
  pose proof (accumulator_ok_range _ _ _ Hacc) as [_ HB].
  unfold enc_bits in Hb. rewrite Hend, Ho in Hb.
  assert (Hd : des_ok (D.init (S.bytes ser ++ [S.byte_ ser]) o)).
  { split; [reflexivity|]. cbn [D.init D.input].
    rewrite forallb_app, Hbytes. cbn [forallb andb].
    rewrite andb_true_r. unfold byte_ok. apply andb_true_intro.
    split; [apply Z.leb_le | apply Z.ltb_lt]; lia. }
  assert (Hbits : dec_bits (D.init (S.bytes ser ++ [S.byte_ ser]) o)
                  = wire o T v ++ [false]).
  { unfold dec_bits. cbn [D.init D.byteOrder_ D.bitsLeft_ D.byte_ D.input].
    rewrite remaining_nil. cbn [app].
    rewrite flat_map_app. cbn [flat_map]. rewrite app_nil_r.
    rewrite (pending_seven o _ Hacc), app_assoc, Hb. reflexivity. }
  destruct (dec_policy o T Hsup Hex v (value_init T) _ [false] Hv Hf
              (value_init_has_type T Hsup) Hd eq_refl Hbits) as [d' [Hdes _]].
  unfold deserialize, deserialize_into. rewrite Hdes. reflexivity.
Qed.

Lemma roundtrip_one_bit_short_witness :
  exists data,
    serialize (Composite [Bits uint8_t 3; Integral uint16_t; Bits uint8_t 4])
      (VSeq [VInt 5; VInt 0xBEEF; VInt 9]) MsbFirst = Ok data /\
    deserialize (Composite [Bits uint8_t 3; Integral uint16_t; Bits uint8_t 4])
      data MsbFirst = Ok (VSeq [VInt 5; VInt 0xBEEF; VInt 9]).
Proof.
  apply (roundtrip_one_bit_short
           (Composite [Bits uint8_t 3; Integral uint16_t; Bits uint8_t 4])
           (VSeq [VInt 5; VInt 0xBEEF; VInt 9]) MsbFirst);
    vm_compute; reflexivity.
Defined.

(** ** Word-wide signed integers, least significant bit first *)

Lemma lor_ones_mod (v : Z) :
  Z.lor v (2 ^ word_bits - 1) mod 2 ^ word_bits = 2 ^ word_bits - 1.
Proof.
  assert (Hw : 0 <= word_bits) by (unfold word_bits; lia).
  rewrite <- Z.land_ones by exact Hw.
  replace (2 ^ word_bits - 1) with (Z.ones word_bits)
    by (rewrite Z.ones_equiv; lia).
  apply Z.bits_inj'. intros j Hj. rewrite Z.land_spec, Z.lor_spec.
  destruct (Z.testbit v j), (Z.testbit (Z.ones word_bits) j); reflexivity.
Qed.

(** X17. Under [LsbFirst], [deserialize<int64_t>] returns -1 for every
    input of at least eight bytes: the sign mask of a field as wide as the
    platform word covers the whole word, and it is or-ed into the value
    whatever the sign bit is. *)
Theorem lsb_first_int64_reads_minus_one (data : list Z) :
  forallb byte_ok data = true -> (8 <= length data)%nat ->
  deserialize (Integral int64_t) data LsbFirst = Ok (VInt (-1)).
Proof.
  intros Hb Hl.
  assert (Hd : des_ok (D.init data LsbFirst)) by (split; [reflexivity|exact Hb]).
  destruct (take_any int64_t 64 (D.init data LsbFirst)) as [x [d' [E [_ [_ [_ Hx]]]]]].
  - cbn. lia.
  - unfold sizeof_size_t. cbn. lia.
  - exact Hd.
  - unfold dec_bits. cbn [D.init D.byteOrder_ D.bitsLeft_ D.byte_ D.input].
    rewrite remaining_nil. cbn [app].
    rewrite (flat_map_length_const _ 8%nat) by (intros; apply byte_bits_length).
    change (Z.to_nat 64) with 64%nat. lia.
  - unfold deserialize, deserialize_into.
    change (value_init (Integral int64_t)) with (VInt 0).
    cbn [Policy.deserialize].
    change (bitsize (sizeof int64_t)) with 64. rewrite E. cbn [bind].
    do 2 f_equal. rewrite Hx.
    change (is_signed int64_t) with true. cbv zeta.
    change (D.byteOrder_ (D.init data LsbFirst)) with LsbFirst.
    change (sign_mask LsbFirst 64) with (2 ^ word_bits - 1).
    unfold static_cast. cbn [kind int64_t].
    change (bitsize (sizeof int64_t)) with word_bits. cbv zeta.
    rewrite <- Z.add_mod_idemp_l
      by (apply Z.pow_nonzero; unfold word_bits; lia).
    rewrite lor_ones_mod. reflexivity.
Qed.

Lemma lsb_first_int64_reads_minus_one_witness :
  deserialize (Integral int64_t) [1; 2; 3; 4; 5; 6; 7; 8; 9] LsbFirst
  = Ok (VInt (-1)).
Proof.
  apply (lsb_first_int64_reads_minus_one [1; 2; 3; 4; 5; 6; 7; 8; 9]);
    [reflexivity | cbn; lia].
Defined.

(** ** Floating-point values *)

(** X18. A floating-point value of 16, 32 or 64 bits is serialized as the
    bytes of its bit pattern, most significant byte first under [MsbFirst]
    and least significant byte first under [LsbFirst]. *)
Theorem floating_byte_order (w z : Z) :
  supported (Floating w) = true -> has_type (Floating w) (VInt z) = true ->
  serialize (Floating w) (VInt z) MsbFirst
    = Ok (big_endian (Z.to_nat (w / CHAR_BIT)) z) /\
  serialize (Floating w) (VInt z) LsbFirst
    = Ok (little_endian (Z.to_nat (w / CHAR_BIT)) z).
Proof.
  intros Hs Ht.
  assert (Hw : 8 * Z.of_nat (Z.to_nat (w / CHAR_BIT)) = w).
  { cbn [supported] in Hs. rewrite !orb_true_iff in Hs.
    destruct Hs as [[H|H]|H]; apply Z.eqb_eq in H; subst w; reflexivity. }
  split.
  - apply serialize_unique_bytes; [exact Hs|exact Ht| |].
    + apply forallb_byte_ok_map.
    + rewrite big_endian_bits, Hw. reflexivity.
  - apply serialize_unique_bytes; [exact Hs|exact Ht| |].
    + apply forallb_byte_ok_map.
    + rewrite little_endian_bits, Hw. reflexivity.
Qed.

Lemma floating_byte_order_witness :
  serialize (Floating 32) (VInt 0xBFA00000) MsbFirst = Ok [0xBF; 0xA0; 0; 0] /\
  serialize (Floating 32) (VInt 0xBFA00000) LsbFirst = Ok [0; 0; 0xA0; 0xBF].
Proof.
  exact (floating_byte_order 32 0xBFA00000 eq_refl eq_refl).
Defined.
